(** * Verification of the claude-memory-system deduplication core

    A shallow embedding of [deduplication_engine.py] (text normalisation,
    the four similarity metrics and their weighted composite, greedy leader
    clustering, resolution of duplicate groups) and of the signature grouping
    of [checkpoint_filter.py], followed by the properties proved about them.

    Conventions.
    - A Python [str] is a list of code points.  The embedding covers the
      code points U+0000 .. U+00FF, one [ascii] value per code point.
    - A Python [float] is an IEEE 754 binary64 number, given by the
      Standard Library's [spec_float] with [prec = 53] and [emax = 1024].
    - A Python [int] is a [Z]; record ids and timestamps are [Z].
    - Lists used as stacks or sets are Rocq lists; dictionaries whose keys
      are fixed by the program are records. *)

From Stdlib Require Import Ascii String.
From Stdlib Require Import List ZArith NArith Lia Bool.
From Stdlib Require Import Permutation DecimalString.
From Stdlib Require Import SpecFloat.
Import ListNotations.

Local Open Scope Z_scope.

(* ================================================================== *)
(** * Part I: the program *)
(* ================================================================== *)

(** ** Python strings *)

Module PyStr.

Definition text := list ascii.

Definition str (s : string) : text := list_ascii_of_string s.

Definition code (c : ascii) : N := N_of_ascii c.

Definition in_range (lo hi : N) (c : ascii) : bool :=
  ((lo <=? code c) && (code c <=? hi))%N.

Definition is_code (n : N) (c : ascii) : bool := (code c =? n)%N.

(** [str.isspace] on one code point; also the class [\s] of [re] for
    [str] patterns, and what [str.strip] and [str.split] take off. *)
Definition is_space (c : ascii) : bool :=
  in_range 9 13 c || in_range 28 32 c || is_code 133 c || is_code 160 c.

(** The class [\d] of [re] for [str] patterns: decimal digits. *)
Definition is_decimal (c : ascii) : bool := in_range 48 57 c.

(** [str.isalnum] on one code point. *)
Definition is_alnum (c : ascii) : bool :=
  in_range 48 57 c || in_range 65 90 c || in_range 97 122 c
  || is_code 170 c || is_code 178 c || is_code 179 c || is_code 181 c
  || is_code 185 c || is_code 186 c || in_range 188 190 c
  || in_range 192 214 c || in_range 216 246 c || in_range 248 255 c.

(** The class [\w] of [re] for [str] patterns. *)
Definition is_word (c : ascii) : bool := is_alnum c || is_code 95 c.

(** [str.lower] on one code point. *)
Definition lower_char (c : ascii) : ascii :=
  if in_range 65 90 c || in_range 192 214 c || in_range 216 222 c
  then ascii_of_N (code c + 32)
  else c.

Definition lower (t : text) : text := map lower_char t.

Fixpoint lstrip (t : text) : text :=
  match t with
  | [] => []
  | c :: t' => if is_space c then lstrip t' else t
  end.

Definition rstrip (t : text) : text := rev (lstrip (rev t)).

(** [str.strip()] without argument. *)
Definition strip (t : text) : text := rstrip (lstrip t).

Definition char_eqb (a b : ascii) : bool := Ascii.eqb a b.

Fixpoint text_eqb (s t : text) : bool :=
  match s, t with
  | [], [] => true
  | a :: s', b :: t' => char_eqb a b && text_eqb s' t'
  | _, _ => false
  end.

(** [str.split()] without argument: the maximal runs of characters that
    are not whitespace, in order.  [cur] is the run being read. *)
Fixpoint split_from (cur : text) (t : text) : list text :=
  match t with
  | [] => match cur with [] => [] | _ => [cur] end
  | c :: t' =>
      if is_space c
      then match cur with
           | [] => split_from [] t'
           | _ => cur :: split_from [] t'
           end
      else split_from (cur ++ [c]) t'
  end.

Definition split (t : text) : list text := split_from [] t.

(** [str(n)] for an [int]. *)
Definition str_of_int (n : Z) : text :=
  str (NilEmpty.string_of_int (Z.to_int n)).

End PyStr.

Export PyStr.

(** ** The fragment of [re] the program uses

    Every pattern of the two modules is a concatenation of single-character
    atoms, each under a greedy quantifier.  A pattern is a list of such
    items; matching backtracks over the greedy quantifiers the way [re]
    does. *)

Module Re.

Inductive atom : Type :=
| Lit (c : ascii)        (* a literal character *)
| Digit                  (* \d *)
| Word                   (* \w *)
| Space                  (* \s *)
| NotWordSpace.          (* [^\w\s] *)

Record item : Type := Item {
  it_atom : atom;
  it_min : nat;
  it_max : option nat   (* [None]: unbounded *)
}.

Definition regex := list item.

Definition one (a : atom) : item := Item a 1 (Some 1%nat).
Definition exactly (n : nat) (a : atom) : item := Item a n (Some n).
Definition plus (a : atom) : item := Item a 1 None.
Definition star (a : atom) : item := Item a 0 None.

(** The literal string [s] as a pattern. *)
Definition lits (s : string) : regex := map (fun c => one (Lit c)) (str s).

(** [ic] is the flag [re.IGNORECASE]. *)
Definition atom_matches (ic : bool) (a : atom) (c : ascii) : bool :=
  match a with
  | Lit x => if ic then char_eqb (lower_char c) (lower_char x) else char_eqb c x
  | Digit => is_decimal c
  | Word => is_word c
  | Space => is_space c
  | NotWordSpace => negb (is_word c || is_space c)
  end.

Definition can_take (hi : option nat) : bool :=
  match hi with Some O => false | _ => true end.

Definition dec (hi : option nat) : option nat :=
  match hi with Some n => Some (pred n) | None => None end.

(** One quantified atom followed by the continuation [k]: take as many
    characters as allowed, and give them back one by one while the
    continuation fails.  The result is the text left after the match. *)
Fixpoint repeat_match (p : ascii -> bool) (k : text -> option text)
         (lo : nat) (hi : option nat) (s : text) {struct s} : option text :=
  let stop := match lo with O => k s | S _ => None end in
  match s with
  | [] => stop
  | c :: s' =>
      if can_take hi && p c
      then match repeat_match p k (pred lo) (dec hi) s' with
           | Some rest => Some rest
           | None => stop
           end
      else stop
  end.

(** A match of the whole pattern at the start of the text. *)
Fixpoint match_here (ic : bool) (r : regex) : text -> option text :=
  match r with
  | [] => fun s => Some s
  | it :: r' =>
      repeat_match (atom_matches ic (it_atom it)) (match_here ic r')
                   (it_min it) (it_max it)
  end.

(** [re.search(r, s, flags) is not None]. *)
Fixpoint search (ic : bool) (r : regex) (s : text) : bool :=
  match match_here ic r s with
  | Some _ => true
  | None => match s with
            | [] => false
            | _ :: s' => search ic r s'
            end
  end.

(** [re.sub(r, repl, s)]: the leftmost matches, not overlapping, each
    replaced by [repl].  [skip] counts the characters of the current
    match still to pass.  The patterns of the program match at least one
    character; a match of no character is left alone. *)
Fixpoint sub_from (r : regex) (repl : text) (skip : nat) (s : text) : text :=
  match s with
  | [] => []
  | c :: s' =>
      match skip with
      | S n => sub_from r repl n s'
      | O =>
          match match_here false r s with
          | Some rest =>
              match (length s - length rest)%nat with
              | O => c :: sub_from r repl 0 s'
              | S n => repl ++ sub_from r repl n s'
              end
          | None => c :: sub_from r repl 0 s'
          end
      end
  end.

Definition sub (r : regex) (repl : text) (s : text) : text :=
  sub_from r repl 0 s.

End Re.

(** ** [normalize_text] (deduplication_engine.py, lines 89-110) *)

Definition char_hyphen : ascii := "-"%char.
Definition char_colon : ascii := ":"%char.

(** [\d{4}-\d{2}-\d{2}] *)
Definition pat_date : Re.regex :=
  [Re.exactly 4 Re.Digit; Re.one (Re.Lit char_hyphen);
   Re.exactly 2 Re.Digit; Re.one (Re.Lit char_hyphen); Re.exactly 2 Re.Digit].

(** [\d{2}:\d{2}:\d{2}] *)
Definition pat_time : Re.regex :=
  [Re.exactly 2 Re.Digit; Re.one (Re.Lit char_colon);
   Re.exactly 2 Re.Digit; Re.one (Re.Lit char_colon); Re.exactly 2 Re.Digit].

(** [ID:\s*\d+] *)
Definition pat_id : Re.regex :=
  Re.lits "ID:" ++ [Re.star Re.Space; Re.plus Re.Digit].

(** [#\d+] *)
Definition pat_hash : Re.regex := Re.lits "#" ++ [Re.plus Re.Digit].

Definition patterns : list Re.regex := [pat_date; pat_time; pat_id; pat_hash].

(** [\s+] *)
Definition pat_spaces : Re.regex := [Re.plus Re.Space].

(** [[^\w\s]] *)
Definition pat_punct : Re.regex := [Re.one Re.NotWordSpace].

Definition normalize_text (t : text) : text :=
  let normalized := strip (lower t) in
  let normalized :=
    fold_left (fun acc pattern => Re.sub pattern [] acc) patterns normalized in
  let normalized := Re.sub pat_spaces (str " ") normalized in
  let normalized := Re.sub pat_punct [] normalized in
  strip normalized.

(** ** Python floats: IEEE 754 binary64 *)

Module F64.

Definition prec : Z := 53.
Definition emax : Z := 1024.

Definition float := spec_float.

Definition add : float -> float -> float := SFadd prec emax.
Definition sub : float -> float -> float := SFsub prec emax.
Definition mul : float -> float -> float := SFmul prec emax.
Definition div : float -> float -> float := SFdiv prec emax.

(** [x <= y] on floats; false when either side is a NaN. *)
Definition leb (x y : float) : bool := SFleb x y.

(** [x >= y]. *)
Definition geb (x y : float) : bool := leb y x.

(** [float(n)] for an [int]: the nearest binary64 number, ties to even. *)
Definition of_int (n : Z) : float := binary_normalize prec emax n 0 false.

(** [a / b] on two [int]s.  The quotient of the two conversions, which is
    what CPython computes when both operands are below [2^53] in absolute
    value; the program divides lengths and counts only.  The program
    guards every division against a zero divisor. *)
Definition truediv (a b : Z) : float := div (of_int a) (of_int b).

(** The decimal literal [num / den], [den] a power of ten: the nearest
    binary64 number, as the parser of float literals gives it. *)
Definition lit (num den : Z) : float := truediv num den.

Definition zero : float := S754_zero false.                    (* 0.0 *)
Definition one : float := Eval vm_compute in of_int 1.         (* 1.0 *)
Definition two : float := Eval vm_compute in of_int 2.         (* 2.0 *)

End F64.

(** ** [difflib.SequenceMatcher] of the Python standard library

    The program calls [SequenceMatcher(None, norm1, norm2).ratio()]
    (deduplication_engine.py, line 122): [isjunk] is [None] and [autojunk]
    has its default [True].  The definitions follow [Lib/difflib.py]:
    [__chain_b], [find_longest_match], [get_matching_blocks], [ratio]. *)

Module Difflib.

Definition len (s : text) : Z := Z.of_nat (List.length s).

(** [s[i]] for an index within bounds. *)
Definition item (s : text) (i : Z) : ascii := nth (Z.to_nat i) s Ascii.zero.

(** [range(lo, hi)]. *)
Definition range (lo hi : Z) : list Z :=
  map (fun n => lo + Z.of_nat n) (seq 0 (Z.to_nat (hi - lo))).

(** The indices of [elt] in [b], ascending, the first of [b] being [i]. *)
Fixpoint indices_from (i : Z) (elt : ascii) (b : text) : list Z :=
  match b with
  | [] => []
  | c :: b' =>
      if char_eqb c elt then i :: indices_from (i + 1) elt b'
      else indices_from (i + 1) elt b'
  end.

Definition indices (elt : ascii) (b : text) : list Z := indices_from 0 elt b.

(** [__chain_b]: with [n = len(b) >= 200], an element that occurs more
    than [n // 100 + 1] times is popular and is purged from [b2j]. *)
Definition popular (b : text) (elt : ascii) : bool :=
  (200 <=? len b) && (len b / 100 + 1 <? Z.of_nat (List.length (indices elt b))).

(** [b2j.get(elt, [])]. *)
Definition b2j (b : text) (elt : ascii) : list Z :=
  if popular b elt then [] else indices elt b.

(** [bjunk] is empty, [isjunk] being [None]. *)
Definition isbjunk (c : ascii) : bool := false.

Record Match : Type := mkMatch { m_a : Z; m_b : Z; m_size : Z }.

(** The dictionary [j2len], as an association list, newest binding first. *)
Definition dict := list (Z * Z).

Fixpoint dict_get (d : dict) (key default : Z) : Z :=
  match d with
  | [] => default
  | (k, v) :: d' => if k =? key then v else dict_get d' key default
  end.

Definition dict_set (d : dict) (key v : Z) : dict := (key, v) :: d.

(** The inner [for j in b2j.get(a[i], nothing)] of [find_longest_match]. *)
Fixpoint scan_row (j2len : dict) (i blo bhi : Z) (js : list Z)
         (newj2len : dict) (best : Match) : dict * Match :=
  match js with
  | [] => (newj2len, best)
  | j :: js' =>
      if j <? blo then scan_row j2len i blo bhi js' newj2len best
      else if bhi <=? j then (newj2len, best)
      else
        let k := dict_get j2len (j - 1) 0 + 1 in
        let newj2len' := dict_set newj2len j k in
        let best' :=
          if m_size best <? k then mkMatch (i - k + 1) (j - k + 1) k else best in
        scan_row j2len i blo bhi js' newj2len' best'
  end.

(** The outer [for i in range(alo, ahi)]; the state is [(j2len, best)]. *)
Definition scan_rows (a b : text) (alo ahi blo bhi : Z) : Match :=
  snd (fold_left
         (fun (st : dict * Match) (i : Z) =>
            scan_row (fst st) i blo bhi (b2j b (item a i)) [] (snd st))
         (range alo ahi)
         ([], mkMatch alo blo 0)).

(** The two [while] loops that grow the match to the left; [junk] tells
    which of them: the element taken must have [isbjunk] equal to
    [junk].  Each turn lowers [besti], which stays above [alo]. *)
Fixpoint extend_left_loop (fuel : nat) (a b : text) (alo blo : Z)
         (junk : bool) (m : Match) : Match :=
  match fuel with
  | O => m
  | S fuel' =>
      if (alo <? m_a m) && (blo <? m_b m)
         && Bool.eqb (isbjunk (item b (m_b m - 1))) junk
         && char_eqb (item a (m_a m - 1)) (item b (m_b m - 1))
      then extend_left_loop fuel' a b alo blo junk
             (mkMatch (m_a m - 1) (m_b m - 1) (m_size m + 1))
      else m
  end.

Definition extend_left (a b : text) (alo blo : Z) (junk : bool) (m : Match) : Match :=
  extend_left_loop (Z.to_nat (m_a m - alo)) a b alo blo junk m.

(** The two [while] loops that grow the match to the right. *)
Fixpoint extend_right_loop (fuel : nat) (a b : text) (ahi bhi : Z)
         (junk : bool) (m : Match) : Match :=
  match fuel with
  | O => m
  | S fuel' =>
      if (m_a m + m_size m <? ahi) && (m_b m + m_size m <? bhi)
         && Bool.eqb (isbjunk (item b (m_b m + m_size m))) junk
         && char_eqb (item a (m_a m + m_size m)) (item b (m_b m + m_size m))
      then extend_right_loop fuel' a b ahi bhi junk
             (mkMatch (m_a m) (m_b m) (m_size m + 1))
      else m
  end.

Definition extend_right (a b : text) (ahi bhi : Z) (junk : bool) (m : Match) : Match :=
  extend_right_loop (Z.to_nat (ahi - (m_a m + m_size m))) a b ahi bhi junk m.

Definition find_longest_match (a b : text) (alo ahi blo bhi : Z) : Match :=
  let best := scan_rows a b alo ahi blo bhi in
  let best := extend_left a b alo blo false best in
  let best := extend_right a b ahi bhi false best in
  let best := extend_left a b alo blo true best in
  extend_right a b ahi bhi true best.

Definition bounds : Type := Z * Z * Z * Z.

(** The [while queue] loop of [get_matching_blocks].  The Python list
    [queue] is a stack: [pop] and [append] work at its end, which is the
    head of the list here.  The result is the queue left and the blocks
    found; [2 * len(a) + 1] turns empty the queue. *)
Fixpoint blocks_loop (fuel : nat) (a b : text) (queue : list bounds)
         (matching_blocks : list Match) : list bounds * list Match :=
  match fuel with
  | O => (queue, matching_blocks)
  | S fuel' =>
      match queue with
      | [] => (queue, matching_blocks)
      | (alo, ahi, blo, bhi) :: queue =>
          let x := find_longest_match a b alo ahi blo bhi in
          let i := m_a x in
          let j := m_b x in
          let k := m_size x in
          if k =? 0 then blocks_loop fuel' a b queue matching_blocks
          else
            let queue :=
              if (alo <? i) && (blo <? j) then (alo, i, blo, j) :: queue
              else queue in
            let queue :=
              if (i + k <? ahi) && (j + k <? bhi) then (i + k, ahi, j + k, bhi) :: queue
              else queue in
            blocks_loop fuel' a b queue (matching_blocks ++ [x])
      end
  end.

(** The order of tuples [(i, j, k)]. *)
Definition match_leb (x y : Match) : bool :=
  if m_a x <? m_a y then true
  else if m_a y <? m_a x then false
  else if m_b x <? m_b y then true
  else if m_b y <? m_b x then false
  else m_size x <=? m_size y.

Fixpoint insert_sorted (x : Match) (l : list Match) : list Match :=
  match l with
  | [] => [x]
  | y :: l' => if match_leb x y then x :: l else y :: insert_sorted x l'
  end.

(** [matching_blocks.sort()]. *)
Definition sort (l : list Match) : list Match := fold_right insert_sorted [] l.

(** The loop that collapses adjacent blocks; the state is the block
    [(i1, j1, k1)] compared against and [non_adjacent]. *)
Fixpoint collapse (cur : Match) (non_adjacent : list Match)
         (blocks : list Match) : list Match :=
  match blocks with
  | [] =>
      if m_size cur =? 0 then non_adjacent else non_adjacent ++ [cur]
  | x :: blocks' =>
      if (m_a cur + m_size cur =? m_a x) && (m_b cur + m_size cur =? m_b x)
      then collapse (mkMatch (m_a cur) (m_b cur) (m_size cur + m_size x))
                    non_adjacent blocks'
      else
        collapse x
          (if m_size cur =? 0 then non_adjacent else non_adjacent ++ [cur])
          blocks'
  end.

Definition get_matching_blocks (a b : text) : list Match :=
  let la := len a in
  let lb := len b in
  let matching_blocks :=
    snd (blocks_loop (2 * List.length a + 1) a b [(0, la, 0, lb)] []) in
  let matching_blocks := sort matching_blocks in
  let non_adjacent := collapse (mkMatch 0 0 0) [] matching_blocks in
  non_adjacent ++ [mkMatch la lb 0].

Definition sum_sizes (l : list Match) : Z :=
  fold_left (fun acc x => acc + m_size x) l 0.

(** [_calculate_ratio(matches, length)]. *)
Definition calculate_ratio (matches length : Z) : F64.float :=
  if length =? 0 then F64.one
  else F64.div (F64.mul F64.two (F64.of_int matches)) (F64.of_int length).

(** [SequenceMatcher(None, a, b).ratio()]. *)
Definition ratio (a b : text) : F64.float :=
  let matches := sum_sizes (get_matching_blocks a b) in
  calculate_ratio matches (len a + len b).

End Difflib.

(** ** [Levenshtein.distance] of the python-Levenshtein package

    The package is compiled code outside the repository.  Its [distance] is
    the edit distance with insertions, deletions and substitutions at unit
    cost, given here by its defining recurrence. *)

Fixpoint levenshtein_distance (s : text) : text -> Z :=
  fix inner (t : text) : Z :=
    match s, t with
    | [], _ => Z.of_nat (List.length t)
    | _, [] => Z.of_nat (List.length s)
    | a :: s', b :: t' =>
        Z.min (Z.min (levenshtein_distance s' t + 1) (inner t' + 1))
              (levenshtein_distance s' t' + (if char_eqb a b then 0 else 1))
    end.

(** ** [calculate_similarity] (deduplication_engine.py, lines 112-159) *)

(** The dictionary [self.weights]. *)
Record weights : Type := mkWeights {
  w_exact_match : F64.float;
  w_sequence_similarity : F64.float;
  w_levenshtein_similarity : F64.float;
  w_jaccard_similarity : F64.float
}.

(** The defaults of [__init__]: 0.3, 0.25, 0.25, 0.2. *)
Definition default_weights : weights :=
  Eval vm_compute in
    mkWeights (F64.lit 3 10) (F64.lit 25 100) (F64.lit 25 100) (F64.lit 2 10).

(** The dictionary [calculate_similarity] returns. *)
Record scores : Type := mkScores {
  exact_match : F64.float;
  sequence_similarity : F64.float;
  levenshtein_similarity : F64.float;
  jaccard_similarity : F64.float;
  composite_similarity : F64.float
}.

Definition text_dec : forall x y : text, {x = y} + {x <> y} :=
  list_eq_dec ascii_dec.

(** [set(norm.split())]: a list without repetition. *)
Definition word_set (norm : text) : list text := nodup text_dec (split norm).

Definition intersection (words1 words2 : list text) : list text :=
  filter (fun w => if in_dec text_dec w words2 then true else false) words1.

Definition union (words1 words2 : list text) : list text :=
  words1 ++ filter (fun w => if in_dec text_dec w words1 then false else true) words2.

Definition is_empty {A : Type} (l : list A) : bool :=
  match l with [] => true | _ => false end.

Definition exact_match_of (norm1 norm2 : text) : F64.float :=
  if text_eqb norm1 norm2 then F64.one else F64.zero.

Definition levenshtein_similarity_of (norm1 norm2 : text) : F64.float :=
  let max_len := Z.max (Difflib.len norm1) (Difflib.len norm2) in
  if max_len =? 0 then F64.one
  else
    let levenshtein_distance := levenshtein_distance norm1 norm2 in
    F64.sub F64.one (F64.truediv levenshtein_distance max_len).

Definition jaccard_similarity_of (norm1 norm2 : text) : F64.float :=
  let words1 := word_set norm1 in
  let words2 := word_set norm2 in
  if is_empty words1 && is_empty words2 then F64.one
  else if is_empty words1 || is_empty words2 then F64.zero
  else
    let intersection := intersection words1 words2 in
    let union := union words1 words2 in
    F64.truediv (Z.of_nat (List.length intersection)) (Z.of_nat (List.length union)).

Definition calculate_similarity (w : weights) (text1 text2 : text) : scores :=
  let norm1 := normalize_text text1 in
  let norm2 := normalize_text text2 in
  let exact_match := exact_match_of norm1 norm2 in
  let sequence_similarity := Difflib.ratio norm1 norm2 in
  let levenshtein_similarity := levenshtein_similarity_of norm1 norm2 in
  let jaccard_similarity := jaccard_similarity_of norm1 norm2 in
  let composite_similarity :=
    F64.add
      (F64.add
         (F64.add (F64.mul exact_match (w_exact_match w))
                  (F64.mul sequence_similarity (w_sequence_similarity w)))
         (F64.mul levenshtein_similarity (w_levenshtein_similarity w)))
      (F64.mul jaccard_similarity (w_jaccard_similarity w)) in
  mkScores exact_match sequence_similarity levenshtein_similarity
           jaccard_similarity composite_similarity.

(** ** The clustering step of [find_duplicates] (lines 184-221) *)

(** A row [(id, content, created_at)] of the query. *)
Record record : Type := mkRecord {
  rec_id : Z;
  rec_content : text;
  rec_created_at : Z
}.

Record duplicate_group : Type := mkGroup {
  group_id : nat;
  records : list record;
  count : nat;
  similarity_scores : list scores
}.

(** What the engine keeps of its configuration. *)
Record engine : Type := mkEngine {
  similarity_threshold : F64.float;
  engine_weights : weights
}.

(** The defaults of [__init__]: threshold 0.85 and the default weights. *)
Definition default_engine : engine :=
  Eval vm_compute in mkEngine (F64.lit 85 100) default_weights.

(** The set [processed_ids], as a list. *)
Definition id_in (i : Z) (processed_ids : list Z) : bool :=
  existsb (Z.eqb i) processed_ids.

Definition is_duplicate (self : engine) (content1 content2 : text) : bool :=
  let similarity := calculate_similarity (engine_weights self) content1 content2 in
  F64.geb (composite_similarity similarity) (similarity_threshold self).

(** The inner loop over [records[i+1:]]; the state is
    [(current_group, processed_ids)]. *)
Fixpoint scan_candidates (self : engine) (content1 : text) (rest : list record)
         (current_group : list record) (processed_ids : list Z)
  : list record * list Z :=
  match rest with
  | [] => (current_group, processed_ids)
  | record2 :: rest' =>
      if id_in (rec_id record2) processed_ids
      then scan_candidates self content1 rest' current_group processed_ids
      else if is_duplicate self content1 (rec_content record2)
      then scan_candidates self content1 rest'
             (current_group ++ [record2]) (rec_id record2 :: processed_ids)
      else scan_candidates self content1 rest' current_group processed_ids
  end.

Definition make_group (self : engine) (group_id : nat)
           (current_group : list record) : duplicate_group :=
  mkGroup group_id current_group (List.length current_group)
    (match current_group with
     | [] => []
     | leader :: members =>
         map (fun r => calculate_similarity (engine_weights self)
                         (rec_content leader) (rec_content r)) members
     end).

(** The outer loop over [records]; the state is
    [(duplicate_groups, processed_ids)]. *)
Fixpoint cluster_loop (self : engine) (records : list record)
         (duplicate_groups : list duplicate_group) (processed_ids : list Z)
  : list duplicate_group :=
  match records with
  | [] => duplicate_groups
  | record1 :: rest =>
      if id_in (rec_id record1) processed_ids
      then cluster_loop self rest duplicate_groups processed_ids
      else
        let '(current_group, processed_ids) :=
          scan_candidates self (rec_content record1) rest [record1] processed_ids in
        let duplicate_groups :=
          if (1 <? List.length current_group)%nat
          then duplicate_groups
                 ++ [make_group self (List.length duplicate_groups) current_group]
          else duplicate_groups in
        cluster_loop self rest duplicate_groups (rec_id record1 :: processed_ids)
  end.

Definition find_duplicate_groups (self : engine) (records : list record)
  : list duplicate_group :=
  cluster_loop self records [] [].

(** The part of the result of [find_duplicates] that [resolve_duplicates]
    and the reports read.  [records] is what the query returned. *)
Record analysis_result : Type := mkAnalysis {
  total_records : nat;
  duplicate_groups : list duplicate_group;
  duplicate_records : nat
}.

Definition find_duplicates (self : engine) (records : list record) : analysis_result :=
  let duplicate_groups := find_duplicate_groups self records in
  mkAnalysis (List.length records) duplicate_groups
             (fold_left (fun acc g => (acc + count g)%nat) duplicate_groups 0%nat).

(** ** The database, as [resolve_duplicates] uses it

    The table [observations] holds rows [(id, content, created_at)].  A
    connection works on its own copy of the rows, which [commit] makes the
    table and [rollback] and [close] discard.  Every operation the program
    asks for is written to a journal.  [connect], [execute] and [commit] can
    fail: [faults n] is the message of the exception that the [n]-th
    operation raises, counted from the start of the journal. *)

Inductive statement : Type :=
| AppendToContent (suffix : text) (id : Z)
    (* UPDATE observations SET content = content || suffix WHERE id = %s *)
| SetContent (content : text) (updated_at : Z) (id : Z).
    (* UPDATE observations SET content = %s, updated_at = %s WHERE id = %s *)

Inductive db_event : Type :=
| EvConnect
| EvExecute (s : statement)
| EvCommit
| EvRollback
| EvClose.

Record world : Type := mkWorld {
  table : list record;
  pending : option (list record);
  journal : list db_event;
  faults : nat -> option text;
  clock : Z                          (* what [datetime.now()] reads *)
}.

Inductive result (A : Type) : Type :=
| Ok (a : A)
| Raise (message : text).
Arguments Ok {A} a.
Arguments Raise {A} message.

(** Computations on the world that can raise. *)
Definition io (A : Type) : Type := world -> result A * world.

Definition ret {A : Type} (a : A) : io A := fun w => (Ok a, w).

Definition raise {A : Type} (message : text) : io A := fun w => (Raise message, w).

Definition bind {A B : Type} (m : io A) (f : A -> io B) : io B :=
  fun w =>
    match m w with
    | (Ok a, w') => f a w'
    | (Raise message, w') => (Raise message, w')
    end.

Notation "x <- m ;; k" := (bind m (fun x => k))
  (at level 61, m at next level, right associativity).
Notation "m ;;; k" := (bind m (fun _ => k))
  (at level 61, right associativity).

Definition log (e : db_event) (w : world) : world :=
  mkWorld (table w) (pending w) (journal w ++ [e]) (faults w) (clock w).

Definition set_pending (p : option (list record)) (w : world) : world :=
  mkWorld (table w) p (journal w) (faults w) (clock w).

Definition set_table (t : list record) (w : world) : world :=
  mkWorld t (pending w) (journal w) (faults w) (clock w).

(** An operation that can fail: the journal gets the event either way. *)
Definition attempt (e : db_event) (effect : world -> world) : io unit :=
  fun w =>
    match faults w (List.length (journal w)) with
    | Some message => (Raise message, log e w)
    | None => (Ok tt, effect (log e w))
    end.

Definition apply_statement (s : statement) (rows : list record) : list record :=
  match s with
  | AppendToContent suffix id =>
      map (fun r => if rec_id r =? id
                    then mkRecord (rec_id r) (rec_content r ++ suffix) (rec_created_at r)
                    else r) rows
  | SetContent content _ id =>
      map (fun r => if rec_id r =? id
                    then mkRecord (rec_id r) content (rec_created_at r)
                    else r) rows
  end.

Definition connect_db : io unit :=
  attempt EvConnect (fun w => set_pending (Some (table w)) w).

Definition execute (s : statement) : io unit :=
  attempt (EvExecute s)
          (fun w => set_pending (option_map (apply_statement s) (pending w)) w).

Definition commit : io unit :=
  attempt EvCommit
          (fun w => match pending w with
                    | Some rows => set_table rows w
                    | None => w
                    end).

Definition rollback (w : world) : world :=
  set_pending (option_map (fun _ => table w) (pending w)) (log EvRollback w).

Definition close (w : world) : world := set_pending None (log EvClose w).

Definition now : io Z := fun w => (Ok (clock w), w).

Fixpoint for_each {A : Type} (l : list A) (body : A -> io unit) : io unit :=
  match l with
  | [] => ret tt
  | x :: l' => body x ;;; for_each l' body
  end.

(** ** [resolve_duplicates] (deduplication_engine.py, lines 241-356) *)

(** An entry of [resolution_actions]. *)
Inductive resolution_action : Type :=
| ActKeepLatest (kept_id : Z) (marked_ids : list Z) (group_size : nat)
| ActMerge (primary_id : Z) (secondary_ids : list Z) (group_size : nat)
| ActFlagOnly (flagged_ids : list Z) (group_id : nat) (group_size : nat).

Definition action_group_size (a : resolution_action) : nat :=
  match a with
  | ActKeepLatest _ _ n => n
  | ActMerge _ _ n => n
  | ActFlagOnly _ _ n => n
  end.

(** The three dictionaries [resolve_duplicates] returns. *)
Inductive resolution_result : Type :=
| NoDuplicatesFound
| ResolutionError (message : text)
| ResolutionDone (applied : bool) (strategy : text) (groups_processed : nat)
                 (records_affected : nat) (resolution_actions : list resolution_action).

(** The entry ['action'] of the result. *)
Definition action_of (r : resolution_result) : text :=
  match r with
  | NoDuplicatesFound => str "no_duplicates_found"
  | ResolutionError _ => str "error"
  | ResolutionDone true _ _ _ _ => str "resolution_applied"
  | ResolutionDone false _ _ _ _ => str "dry_run_completed"
  end.

(** The entry ['message'] of the result, where it has one. *)
Definition message_of (r : resolution_result) : option text :=
  match r with
  | NoDuplicatesFound => Some (str "No duplicates to resolve")
  | ResolutionError message => Some message
  | ResolutionDone _ _ _ _ _ => None
  end.

(** What a call does: it returns a value or lets an exception through. *)
Inductive outcome (A : Type) : Type :=
| Returned (a : A)
| Raised (message : text).
Arguments Returned {A} a.
Arguments Raised {A} message.

(** [max(records, key=lambda x: x[2])]: the first of the records with the
    greatest [created_at]; a later record replaces the current one only
    when its key is strictly greater. *)
Fixpoint max_from (best : record) (l : list record) : record :=
  match l with
  | [] => best
  | r :: l' =>
      if rec_created_at best <? rec_created_at r then max_from r l'
      else max_from best l'
  end.

Definition max_by_created_at (l : list record) : result record :=
  match l with
  | [] => Raise (str "max() arg is an empty sequence")
  | r :: l' => Ok (max_from r l')
  end.

Definition lift {A : Type} (r : result A) : io A := fun w => (r, w).

(** [[r for r in records if r[0] != chosen[0]]]. *)
Definition others (chosen : record) (records : list record) : list record :=
  filter (fun r => negb (rec_id r =? rec_id chosen)) records.

Fixpoint join (sep : text) (parts : list text) : text :=
  match parts with
  | [] => []
  | [p] => p
  | p :: parts' => p ++ sep ++ join sep parts'
  end.

Definition newline : text := [ascii_of_nat 10].

Section Resolution.

(** [d.strftime('%Y-%m-%d %H:%M:%S')] on a timestamp. *)
Variable strftime : Z -> text.

Definition merge_content (primary_record : record)
           (secondary_records : list record) : io text :=
  t <- now ;;
  let primary_content := rec_content primary_record in
  let merge_info :=
    newline ++ str "[MERGED from "
            ++ str_of_int (Z.of_nat (List.length secondary_records))
            ++ str " duplicates on " ++ strftime t ++ str "]" in
  let dates_info :=
    newline ++ str "[Original dates: "
            ++ join (str ", ") (map (fun r => strftime (rec_created_at r)) secondary_records)
            ++ str "]" in
  ret (primary_content ++ merge_info ++ dates_info).

(** The body of [for group in analysis_result['duplicate_groups']]: the
    entry appended to [resolution_actions], if the strategy names a
    branch. *)
Definition resolve_group (strategy : text) (dry_run : bool)
           (group : duplicate_group) : io (option resolution_action) :=
  let records := records group in
  if text_eqb strategy (str "keep_latest") then
    latest_record <- lift (max_by_created_at records) ;;
    let older_records := others latest_record records in
    (if dry_run then ret tt
     else for_each older_records (fun record =>
            execute (AppendToContent
                       (str " [DUPLICATE - KEPT ID: "
                            ++ str_of_int (rec_id latest_record) ++ str "]")
                       (rec_id record)))) ;;;
    ret (Some (ActKeepLatest (rec_id latest_record)
                             (map rec_id older_records)
                             (List.length records)))
  else if text_eqb strategy (str "merge") then
    primary_record <- lift (max_by_created_at records) ;;
    let secondary_records := others primary_record records in
    merged_content <- merge_content primary_record secondary_records ;;
    (if dry_run then ret tt
     else
       t <- now ;;
       execute (SetContent merged_content t (rec_id primary_record)) ;;;
       for_each secondary_records (fun record =>
         execute (AppendToContent
                    (str " [MERGED INTO ID: "
                         ++ str_of_int (rec_id primary_record) ++ str "]")
                    (rec_id record)))) ;;;
    ret (Some (ActMerge (rec_id primary_record)
                        (map rec_id secondary_records)
                        (List.length records)))
  else if text_eqb strategy (str "flag_only") then
    (if dry_run then ret tt
     else for_each records (fun record =>
            execute (AppendToContent
                       (str " [DUPLICATE GROUP: "
                            ++ str_of_int (Z.of_nat (group_id group)) ++ str "]")
                       (rec_id record)))) ;;;
    ret (Some (ActFlagOnly (map rec_id records) (group_id group)
                           (List.length records)))
  else ret None.

(** The [for] loop of the [try] block; the state is [resolution_actions]. *)
Fixpoint resolve_groups (strategy : text) (dry_run : bool)
         (groups : list duplicate_group)
         (resolution_actions : list resolution_action)
  : io (list resolution_action) :=
  match groups with
  | [] => ret resolution_actions
  | group :: groups' =>
      a <- resolve_group strategy dry_run group ;;
      resolve_groups strategy dry_run groups'
        (match a with
         | Some act => resolution_actions ++ [act]
         | None => resolution_actions
         end)
  end.

(** The [try] block. *)
Definition try_block (analysis : analysis_result) (strategy : text)
           (dry_run : bool) : io (list resolution_action) :=
  resolution_actions <-
    resolve_groups strategy dry_run (duplicate_groups analysis) [] ;;
  (if dry_run then ret tt else commit) ;;;
  ret resolution_actions.

Definition resolve_duplicates (analysis : analysis_result) (strategy : text)
           (dry_run : bool) (w : world) : outcome resolution_result * world :=
  if is_empty (duplicate_groups analysis) then (Returned NoDuplicatesFound, w)
  else
    match connect_db w with
    | (Raise message, w) => (Raised message, w)
    | (Ok _, w) =>
        match try_block analysis strategy dry_run w with
        | (Raise message, w) =>
            (Returned (ResolutionError
                         (str "Error resolving duplicates: " ++ message)),
             close (rollback w))
        | (Ok resolution_actions, w) =>
            (Returned (ResolutionDone
                         (negb dry_run) strategy
                         (List.length (duplicate_groups analysis))
                         (fold_left (fun acc a => (acc + action_group_size a)%nat)
                                    resolution_actions 0%nat)
                         resolution_actions),
             close w)
        end
    end.

End Resolution.

(** ** The signature grouping of checkpoint_filter.py (lines 87-141) *)

Module Checkpoint.

(** [\w+\s+\w+\s+\d+\s+\d+:\d+:\d+\s+\w+\s+\d+] *)
Definition pat_timestamp : Re.regex :=
  [Re.plus Re.Word; Re.plus Re.Space; Re.plus Re.Word; Re.plus Re.Space;
   Re.plus Re.Digit; Re.plus Re.Space;
   Re.plus Re.Digit; Re.one (Re.Lit char_colon);
   Re.plus Re.Digit; Re.one (Re.Lit char_colon); Re.plus Re.Digit;
   Re.plus Re.Space; Re.plus Re.Word; Re.plus Re.Space; Re.plus Re.Digit].

(** [\d{4}-\d{2}-\d{2}\s+\d{2}:\d{2}:\d{2}] *)
Definition pat_datetime : Re.regex := pat_date ++ [Re.plus Re.Space] ++ pat_time.

(** [\d+] *)
Definition pat_number : Re.regex := [Re.plus Re.Digit].

(** The code points U+00C3 U+00B3 and U+00C3 U+00A1 of the source text. *)
Definition a_tilde_sup3 : text := [ascii_of_nat 195; ascii_of_nat 179].
Definition a_tilde_iexcl : text := [ascii_of_nat 195; ascii_of_nat 161].

Definition lits_text (t : text) : Re.regex := map (fun c => Re.one (Re.Lit c)) t.

(** The default [checkpoint_patterns] of [__init__], in order. *)
Definition default_checkpoint_patterns : list Re.regex :=
  [ (* CHECKPOINT\s+\w+\s+\w+\s+\d+\s+\d+:\d+:\d+\s+\w+\s+\d+:\s+auto-sync *)
    Re.lits "CHECKPOINT" ++ [Re.plus Re.Space] ++ pat_timestamp
      ++ [Re.one (Re.Lit char_colon); Re.plus Re.Space] ++ Re.lits "auto-sync";
    (* Sincronizaci..n autom..tica cada \d+ min *)
    Re.lits "Sincronizaci" ++ lits_text a_tilde_sup3 ++ Re.lits "n autom"
      ++ lits_text a_tilde_iexcl ++ Re.lits "tica cada "
      ++ [Re.plus Re.Digit] ++ Re.lits " min";
    (* auto-sync - Sincronizaci..n autom..tica *)
    Re.lits "auto-sync - Sincronizaci" ++ lits_text a_tilde_sup3
      ++ Re.lits "n autom" ++ lits_text a_tilde_iexcl ++ Re.lits "tica";
    (* SYNC:\s*\d{4}-\d{2}-\d{2}\s+\d{2}:\d{2}:\d{2} *)
    Re.lits "SYNC:" ++ [Re.star Re.Space] ++ pat_datetime;
    (* Checkpoint\s+\d+\s+completed *)
    Re.lits "Checkpoint" ++ [Re.plus Re.Space; Re.plus Re.Digit; Re.plus Re.Space]
      ++ Re.lits "completed";
    (* Auto-save\s+at\s+\d{4}-\d{2}-\d{2} *)
    Re.lits "Auto-save" ++ [Re.plus Re.Space] ++ Re.lits "at"
      ++ [Re.plus Re.Space] ++ pat_date ].

(** An entry of a checkpoint group or of [regular_observations]: the
    dictionary with the keys [id], [content], [created_at]. *)
Definition observation := record.

Section Filter.

(** [self.checkpoint_patterns], from the configuration. *)
Variable checkpoint_patterns : list Re.regex.

(** [hashlib.md5(s.encode()).hexdigest()]. *)
Variable md5_hexdigest : text -> text.

Definition is_checkpoint_observation (t : text) : bool :=
  existsb (fun pattern => Re.search true pattern t) checkpoint_patterns.

Definition generate_checkpoint_signature (t : text) : text :=
  let normalized := t in
  let normalized := Re.sub pat_timestamp (str "TIMESTAMP") normalized in
  let normalized := Re.sub pat_datetime (str "DATETIME") normalized in
  let normalized := Re.sub pat_time (str "TIME") normalized in
  let normalized := Re.sub pat_number (str "NUM") normalized in
  md5_hexdigest normalized.

(** The [defaultdict(list)] named [checkpoint_groups]: the signatures
    in the order of their first use, each with its list. *)
Definition groups := list (text * list observation).

(** [checkpoint_groups[signature].append(obs)]. *)
Fixpoint group_append (signature : text) (obs : observation) (g : groups) : groups :=
  match g with
  | [] => [(signature, [obs])]
  | (s, members) :: g' =>
      if text_eqb s signature then (s, members ++ [obs]) :: g'
      else (s, members) :: group_append signature obs g'
  end.

(** The loop over [observations]; the state is
    [(checkpoint_groups, regular_observations)]. *)
Fixpoint classify (observations : list record) (checkpoint_groups : groups)
         (regular_observations : list observation) : groups * list observation :=
  match observations with
  | [] => (checkpoint_groups, regular_observations)
  | obs :: observations' =>
      if is_checkpoint_observation (rec_content obs)
      then
        let signature := generate_checkpoint_signature (rec_content obs) in
        classify observations' (group_append signature obs checkpoint_groups)
                 regular_observations
      else
        classify observations' checkpoint_groups (regular_observations ++ [obs])
  end.

(** The counts of the dictionary [analysis]. *)
Record analysis : Type := mkCheckpointAnalysis {
  total_observations : nat;
  checkpoint_observations : nat;
  regular_observations_count : nat;
  checkpoint_groups_count : nat;
  redundant_checkpoints : nat
}.

Definition checkpoint_groups_of (observations : list record) : groups :=
  fst (classify observations [] []).

Definition analyze_checkpoint_redundancy (observations : list record) : analysis :=
  let '(checkpoint_groups, regular_observations) := classify observations [] [] in
  mkCheckpointAnalysis
    (List.length observations)
    (fold_left (fun acc g => (acc + List.length (snd g))%nat) checkpoint_groups 0%nat)
    (List.length regular_observations)
    (List.length checkpoint_groups)
    (fold_left (fun acc g =>
                  if (1 <? List.length (snd g))%nat
                  then (acc + (List.length (snd g) - 1))%nat else acc)
               checkpoint_groups 0%nat).

End Filter.

End Checkpoint.


(** ** Notions used to state the properties *)

(** The database never fails. *)
Definition no_faults (w : world) : Prop := forall n, faults w n = None.

(** The strategy names that [resolve_duplicates] has a branch for. *)
Definition known_strategy (strategy : text) : Prop :=
  strategy = str "keep_latest" \/ strategy = str "merge" \/ strategy = str "flag_only".

(** The entry [a] of [resolution_actions] keeps, of the group [g], the first
    of the members with the greatest [created_at], and marks all the
    others. *)
Definition keeps_latest (g : duplicate_group) (a : resolution_action) : Prop :=
  exists before kept after,
    records g = before ++ kept :: after /\
    (forall r, In r before -> rec_created_at r < rec_created_at kept) /\
    (forall r, In r after -> rec_created_at r <= rec_created_at kept) /\
    a = ActKeepLatest (rec_id kept) (map rec_id (before ++ after))
                      (List.length (records g)).

(** ** Sample data *)

Definition sample_strftime (t : Z) : text := str_of_int t.

Definition sample_world : world :=
  mkWorld [mkRecord 1 (str "alpha") 10; mkRecord 2 (str "alpha") 30;
           mkRecord 3 (str "alpha") 30]
          None [] (fun _ => None) 100.

(** A group whose latest member is neither first nor alone at its
    timestamp. *)
Definition sample_group : duplicate_group :=
  mkGroup 0 [mkRecord 1 (str "alpha") 10; mkRecord 2 (str "alpha") 30;
             mkRecord 3 (str "alpha") 30] 3 [].

Definition sample_analysis : analysis_result := mkAnalysis 3 [sample_group] 3.

Definition empty_analysis : analysis_result := mkAnalysis 3 [] 0.

(** The ids of the members of a group, and of all the groups. *)
Definition group_ids (g : duplicate_group) : list Z := map rec_id (records g).

Definition all_group_ids (gs : list duplicate_group) : list Z := flat_map group_ids gs.

(** Two observations stand in the same list of [checkpoint_groups]. *)
Definition same_checkpoint_group (g : list (text * list record))
           (o1 o2 : record) : Prop :=
  exists signature members,
    In (signature, members) g /\ In o1 members /\ In o2 members.

Definition sample_records : list record :=
  [mkRecord 1 (str "Up 10:00:01") 30;
   mkRecord 2 (str "Up 10:00:02") 20;
   mkRecord 3 (str "Down") 10].

Definition sample_observations : list record :=
  [mkRecord 1 (str "Auto-save at 2024-01-01") 30;
   mkRecord 2 (str "Auto-save at 2024-01-02") 20;
   mkRecord 3 (str "Meeting notes: budget review") 10].

(** A stand-in for the digest in examples: the text itself. *)
Definition sample_digest (t : text) : text := t.

(** The two tests of the loop of [analyze_checkpoint_redundancy], on a
    row. *)
Definition is_checkpoint_record (checkpoint_patterns : list Re.regex) (o : record) : bool :=
  Checkpoint.is_checkpoint_observation checkpoint_patterns (rec_content o).

Definition signature_of (md5_hexdigest : text -> text) (o : record) : text :=
  Checkpoint.generate_checkpoint_signature md5_hexdigest (rec_content o).

(** What the loop of [analyze_checkpoint_redundancy] keeps true of
    [checkpoint_groups] once the observations [seen] are read: a signature
    heads one list only, a list holds observations of its signature only,
    and every checkpoint observation read is in the list of its signature. *)
Definition groups_invariant (is_checkpoint : record -> bool) (signature : record -> text)
           (seen : list record) (g : list (text * list record)) : Prop :=
  NoDup (map fst g)
  /\ (forall s members o, In (s, members) g -> In o members -> signature o = s)
  /\ (forall o, In o seen -> is_checkpoint o = true ->
                exists members, In (signature o, members) g /\ In o members).

(** ** Notions used in the proofs about floats and [difflib] *)

Import Difflib.

(** The mantissa of [float(p)], for [p] of at most 53 digits. *)
Definition mantissa_of (p : positive) : positive :=
  fst (shl_align p 0 (Zpos (digits2_pos p) - 53)).

(** The length of the longest block of elements of [b] that are not popular
    and that ends at index [n]. *)
Fixpoint run (b : text) (n : nat) : Z :=
  if popular b (item b (Z.of_nat n)) then 0
  else match n with O => 1 | S n' => run b n' + 1 end.

(** The same at an index given as an [int], 0 before the text. *)
Definition run_at (b : text) (i : Z) : Z :=
  if i <? 0 then 0 else run b (Z.to_nat i).

(** One turn of the inner loop of [find_longest_match] for an index [j]
    within bounds. *)
Definition row_step (j2len : dict) (i : Z) (st : dict * Match) (j : Z) : dict * Match :=
  let k := dict_get j2len (j - 1) 0 + 1 in
  (dict_set (fst st) j k,
   if m_size (snd st) <? k then mkMatch (i - k + 1) (j - k + 1) k else snd st).

(** What the outer loop of [find_longest_match] keeps true when a text is
    compared with itself: the best match lies on the diagonal, and no entry
    of [j2len] exceeds the entry of the diagonal. *)
Definition diagonal_invariant (s : text) (i : Z) (st : dict * Match) : Prop :=
  (forall j, dict_get (fst st) j 0 <= run_at s j)
  /\ (forall j, dict_get (fst st) j 0 <= run_at s (i - 1))
  /\ dict_get (fst st) (i - 1) 0 = run_at s (i - 1)
  /\ (forall i', 0 <= i' < i -> run_at s i' <= m_size (snd st))
  /\ m_a (snd st) = m_b (snd st)
  /\ 0 <= m_a (snd st) /\ 0 <= m_size (snd st)
  /\ m_a (snd st) + m_size (snd st) <= i.


(** ** Notions used in the proofs about rounding *)

(** 0 for an exact location, 1 otherwise. *)
Definition inexact (l : location) : Z :=
  match l with loc_Exact => 0 | loc_Inexact _ => 1 end.

(** [b] is [a] shifted right by [n] bits. *)
Definition shr_rel (n : Z) (a b : shr_record) : Prop :=
  0 <= shr_m b
  /\ shr_m b * 2 ^ n <= shr_m a < (shr_m b + 1) * 2 ^ n
  /\ (inexact (loc_of_shr_record b) = 0
      <-> shr_m a = shr_m b * 2 ^ n /\ inexact (loc_of_shr_record a) = 0).

(** The result of rounding has its mantissa on the grid [2^e1] and stays
    below every bound [K * 2^e1] on that grid. *)
Definition rounded_below (e1 K : Z) (x : spec_float) : Prop :=
  x = S754_zero false
  \/ exists m e2, x = S754_finite false m e2
                  /\ fexp F64.prec F64.emax (Zpos (digits2_pos m) + e2) = e2
                  /\ e1 <= e2 /\ Zpos m * 2 ^ (e2 - e1) <= K.

(** [x] is a float of value at most [c * 2^k], zero or positive. *)
Definition below (c k : Z) (x : spec_float) : Prop :=
  x = S754_zero false
  \/ exists m e, x = S754_finite false m e
                 /\ fexp F64.prec F64.emax (Zpos (digits2_pos m) + e) = e
                 /\ e <= k /\ Zpos m <= c * 2 ^ (k - e).

(** [(m, e)] is the normal float of the integer [n]. *)
Definition represents (n : Z) (m : positive) (e : Z) : Prop :=
  digits2_pos m = 53%positive /\ -52 <= e <= 0 /\ Zpos m = n * 2 ^ (- e).

(** ** Notions used in the proofs about matching blocks and groups *)

(** The block [x] lies within the two ranges. *)
Definition in_bounds (alo ahi blo bhi : Z) (x : Match) : Prop :=
  alo <= m_a x /\ blo <= m_b x /\ 0 <= m_size x
  /\ m_a x + m_size x <= ahi /\ m_b x + m_size x <= bhi.

(** The entries of [j2len] after the rows before [i]. *)
Definition dict_ok (alo blo i : Z) (d : dict) : Prop :=
  forall j, 0 <= dict_get d j 0 <= i - alo
            /\ (blo - 1 <= j -> dict_get d j 0 <= j - blo + 1).

(** An entry of the queue of [get_matching_blocks] is a pair of ranges. *)
Definition valid_bounds (q : bounds) : Prop :=
  let '(alo, ahi, blo, bhi) := q in alo <= ahi /\ blo <= bhi.

(** The elements of [a], and of [b], still to be looked at. *)
Fixpoint queue_a (queue : list bounds) : Z :=
  match queue with
  | [] => 0
  | (alo, ahi, _, _) :: queue' => (ahi - alo) + queue_a queue'
  end.

Fixpoint queue_b (queue : list bounds) : Z :=
  match queue with
  | [] => 0
  | (_, _, blo, bhi) :: queue' => (bhi - blo) + queue_b queue'
  end.

(** A bound on the number of turns the queue still takes. *)
Definition queue_measure (queue : list bounds) : Z :=
  fold_right (fun (q : bounds) acc =>
                let '(alo, ahi, _, _) := q in 2 * (ahi - alo) + 1 + acc) 0 queue.

(** The engine with threshold 1.0 and the default weights. *)
Definition exact_engine : engine := mkEngine F64.one default_weights.

(** A group is a leader followed by records that the engine takes for
    duplicates of the leader. *)
Definition led_group (self : engine) (g : duplicate_group) : Prop :=
  exists leader members,
    records g = leader :: members
    /\ forall r, In r members ->
                 r = leader
                 \/ is_duplicate self (rec_content leader) (rec_content r) = true.

(** ** Notions used to state what a resolution does to the database *)

(** The rows after the statements, run in order. *)
Definition apply_statements (stmts : list statement) (rows : list record) : list record :=
  fold_left (fun rows s => apply_statement s rows) stmts rows.

(** A computation that leaves the world as it is. *)
Definition reads_only {A : Type} (m : io A) : Prop := forall w, snd (m w) = w.

(** A computation whose only effect is to ask the connection to execute
    statements: the journal gets these requests and nothing else, the table,
    the clock and the faults stay, and when the computation returns, the rows
    of the connection are those it had with the statements run on them. *)
Definition updates_only {A : Type} (m : io A) : Prop :=
  forall w, exists stmts,
    table (snd (m w)) = table w
    /\ faults (snd (m w)) = faults w
    /\ clock (snd (m w)) = clock w
    /\ journal (snd (m w)) = journal w ++ map EvExecute stmts
    /\ match fst (m w) with
       | Ok _ => pending (snd (m w)) = option_map (apply_statements stmts) (pending w)
       | Raise _ => True
       end.

(** The events a dry run can add to the journal. *)
Definition dry_run_events : list (list db_event) :=
  [ []; [EvConnect]; [EvConnect; EvClose]; [EvConnect; EvRollback; EvClose] ].

(** The entry of [merge] that chooses as the entry [a] of [keep_latest]. *)
Definition as_merge (a : resolution_action) : resolution_action :=
  match a with
  | ActKeepLatest kept_id marked_ids group_size => ActMerge kept_id marked_ids group_size
  | _ => a
  end.

(** The result of a call but for whether it was applied. *)
Definition plan_of (o : outcome resolution_result) : outcome resolution_result :=
  match o with
  | Returned (ResolutionDone _ strategy groups_processed records_affected actions) =>
      Returned (ResolutionDone false strategy groups_processed records_affected actions)
  | _ => o
  end.

(** The suffixes that the entry [a] of [keep_latest] or [flag_only] stands
    for, each with the id of the row it goes to. *)
Definition markers_of (a : resolution_action) : list (Z * text) :=
  match a with
  | ActKeepLatest kept_id marked_ids _ =>
      map (fun id => (id, str " [DUPLICATE - KEPT ID: " ++ str_of_int kept_id ++ str "]"))
          marked_ids
  | ActFlagOnly flagged_ids group_id _ =>
      map (fun id => (id, str " [DUPLICATE GROUP: "
                            ++ str_of_int (Z.of_nat group_id) ++ str "]"))
          flagged_ids
  | ActMerge _ _ _ => []
  end.

Fixpoint marker_for (id : Z) (markers : list (Z * text)) : option text :=
  match markers with
  | [] => None
  | (i, suffix) :: markers' => if i =? id then Some suffix else marker_for id markers'
  end.

(** The row [r] with the suffix that [markers] has for its id, if any. *)
Definition mark_row (markers : list (Z * text)) (r : record) : record :=
  match marker_for (rec_id r) markers with
  | Some suffix => mkRecord (rec_id r) (rec_content r ++ suffix) (rec_created_at r)
  | None => r
  end.

(** The entry of [flag_only] for a group. *)
Definition flag_action (g : duplicate_group) : resolution_action :=
  ActFlagOnly (map rec_id (records g)) (group_id g) (List.length (records g)).

(** ** Notions used to state what the clustering emits *)

(** [l1] is [l2] with some elements left out. *)
Inductive subsequence {A : Type} : list A -> list A -> Prop :=
| subsequence_nil : subsequence [] []
| subsequence_take (x : A) (l1 l2 : list A) :
    subsequence l1 l2 -> subsequence (x :: l1) (x :: l2)
| subsequence_skip (x : A) (l1 l2 : list A) :
    subsequence l1 l2 -> subsequence l1 (x :: l2).

(** The first record of each group. *)
Definition leaders (gs : list duplicate_group) : list record :=
  flat_map (fun g => firstn 1 (records g)) gs.

(** The ids of the records of the groups that follow a leader. *)
Definition follower_ids (gs : list duplicate_group) : list Z :=
  flat_map (fun g => map rec_id (skipn 1 (records g))) gs.

(** The test of the inner loop of [find_duplicates] on a candidate whose id
    does not repeat. *)
Definition joins (self : engine) (content1 : text) (processed_ids : list Z)
           (r : record) : bool :=
  negb (id_in (rec_id r) processed_ids) && is_duplicate self content1 (rec_content r).

(** The rows are in the order of the query: [created_at] descending. *)
Fixpoint latest_first (rows : list record) : Prop :=
  match rows with
  | [] => True
  | r :: rows' =>
      (forall r', In r' rows' -> rec_created_at r' <= rec_created_at r)
      /\ latest_first rows'
  end.

(** The entry of [keep_latest] that keeps the leader of a group. *)
Definition keeps_leader (g : duplicate_group) (a : resolution_action) : Prop :=
  exists leader members,
    records g = leader :: members
    /\ a = ActKeepLatest (rec_id leader) (map rec_id members) (List.length (records g)).

(** The world after the connection ran the statements without a fault. *)
Definition run_statements (stmts : list statement) (w : world) : world :=
  mkWorld (table w) (option_map (apply_statements stmts) (pending w))
          (journal w ++ map EvExecute stmts) (faults w) (clock w).

(** The statement that appends a suffix to the row of an id. *)
Definition marker_statement (m : Z * text) : statement :=
  AppendToContent (snd m) (fst m).

(** The kept id of an entry of [keep_latest]. *)
Definition kept_id_of (a : resolution_action) : option Z :=
  match a with
  | ActKeepLatest kept_id _ _ => Some kept_id
  | _ => None
  end.

(** The entry [a] marks ids of the group [g] only, in group order, and
    not the id it keeps. *)
Definition marks_within (g : duplicate_group) (a : resolution_action) : Prop :=
  subsequence (map fst (markers_of a)) (group_ids g)
  /\ forall k, kept_id_of a = Some k ->
               In k (group_ids g) /\ ~ In k (map fst (markers_of a)).

(** The strategies that only append a marker to rows. *)
Definition marking_strategy (strategy : text) : Prop :=
  strategy = str "keep_latest" \/ strategy = str "flag_only".

(** [sum(action['group_size'] for action in resolution_actions)]. *)
Definition sum_group_sizes (actions : list resolution_action) : nat :=
  fold_left (fun acc a => (acc + action_group_size a)%nat) actions 0%nat.

(** A database whose second operation, the first after [connect], fails. *)
Definition failing_world : world :=
  mkWorld [mkRecord 1 (str "alpha") 10; mkRecord 2 (str "alpha") 30;
           mkRecord 3 (str "alpha") 30]
          None []
          (fun n => if (n =? 1)%nat then Some (str "connection lost") else None) 100.

(** ** Notions used to state what the regular expressions leave *)

(** The pattern does not match at the start of [s], or matches no
    character: [re.sub] leaves the first character of [s]. *)
Definition kept_at (r : Re.regex) (s : text) : Prop :=
  match Re.match_here false r s with
  | Some rest => (List.length s - List.length rest = 0)%nat
  | None => True
  end.

(** [normalize_text] with the list [ps] for its list of patterns. *)
Definition normalize_text_with (ps : list Re.regex) (t : text) : text :=
  let normalized := strip (lower t) in
  let normalized :=
    fold_left (fun acc pattern => Re.sub pattern [] acc) ps normalized in
  let normalized := Re.sub pat_spaces (str " ") normalized in
  let normalized := Re.sub pat_punct [] normalized in
  strip normalized.

Definition char_space : ascii := " "%char.

(** ** Notions used to state the range of the scores *)

(** [0.0 <= x <= 1.0]. *)
Definition in_unit_interval (x : F64.float) : Prop :=
  F64.leb F64.zero x = true /\ F64.leb x F64.one = true.

(** ** Notions used to state the analysis of checkpoints *)

(** [checkpoint_groups[signature]], the empty list for a signature that
    has no entry. *)
Fixpoint group_lookup (signature : text) (g : list (text * list record)) : list record :=
  match g with
  | [] => []
  | (s, members) :: g' =>
      if text_eqb s signature then members else group_lookup signature g'
  end.

(** The observation is a checkpoint observation of the signature [s]. *)
Definition checkpoint_of (checkpoint_patterns : list Re.regex)
           (md5_hexdigest : text -> text) (s : text) (o : record) : bool :=
  is_checkpoint_record checkpoint_patterns o && text_eqb (signature_of md5_hexdigest o) s.




(** The engine with threshold 0.0 and the default weights. *)
Definition zero_engine : engine := mkEngine F64.zero default_weights.

(** ** [__init__], [load_config] and [get_default_config] of
    checkpoint_filter.py (lines 30-74)

    The configuration is the dictionary read from the file, of which the
    filter reads two keys; a key can be missing from the file. *)

Record filter_config : Type := mkFilterConfig {
  cfg_checkpoint_patterns : option (list Re.regex);
  cfg_consolidation_threshold : option Z
}.

(** The entries [consolidation_threshold] and [checkpoint_patterns] of
    [get_default_config]: three patterns. *)
Definition get_default_config : filter_config :=
  mkFilterConfig
    (Some
       [ (* CHECKPOINT\s+\w+\s+\w+\s+\d+\s+\d+:\d+:\d+\s+\w+\s+\d+:\s+auto-sync *)
         Re.lits "CHECKPOINT" ++ [Re.plus Re.Space] ++ Checkpoint.pat_timestamp
           ++ [Re.one (Re.Lit char_colon); Re.plus Re.Space] ++ Re.lits "auto-sync";
         (* Sincronizaci..n autom..tica cada \d+ min *)
         Re.lits "Sincronizaci" ++ Checkpoint.lits_text Checkpoint.a_tilde_sup3
           ++ Re.lits "n autom" ++ Checkpoint.lits_text Checkpoint.a_tilde_iexcl
           ++ Re.lits "tica cada " ++ [Re.plus Re.Digit] ++ Re.lits " min";
         (* auto-sync - Sincronizaci..n autom..tica *)
         Re.lits "auto-sync - Sincronizaci" ++ Checkpoint.lits_text Checkpoint.a_tilde_sup3
           ++ Re.lits "n autom" ++ Checkpoint.lits_text Checkpoint.a_tilde_iexcl
           ++ Re.lits "tica" ])
    (Some 5).

(** [load_config]: the content of the file, when there is a file. *)
Definition load_config (file : option filter_config) : filter_config :=
  match file with
  | Some config => config
  | None => get_default_config
  end.

(** What [__init__] keeps of the configuration. *)
Record checkpoint_filter : Type := mkCheckpointFilter {
  filter_checkpoint_patterns : list Re.regex;
  filter_consolidation_threshold : Z
}.

(** [__init__]: [self.config.get(key, default)] for the two keys. *)
Definition init (file : option filter_config) : checkpoint_filter :=
  let config := load_config file in
  mkCheckpointFilter
    (match cfg_checkpoint_patterns config with
     | Some checkpoint_patterns => checkpoint_patterns
     | None => Checkpoint.default_checkpoint_patterns
     end)
    (match cfg_consolidation_threshold config with
     | Some consolidation_threshold => consolidation_threshold
     | None => 5
     end).

(** A configuration file that sets neither key. *)
Definition empty_config : filter_config := mkFilterConfig None None.


(* ================================================================== *)
(** * Part II: properties *)
(* ================================================================== *)

(** ** Equality of texts *)

Lemma char_eqb_refl (c : ascii) : char_eqb c c = true.
Proof. apply Ascii.eqb_refl. Qed.

Lemma text_eqb_eq (s t : text) : text_eqb s t = true <-> s = t.
Proof.
  revert t; induction s as [|a s IH]; intros [|b t]; simpl; split; intro H;
    try reflexivity; try discriminate.
  - apply andb_true_iff in H as [Hc Ht].
    apply Ascii.eqb_eq in Hc. apply IH in Ht. now subst.
  - injection H as -> ->. now rewrite char_eqb_refl, (proj2 (IH t)).
Qed.

Lemma text_eqb_refl (s : text) : text_eqb s s = true.
Proof. now apply text_eqb_eq. Qed.

Lemma text_eqb_neq (s t : text) : s <> t -> text_eqb s t = false.
Proof.
  intro H. destruct (text_eqb s t) eqn:E; [|reflexivity].
  now apply text_eqb_eq in E.
Qed.

Lemma text_eqb_sym (s t : text) : text_eqb s t = text_eqb t s.
Proof.
  destruct (text_eqb s t) eqn:E.
  - apply text_eqb_eq in E. subst. now rewrite text_eqb_refl.
  - destruct (text_eqb t s) eqn:E'; [|reflexivity].
    apply text_eqb_eq in E'. subst. now rewrite text_eqb_refl in E.
Qed.

(** ** [normalize_text] *)

(** C6. [normalize_text] collapses whitespace before it strips punctuation.
    On ["a - b"] the first call leaves the two spaces that stood around the
    hyphen, and a second call collapses them: the output of the first call
    is not a fixed point, so [normalize_text] is not idempotent. *)
Theorem normalize_text_leaves_double_space :
  normalize_text (str "a - b") = str "a  b" /\
  normalize_text (normalize_text (str "a - b")) = str "a b" /\
  normalize_text (normalize_text (str "a - b")) <> normalize_text (str "a - b").
Proof.
  assert (H1 : normalize_text (str "a - b") = str "a  b") by (vm_compute; reflexivity).
  assert (H2 : normalize_text (str "a  b") = str "a b") by (vm_compute; reflexivity).
  rewrite H1, H2. repeat split. discriminate.
Qed.

(** ** The database monad under a database that does not fail *)

Section NoFaults.

Variable strftime : Z -> text.

Lemma attempt_ok (e : db_event) (effect : world -> world) (w : world) :
  no_faults w -> attempt e effect w = (Ok tt, effect (log e w)).
Proof. intro H. unfold attempt. now rewrite H. Qed.

Lemma execute_ok (s : statement) (w : world) :
  no_faults w ->
  exists w', execute s w = (Ok tt, w') /\ no_faults w'.
Proof.
  intro H. unfold execute. rewrite attempt_ok by assumption.
  eexists; split; [reflexivity|]. exact H.
Qed.

Lemma for_each_execute_ok {A : Type} (mk : A -> statement) (l : list A) (w : world) :
  no_faults w ->
  exists w', for_each l (fun x => execute (mk x)) w = (Ok tt, w') /\ no_faults w'.
Proof.
  revert w; induction l as [|x l IH]; intros w H; simpl.
  - now exists w.
  - unfold bind. destruct (execute_ok (mk x) w H) as (w1 & -> & H1).
    apply IH, H1.
Qed.

(** Any [dry_run]: the updates, if made, succeed. *)
Lemma updates_ok {A : Type} (dry_run : bool) (mk : A -> statement)
      (l : list A) (w : world) :
  no_faults w ->
  exists w',
    (if dry_run then ret tt else for_each l (fun x => execute (mk x))) w = (Ok tt, w')
    /\ no_faults w'.
Proof.
  intro H. destruct dry_run.
  - now exists w.
  - now apply for_each_execute_ok.
Qed.

(** *** The choice of [max] *)

Lemma max_from_split (l : list record) (best : record) :
  exists before after,
    best :: l = before ++ max_from best l :: after /\
    (forall r, In r before -> rec_created_at r < rec_created_at (max_from best l)) /\
    (forall r, In r after -> rec_created_at r <= rec_created_at (max_from best l)).
Proof.
  revert best; induction l as [|x l IH]; intro best; simpl.
  - exists [], []. repeat split; intros r [].
  - destruct (rec_created_at best <? rec_created_at x) eqn:E.
    + apply Z.ltb_lt in E.
      destruct (IH x) as (before & after & Heq & Hb & Ha).
      exists (best :: before), after. repeat split.
      * simpl. now rewrite <- Heq.
      * intros r [<-|Hr]; [|now apply Hb].
        destruct before as [|y before]; simpl in Heq.
        -- injection Heq as Hx _. rewrite <- Hx. exact E.
        -- injection Heq as Hx _. subst y.
           specialize (Hb x (or_introl eq_refl)). lia.
      * exact Ha.
    + apply Z.ltb_ge in E.
      destruct (IH best) as (before & after & Heq & Hb & Ha).
      destruct before as [|y before]; simpl in Heq.
      * injection Heq as Hm Hl.
        exists [], (x :: after). repeat split.
        -- simpl. now rewrite <- Hm, Hl.
        -- intros r [].
        -- rewrite <- Hm. intros r [<-|Hr]; [exact E|].
           specialize (Ha r Hr). now rewrite <- Hm in Ha.
      * injection Heq as Hy Hl. subst y.
        exists (best :: x :: before), after. repeat split.
        -- simpl. now rewrite <- Hl.
        -- intros r [<-|[<-|Hr]].
           ++ apply Hb. now left.
           ++ specialize (Hb best (or_introl eq_refl)). lia.
           ++ apply Hb. now right.
        -- exact Ha.
Qed.

Lemma others_split (before after : list record) (kept : record) :
  NoDup (map rec_id (before ++ kept :: after)) ->
  others kept (before ++ kept :: after) = before ++ after.
Proof.
  intro H. unfold others.
  assert (Hne : forall r, In r (before ++ after) ->
                          negb (rec_id r =? rec_id kept) = true).
  { intros r Hr. apply negb_true_iff, Z.eqb_neq. intro E.
    rewrite map_app in H. simpl in H.
    apply NoDup_remove_2 in H. apply H. rewrite <- E, <- map_app.
    now apply in_map. }
  rewrite filter_app. simpl. rewrite Z.eqb_refl. simpl.
  rewrite <- filter_app.
  clear H. induction (before ++ after) as [|r l IH]; simpl; [reflexivity|].
  rewrite (Hne r (or_introl eq_refl)). f_equal. apply IH.
  intros r' Hr'. apply Hne. now right.
Qed.

Lemma resolve_group_keep_latest (dry_run : bool) (g : duplicate_group) (w : world) :
  records g <> [] ->
  NoDup (map rec_id (records g)) ->
  no_faults w ->
  exists a w',
    resolve_group strftime (str "keep_latest") dry_run g w = (Ok (Some a), w')
    /\ keeps_latest g a /\ no_faults w'.
Proof.
  intros Hne Hnd Hw. unfold resolve_group.
  replace (text_eqb (str "keep_latest") (str "keep_latest")) with true
    by (symmetry; apply text_eqb_refl).
  destruct (records g) as [|r0 l] eqn:Hrec; [contradiction|].
  destruct (max_from_split l r0) as (before & after & Heq & Hb & Ha).
  unfold bind at 1. unfold lift, max_by_created_at.
  set (kept := max_from r0 l) in *.
  unfold bind at 1.
  destruct (updates_ok dry_run
              (fun record : record =>
                 AppendToContent
                   (str " [DUPLICATE - KEPT ID: " ++ str_of_int (rec_id kept) ++ str "]")
                   (rec_id record))
              (others kept (r0 :: l)) w Hw) as (w' & Hrun & Hw').
  rewrite Hrun. unfold ret.
  eexists; exists w'. split; [reflexivity|]. split; [|exact Hw'].
  exists before, kept, after. rewrite Hrec. repeat split; try assumption.
  rewrite Heq. rewrite others_split; [reflexivity|]. now rewrite <- Heq.
Qed.

Lemma resolve_groups_keep_latest (dry_run : bool) (gs : list duplicate_group) :
  Forall (fun g => records g <> [] /\ NoDup (map rec_id (records g))) gs ->
  forall (acc : list resolution_action) (w : world),
    no_faults w ->
    exists actions w',
      resolve_groups strftime (str "keep_latest") dry_run gs acc w
        = (Ok (acc ++ actions), w')
      /\ Forall2 keeps_latest gs actions /\ no_faults w'.
Proof.
  induction 1 as [|g gs [Hne Hnd] _ IH]; intros acc w Hw; cbn [resolve_groups].
  - exists [], w. rewrite app_nil_r. repeat split; [constructor|exact Hw].
  - unfold bind at 1.
    destruct (resolve_group_keep_latest dry_run g w Hne Hnd Hw)
      as (a & w1 & -> & Hk & Hw1).
    destruct (IH (acc ++ [a]) w1 Hw1) as (actions & w2 & -> & HF & Hw2).
    exists (a :: actions), w2. rewrite <- app_assoc. simpl.
    repeat split; [now constructor|exact Hw2].
Qed.

Lemma resolve_groups_unknown (strategy : text) (dry_run : bool)
      (gs : list duplicate_group) (acc : list resolution_action) (w : world) :
  ~ known_strategy strategy ->
  resolve_groups strftime strategy dry_run gs acc w = (Ok acc, w).
Proof.
  intro H. unfold known_strategy in H.
  revert acc w; induction gs as [|g gs IH]; intros acc w; cbn [resolve_groups];
    [reflexivity|].
  unfold bind at 1. unfold resolve_group.
  rewrite !text_eqb_neq by (intro; subst; tauto).
  unfold ret. apply IH.
Qed.

Lemma is_empty_false {A : Type} (l : list A) : l <> [] -> is_empty l = false.
Proof. now destruct l. Qed.

(** C7. Under a database that does not fail, [resolve_duplicates] with
    the strategy [keep_latest] returns one entry per group, in order, and the
    entry of a group keeps the member with the greatest [created_at], the
    first of them in group order when several share it, wherever it stands
    in the group; the marked ids are those of all the other members. *)
Theorem keep_latest_keeps_maximum (analysis : analysis_result)
        (dry_run : bool) (w : world) :
  duplicate_groups analysis <> [] ->
  Forall (fun g => records g <> [] /\ NoDup (map rec_id (records g)))
         (duplicate_groups analysis) ->
  no_faults w ->
  exists affected actions w',
    resolve_duplicates strftime analysis (str "keep_latest") dry_run w
      = (Returned (ResolutionDone (negb dry_run) (str "keep_latest")
                     (List.length (duplicate_groups analysis)) affected actions),
         w')
    /\ Forall2 keeps_latest (duplicate_groups analysis) actions.
Proof.
  intros Hne HF Hw. unfold resolve_duplicates.
  rewrite is_empty_false by assumption.
  unfold connect_db. rewrite attempt_ok by assumption.
  set (w1 := set_pending _ _).
  assert (Hw1 : no_faults w1) by exact Hw.
  unfold try_block, bind at 1.
  destruct (resolve_groups_keep_latest dry_run _ HF [] w1 Hw1)
    as (actions & w2 & -> & HF2 & Hw2).
  simpl app. unfold bind.
  assert (Hc : exists w3, (if dry_run then ret tt else commit) w2 = (Ok tt, w3)).
  { destruct dry_run; [now exists w2|].
    unfold commit. rewrite attempt_ok by assumption. now eexists. }
  destruct Hc as (w3 & ->). unfold ret.
  now eexists _, actions, _.
Qed.

(** C3, as the program has it.  [resolve_duplicates] does not check the
    strategy name.  For a name other than [keep_latest], [merge] and
    [flag_only], groups to resolve and a database that does not fail, it
    returns the result of a completed run ([dry_run_completed] or
    [resolution_applied]) for that name, with no entry in
    [resolution_actions] and no record affected; it runs no update and
    leaves the table as it was. *)
Theorem unknown_strategy_completes (analysis : analysis_result)
        (strategy : text) (dry_run : bool) (w : world) :
  duplicate_groups analysis <> [] ->
  ~ known_strategy strategy ->
  no_faults w ->
  exists w',
    resolve_duplicates strftime analysis strategy dry_run w
      = (Returned (ResolutionDone (negb dry_run) strategy
                     (List.length (duplicate_groups analysis)) 0 []),
         w')
    /\ table w' = table w
    /\ journal w' = journal w
                    ++ EvConnect :: (if dry_run then [EvClose] else [EvCommit; EvClose]).
Proof.
  intros Hne Hs Hw. unfold resolve_duplicates.
  rewrite is_empty_false by assumption.
  unfold connect_db. rewrite attempt_ok by assumption.
  unfold try_block, bind at 1. rewrite resolve_groups_unknown by assumption.
  unfold bind. destruct dry_run; simpl.
  - eexists; split; [reflexivity|]. split; [reflexivity|].
    simpl. now rewrite <- app_assoc.
  - unfold commit. rewrite attempt_ok by exact Hw. simpl.
    eexists; split; [reflexivity|]. split; [reflexivity|].
    simpl. now rewrite <- !app_assoc.
Qed.

(** C10. With no duplicate group in the analysis, [resolve_duplicates]
    returns the result [no_duplicates_found] and leaves the world as it
    was, whatever the strategy, [dry_run] and the state of the database:
    the journal gets no event, so no connection is opened. *)
Theorem resolve_duplicates_nothing_to_do (analysis : analysis_result)
        (strategy : text) (dry_run : bool) (w : world) :
  duplicate_groups analysis = [] ->
  resolve_duplicates strftime analysis strategy dry_run w
    = (Returned NoDuplicatesFound, w)
  /\ action_of NoDuplicatesFound = str "no_duplicates_found".
Proof.
  intro H. unfold resolve_duplicates. rewrite H. simpl. split; reflexivity.
Qed.

End NoFaults.

(** ** Resolution on sample data *)

(** C3, the claim refuted: with the strategy name [bogus], a dry run on
    one group returns [dry_run_completed], not an error. *)
Lemma unknown_strategy_is_no_error :
  fst (resolve_duplicates sample_strftime sample_analysis (str "bogus") true sample_world)
    = Returned (ResolutionDone false (str "bogus") 1 0 [])
  /\ action_of (ResolutionDone false (str "bogus") 1 0 []) = str "dry_run_completed"
  /\ action_of (ResolutionDone false (str "bogus") 1 0 []) <> str "error".
Proof. repeat split; vm_compute; try reflexivity; discriminate. Qed.

Lemma sample_world_no_faults : no_faults sample_world.
Proof. intro n. reflexivity. Defined.

Lemma bogus_not_known : ~ known_strategy (str "bogus").
Proof. intros [H|[H|H]]; discriminate H. Defined.

Lemma unknown_strategy_completes_witness :
  exists w',
    resolve_duplicates sample_strftime sample_analysis (str "bogus") false sample_world
      = (Returned (ResolutionDone true (str "bogus") 1 0 []), w')
    /\ table w' = table sample_world
    /\ journal w' = [EvConnect; EvCommit; EvClose].
Proof.
  apply (unknown_strategy_completes sample_strftime sample_analysis (str "bogus")
           false sample_world).
  - discriminate.
  - exact bogus_not_known.
  - exact sample_world_no_faults.
Defined.

Lemma keep_latest_keeps_maximum_witness :
  exists affected actions w',
    resolve_duplicates sample_strftime sample_analysis (str "keep_latest") false
                       sample_world
      = (Returned (ResolutionDone true (str "keep_latest") 1 affected actions), w')
    /\ Forall2 keeps_latest [sample_group] actions.
Proof.
  apply (keep_latest_keeps_maximum sample_strftime sample_analysis false sample_world).
  - discriminate.
  - repeat constructor; simpl; try discriminate; intuition discriminate.
  - exact sample_world_no_faults.
Defined.

Lemma resolve_duplicates_nothing_to_do_witness :
  resolve_duplicates sample_strftime empty_analysis (str "merge") false sample_world
    = (Returned NoDuplicatesFound, sample_world)
  /\ action_of NoDuplicatesFound = str "no_duplicates_found".
Proof.
  apply (resolve_duplicates_nothing_to_do sample_strftime empty_analysis (str "merge")
           false sample_world).
  reflexivity.
Defined.

(** On the sample group the member kept is record 2: the latest, second in
    the group, and ahead of record 3, which has the same timestamp. *)
Example keep_latest_on_sample :
  fst (resolve_duplicates sample_strftime sample_analysis (str "keep_latest") true
                          sample_world)
  = Returned (ResolutionDone false (str "keep_latest") 1 3 [ActKeepLatest 2 [1; 3] 3]).
Proof. vm_compute. reflexivity. Qed.

(** ** Clustering *)

Lemma id_in_iff (i : Z) (l : list Z) : id_in i l = true <-> In i l.
Proof.
  unfold id_in. rewrite existsb_exists. split.
  - intros (x & Hx & E). apply Z.eqb_eq in E. now subst.
  - intro H. exists i. split; [exact H|apply Z.eqb_refl].
Qed.

Lemma id_in_false (i : Z) (l : list Z) : id_in i l = false <-> ~ In i l.
Proof.
  rewrite <- id_in_iff. destruct (id_in i l); split; intro H;
    try reflexivity; try discriminate; try (intro; discriminate).
  now elim H.
Qed.

Lemma all_group_ids_app (gs1 gs2 : list duplicate_group) :
  all_group_ids (gs1 ++ gs2) = all_group_ids gs1 ++ all_group_ids gs2.
Proof. apply flat_map_app. Qed.

Lemma NoDup_app_intro {A : Type} (l1 l2 : list A) :
  NoDup l1 -> NoDup l2 -> (forall x, In x l1 -> ~ In x l2) -> NoDup (l1 ++ l2).
Proof.
  intros H1 H2 Hd. induction H1 as [|a l1 Ha H1 IH]; simpl; [exact H2|].
  constructor.
  - rewrite in_app_iff. intros [H|H]; [now apply Ha|].
    apply (Hd a); [now left|exact H].
  - apply IH. intros x Hx. apply Hd. now right.
Qed.

(** What the inner loop adds: members of [rest] whose ids were not in
    [processed_ids], with distinct ids, all entered into [processed_ids]. *)
Lemma scan_candidates_spec (self : engine) (content1 : text) (rest : list record) :
  forall (group : list record) (processed : list Z),
  exists added,
    scan_candidates self content1 rest group processed
      = (group ++ added, rev (map rec_id added) ++ processed)
    /\ incl added rest
    /\ NoDup (map rec_id added)
    /\ (forall r, In r added -> ~ In (rec_id r) processed).
Proof.
  induction rest as [|record2 rest IH]; intros group processed; simpl.
  - exists []. rewrite app_nil_r. repeat split;
      [apply incl_refl|constructor|intros r []].
  - destruct (id_in (rec_id record2) processed) eqn:Hin.
    + destruct (IH group processed) as (added & -> & Hi & Hn & Hp).
      exists added. repeat split; try assumption. now apply incl_tl.
    + destruct (is_duplicate self content1 (rec_content record2)).
      * destruct (IH (group ++ [record2]) (rec_id record2 :: processed))
          as (added & -> & Hi & Hn & Hp).
        exists (record2 :: added). repeat split.
        -- simpl. now rewrite <- !app_assoc.
        -- intros r [<-|Hr]; [now left|right; now apply Hi].
        -- simpl. constructor; [|exact Hn].
           intro H. apply in_map_iff in H as (r & E & Hr).
           apply (Hp r Hr). left. now symmetry.
        -- intros r [<-|Hr].
           ++ now apply id_in_false.
           ++ intro H. apply (Hp r Hr). now right.
      * destruct (IH group processed) as (added & -> & Hi & Hn & Hp).
        exists added. repeat split; try assumption. now apply incl_tl.
Qed.

Lemma cluster_loop_ids (self : engine) (records : list record) :
  forall (gs : list duplicate_group) (processed : list Z),
    NoDup (map rec_id records) ->
    NoDup (all_group_ids gs) ->
    incl (all_group_ids gs) processed ->
    NoDup (all_group_ids (cluster_loop self records gs processed)).
Proof.
  induction records as [|record1 rest IH]; intros gs processed Hnd Hgs Hincl;
    cbn [cluster_loop]; [exact Hgs|].
  simpl in Hnd. apply NoDup_cons_iff in Hnd as [Hfresh Hnd].
  destruct (id_in (rec_id record1) processed) eqn:Hin; [now apply IH|].
  apply id_in_false in Hin.
  destruct (scan_candidates_spec self (rec_content record1) rest [record1] processed)
    as (added & -> & Hi & Hn & Hp).
  assert (Hnew : NoDup (map rec_id ([record1] ++ added))).
  { simpl. constructor; [|exact Hn].
    intro H. apply in_map_iff in H as (r & E & Hr).
    apply Hfresh. rewrite <- E. apply in_map. now apply Hi. }
  assert (Hout : forall x, In x (all_group_ids gs) ->
                           ~ In x (map rec_id ([record1] ++ added))).
  { intros x Hx. simpl. intros [<-|H].
    - apply Hin. now apply Hincl.
    - apply in_map_iff in H as (r & <- & Hr). apply (Hp r Hr). now apply Hincl. }
  apply IH; [exact Hnd| |].
  - destruct (1 <? List.length ([record1] ++ added))%nat; [|exact Hgs].
    rewrite all_group_ids_app. apply NoDup_app_intro; [exact Hgs| |].
    + unfold all_group_ids. simpl. rewrite app_nil_r. exact Hnew.
    + intros x Hx. unfold all_group_ids. simpl. rewrite app_nil_r. now apply Hout.
  - intros x Hx.
    assert (Hx' : In x (all_group_ids gs) \/ In x (map rec_id ([record1] ++ added))).
    { destruct (1 <? List.length ([record1] ++ added))%nat; [|now left].
      rewrite all_group_ids_app in Hx. apply in_app_iff in Hx as [Hx|Hx]; [now left|].
      right. unfold all_group_ids in Hx. simpl in Hx. now rewrite app_nil_r in Hx. }
    destruct Hx' as [Hx'|Hx'].
    + right. apply in_app_iff. right. now apply Hincl.
    + simpl in Hx'. destruct Hx' as [<-|Hx']; [now left|].
      right. apply in_app_iff. left. now apply -> in_rev.
Qed.

(** In a list whose flattening has no repetition, lists at different
    places share no element. *)
Lemma flat_map_nodup_disjoint {A B : Type} (f : A -> list B) (l : list A) :
  NoDup (flat_map f l) ->
  forall i j a1 a2 x,
    nth_error l i = Some a1 -> nth_error l j = Some a2 ->
    In x (f a1) -> In x (f a2) -> i = j.
Proof.
  induction l as [|a l IH]; intros Hnd i j a1 a2 x Hi Hj H1 H2.
  - now destruct i.
  - simpl in Hnd.
    assert (Hl : NoDup (flat_map f l)) by (eapply NoDup_app_remove_l; exact Hnd).
    assert (Hcross : forall k b, nth_error l k = Some b -> In x (f a) -> In x (f b) -> False).
    { intros k b Hk Ha Hb.
      assert (In x (flat_map f l)).
      { apply in_flat_map. exists b. split; [eapply nth_error_In; exact Hk|exact Hb]. }
      clear - Hnd Ha H. induction (f a) as [|y fa IHfa]; [destruct Ha|].
      simpl in Hnd. apply NoDup_cons_iff in Hnd as [Hy Hnd].
      destruct Ha as [->|Ha]; [|now apply IHfa].
      apply Hy. apply in_app_iff. now right. }
    destruct i as [|i], j as [|j]; simpl in Hi, Hj.
    + reflexivity.
    + injection Hi as <-. exfalso. eapply Hcross; eassumption.
    + injection Hj as <-. exfalso. eapply Hcross; eassumption.
    + f_equal. eapply IH; eassumption.
Qed.

(** C1. When the ids of the records are distinct, the groups that the
    clustering step emits are pairwise disjoint: an id that occurs in the
    groups at places [i] and [j] forces [i = j]; and no id occurs twice
    among all the members of all the groups, so a record belongs to at most
    one group, once.  This holds for every engine, so for every threshold
    and every choice of weights. *)
Theorem find_duplicates_groups_disjoint (self : engine) (records : list record) :
  NoDup (map rec_id records) ->
  let gs := duplicate_groups (find_duplicates self records) in
  (forall i j g1 g2 x,
      nth_error gs i = Some g1 -> nth_error gs j = Some g2 ->
      In x (group_ids g1) -> In x (group_ids g2) -> i = j)
  /\ NoDup (all_group_ids gs).
Proof.
  intros Hnd gs.
  assert (H : NoDup (all_group_ids gs)).
  { unfold gs, find_duplicates, find_duplicate_groups. simpl.
    apply cluster_loop_ids; [exact Hnd|constructor|intros x []]. }
  split; [|exact H].
  now apply flat_map_nodup_disjoint.
Qed.

Lemma find_duplicates_groups_disjoint_witness :
  NoDup (map rec_id sample_records)
  /\ (let gs := duplicate_groups (find_duplicates default_engine sample_records) in
      (forall i j g1 g2 x,
          nth_error gs i = Some g1 -> nth_error gs j = Some g2 ->
          In x (group_ids g1) -> In x (group_ids g2) -> i = j)
      /\ NoDup (all_group_ids gs)).
Proof.
  assert (H : NoDup (map rec_id sample_records)).
  { repeat constructor; simpl; intuition discriminate. }
  split; [exact H|].
  exact (find_duplicates_groups_disjoint default_engine sample_records H).
Defined.

(** With the default threshold 0.85, the two messages that differ in their
    time only form one group and the third record stays out. *)
Example find_duplicates_on_sample :
  map group_ids (duplicate_groups (find_duplicates default_engine sample_records))
  = [[1; 2]].
Proof. vm_compute. reflexivity. Qed.

(** ** Grouping of checkpoint observations by signature *)

Section CheckpointGroups.

Variable checkpoint_patterns : list Re.regex.
Variable md5_hexdigest : text -> text.


Lemma group_append_keys (s : text) (o : record) (g : Checkpoint.groups) (k : text) :
  In k (map fst (Checkpoint.group_append s o g)) <-> k = s \/ In k (map fst g).
Proof.
  induction g as [|[s0 m0] g IH]; simpl.
  - split; [intros [<-|[]]; now left|intros [->|[]]; now left].
  - destruct (text_eqb s0 s) eqn:E; simpl.
    + apply text_eqb_eq in E. subst s0. intuition congruence.
    + rewrite IH. tauto.
Qed.

Lemma group_append_nodup (s : text) (o : record) (g : Checkpoint.groups) :
  NoDup (map fst g) -> NoDup (map fst (Checkpoint.group_append s o g)).
Proof.
  induction g as [|[s0 m0] g IH]; simpl; intro H.
  - repeat constructor. intros [].
  - apply NoDup_cons_iff in H as [Hs0 H].
    destruct (text_eqb s0 s) eqn:E; simpl.
    + now constructor.
    + constructor; [|now apply IH].
      rewrite group_append_keys. intros [->|Hin]; [|contradiction].
      now rewrite text_eqb_refl in E.
Qed.

(** The lists after an [append]: the one of [s] has gained [o], the others
    are as before. *)
Lemma group_append_members (s : text) (o : record) (g : Checkpoint.groups)
      (k : text) (members : list record) :
  In (k, members) (Checkpoint.group_append s o g) ->
  In (k, members) g
  \/ (k = s /\ forall x, In x members ->
                         x = o \/ exists m0, In (s, m0) g /\ In x m0).
Proof.
  induction g as [|[s0 m0] g IH]; simpl.
  - intros [H|[]]. injection H as <- <-. right. split; [reflexivity|].
    intros x [<-|[]]. now left.
  - destruct (text_eqb s0 s) eqn:E; simpl.
    + apply text_eqb_eq in E. subst s0. intros [H|H]; [|left; now right].
      injection H as <- <-. right. split; [reflexivity|].
      intros x Hx. apply in_app_iff in Hx as [Hx|[<-|[]]]; [|now left].
      right. exists m0. split; [now left|exact Hx].
    + intros [H|H]; [left; now left|].
      destruct (IH H) as [H'|[-> H']]; [left; now right|].
      right. split; [reflexivity|]. intros x Hx.
      destruct (H' x Hx) as [->|(m1 & Hm1 & Hx1)]; [now left|].
      right. exists m1. split; [now right|exact Hx1].
Qed.

Lemma group_append_keeps (s : text) (o : record) (g : Checkpoint.groups)
      (k : text) (m0 : list record) :
  In (k, m0) g ->
  exists members, In (k, members) (Checkpoint.group_append s o g) /\ incl m0 members.
Proof.
  induction g as [|[s1 m1] g IH]; simpl; [intros []|].
  destruct (text_eqb s1 s) eqn:E; simpl.
  - intros [H|H].
    + injection H as <- <-. exists (m1 ++ [o]). split; [now left|].
      now apply incl_appl, incl_refl.
    + exists m0. split; [now right|apply incl_refl].
  - intros [H|H].
    + injection H as <- <-. exists m1. split; [now left|apply incl_refl].
    + destruct (IH H) as (members & Hm & Hi). exists members. split; [now right|exact Hi].
Qed.

Lemma group_append_adds (s : text) (o : record) (g : Checkpoint.groups) :
  exists members, In (s, members) (Checkpoint.group_append s o g) /\ In o members.
Proof.
  induction g as [|[s1 m1] g IH]; simpl.
  - exists [o]. split; now left.
  - destruct (text_eqb s1 s) eqn:E; simpl.
    + apply text_eqb_eq in E. subst s1. exists (m1 ++ [o]). split; [now left|].
      apply in_app_iff. right. now left.
    + destruct IH as (members & Hm & Ho). exists members. split; [now right|exact Ho].
Qed.

Lemma groups_invariant_append (seen : list record) (g : Checkpoint.groups) (o : record) :
  is_checkpoint_record checkpoint_patterns o = true ->
  groups_invariant (is_checkpoint_record checkpoint_patterns)
                   (signature_of md5_hexdigest) seen g ->
  groups_invariant (is_checkpoint_record checkpoint_patterns)
                   (signature_of md5_hexdigest) (seen ++ [o])
                   (Checkpoint.group_append (signature_of md5_hexdigest o) o g).
Proof.
  intros Hck (Hnd & Hsig & Hall). repeat split.
  - now apply group_append_nodup.
  - intros s members x Hin Hx.
    destruct (group_append_members _ _ _ _ _ Hin) as [H|[-> H]].
    + now apply (Hsig s members).
    + destruct (H x Hx) as [->|(m0 & Hm0 & Hx0)]; [reflexivity|].
      now apply (Hsig _ m0).
  - intros x Hx Hckx. apply in_app_iff in Hx as [Hx|[<-|[]]].
    + destruct (Hall x Hx Hckx) as (m0 & Hm0 & Hx0).
      destruct (group_append_keeps (signature_of md5_hexdigest o) o g _ _ Hm0) as (members & Hm & Hi).
      exists members. split; [exact Hm|now apply Hi].
    + apply group_append_adds.
Qed.

Lemma groups_invariant_skip (seen : list record) (g : Checkpoint.groups) (o : record) :
  is_checkpoint_record checkpoint_patterns o = false ->
  groups_invariant (is_checkpoint_record checkpoint_patterns)
                   (signature_of md5_hexdigest) seen g ->
  groups_invariant (is_checkpoint_record checkpoint_patterns)
                   (signature_of md5_hexdigest) (seen ++ [o]) g.
Proof.
  intros Hck (Hnd & Hsig & Hall). repeat split; try assumption.
  intros x Hx Hckx. apply in_app_iff in Hx as [Hx|[<-|[]]].
  - now apply Hall.
  - congruence.
Qed.

Lemma classify_invariant (observations : list record) :
  forall (seen : list record) (g : Checkpoint.groups) (regular : list record),
    groups_invariant (is_checkpoint_record checkpoint_patterns)
                   (signature_of md5_hexdigest) seen g ->
    groups_invariant (is_checkpoint_record checkpoint_patterns)
                   (signature_of md5_hexdigest) (seen ++ observations)
      (fst (Checkpoint.classify checkpoint_patterns md5_hexdigest observations g regular)).
Proof.
  induction observations as [|o observations IH]; intros seen g regular Hinv;
    cbn [Checkpoint.classify].
  - now rewrite app_nil_r.
  - replace (seen ++ o :: observations) with ((seen ++ [o]) ++ observations)
      by (now rewrite <- app_assoc).
    destruct (Checkpoint.is_checkpoint_observation checkpoint_patterns (rec_content o))
      eqn:Hck.
    + apply IH. now apply groups_invariant_append.
    + apply IH. now apply groups_invariant_skip.
Qed.

Lemma nodup_keys_functional {A B : Type} (l : list (A * B)) (k : A) (x y : B) :
  NoDup (map fst l) -> In (k, x) l -> In (k, y) l -> x = y.
Proof.
  induction l as [|[k0 v0] l IH]; simpl; intros Hnd Hx Hy; [destruct Hx|].
  apply NoDup_cons_iff in Hnd as [Hk Hnd].
  destruct Hx as [Hx|Hx], Hy as [Hy|Hy].
  - congruence.
  - injection Hx as <- <-. elim Hk. now apply (in_map fst _ (k0, y)).
  - injection Hy as <- <-. elim Hk. now apply (in_map fst _ (k0, x)).
  - now apply IH.
Qed.

(** C9. Two observations of the input that are recognised as checkpoint
    observations stand in the same list of [checkpoint_groups] exactly when
    their signatures are equal. *)
Theorem checkpoint_groups_by_signature (observations : list record) (o1 o2 : record) :
  In o1 observations -> In o2 observations ->
  Checkpoint.is_checkpoint_observation checkpoint_patterns (rec_content o1) = true ->
  Checkpoint.is_checkpoint_observation checkpoint_patterns (rec_content o2) = true ->
  same_checkpoint_group
    (Checkpoint.checkpoint_groups_of checkpoint_patterns md5_hexdigest observations)
    o1 o2
  <->
  Checkpoint.generate_checkpoint_signature md5_hexdigest (rec_content o1)
  = Checkpoint.generate_checkpoint_signature md5_hexdigest (rec_content o2).
Proof.
  intros Hin1 Hin2 Hck1 Hck2.
  assert (Hinv : groups_invariant (is_checkpoint_record checkpoint_patterns)
                   (signature_of md5_hexdigest) observations
                   (Checkpoint.checkpoint_groups_of checkpoint_patterns md5_hexdigest
                                                    observations)).
  { apply (classify_invariant observations [] [] []).
    repeat split; [constructor|intros s members o []|intros o []]. }
  destruct Hinv as (Hnd & Hsig & Hall). split.
  - intros (s & members & Hm & H1 & H2).
    change (signature_of md5_hexdigest o1 = signature_of md5_hexdigest o2).
    now rewrite (Hsig s members o1 Hm H1), (Hsig s members o2 Hm H2).
  - intro E. change (signature_of md5_hexdigest o1 = signature_of md5_hexdigest o2) in E.
    destruct (Hall o1 Hin1 Hck1) as (m1 & Hm1 & H1).
    destruct (Hall o2 Hin2 Hck2) as (m2 & Hm2 & H2).
    rewrite <- E in Hm2.
    rewrite <- (nodup_keys_functional _ _ _ _ Hnd Hm1 Hm2) in H2.
    now exists (signature_of md5_hexdigest o1), m1.
Qed.

End CheckpointGroups.

Lemma checkpoint_groups_by_signature_witness :
  let o1 := mkRecord 1 (str "Auto-save at 2024-01-01") 30 in
  let o2 := mkRecord 2 (str "Auto-save at 2024-01-02") 20 in
  same_checkpoint_group
    (Checkpoint.checkpoint_groups_of Checkpoint.default_checkpoint_patterns sample_digest
                                     sample_observations)
    o1 o2
  <->
  Checkpoint.generate_checkpoint_signature sample_digest (rec_content o1)
  = Checkpoint.generate_checkpoint_signature sample_digest (rec_content o2).
Proof.
  intros o1 o2.
  apply (checkpoint_groups_by_signature Checkpoint.default_checkpoint_patterns
           sample_digest sample_observations o1 o2).
  - simpl. now left.
  - simpl. right. now left.
  - vm_compute. reflexivity.
  - vm_compute. reflexivity.
Defined.

(** The scenario of the specification: the two auto-save messages share a
    signature and a group; the meeting notes are a regular observation. *)
Example checkpoint_groups_on_sample :
  map (fun g => map rec_id (snd g))
      (Checkpoint.checkpoint_groups_of Checkpoint.default_checkpoint_patterns
                                       sample_digest sample_observations)
  = [[1; 2]]
  /\ map rec_id
         (snd (Checkpoint.classify Checkpoint.default_checkpoint_patterns sample_digest
                                   sample_observations [] []))
     = [3].
Proof. split; vm_compute; reflexivity. Qed.

(** ** The metrics of [calculate_similarity] *)

Lemma levenshtein_nil_l (t : text) : levenshtein_distance [] t = Z.of_nat (List.length t).
Proof. now destruct t. Qed.

Lemma levenshtein_nil_r (s : text) : levenshtein_distance s [] = Z.of_nat (List.length s).
Proof. now destruct s. Qed.

Lemma levenshtein_cons (a b : ascii) (s t : text) :
  levenshtein_distance (a :: s) (b :: t)
  = Z.min (Z.min (levenshtein_distance s (b :: t) + 1)
                 (levenshtein_distance (a :: s) t + 1))
          (levenshtein_distance s t + (if char_eqb a b then 0 else 1)).
Proof. reflexivity. Qed.

Lemma char_eqb_sym (a b : ascii) : char_eqb a b = char_eqb b a.
Proof. apply Ascii.eqb_sym. Qed.

Lemma levenshtein_sym (s : text) : forall t, levenshtein_distance s t = levenshtein_distance t s.
Proof.
  induction s as [|a s IHs]; intro t.
  - now rewrite levenshtein_nil_l, levenshtein_nil_r.
  - induction t as [|b t IHt].
    + now rewrite levenshtein_nil_l, levenshtein_nil_r.
    + rewrite !levenshtein_cons.
      rewrite (IHs (b :: t)), (IHs t), IHt, (char_eqb_sym a b).
      f_equal. apply Z.min_comm.
Qed.

Lemma word_set_nodup (norm : text) : NoDup (word_set norm).
Proof. apply NoDup_nodup. Qed.

Lemma in_intersection (words1 words2 : list text) (x : text) :
  In x (intersection words1 words2) <-> In x words1 /\ In x words2.
Proof.
  unfold intersection. rewrite filter_In.
  destruct (in_dec text_dec x words2); intuition discriminate.
Qed.

Lemma in_union (words1 words2 : list text) (x : text) :
  In x (union words1 words2) <-> In x words1 \/ In x words2.
Proof.
  unfold union. rewrite in_app_iff, filter_In.
  destruct (in_dec text_dec x words1); intuition discriminate.
Qed.

Lemma intersection_nodup (words1 words2 : list text) :
  NoDup words1 -> NoDup (intersection words1 words2).
Proof. apply NoDup_filter. Qed.

Lemma union_nodup (words1 words2 : list text) :
  NoDup words1 -> NoDup words2 -> NoDup (union words1 words2).
Proof.
  intros H1 H2. unfold union. apply NoDup_app_intro.
  - exact H1.
  - now apply NoDup_filter.
  - intros x Hx Hf. apply filter_In in Hf as [_ Hf].
    now destruct (in_dec text_dec x words1).
Qed.

Lemma intersection_length_sym (words1 words2 : list text) :
  NoDup words1 -> NoDup words2 ->
  List.length (intersection words1 words2) = List.length (intersection words2 words1).
Proof.
  intros H1 H2. apply Permutation_length, NoDup_Permutation.
  - now apply intersection_nodup.
  - now apply intersection_nodup.
  - intro x. rewrite !in_intersection. tauto.
Qed.

Lemma union_length_sym (words1 words2 : list text) :
  NoDup words1 -> NoDup words2 ->
  List.length (union words1 words2) = List.length (union words2 words1).
Proof.
  intros H1 H2. apply Permutation_length, NoDup_Permutation.
  - now apply union_nodup.
  - now apply union_nodup.
  - intro x. rewrite !in_union. tauto.
Qed.

Lemma exact_match_sym (norm1 norm2 : text) :
  exact_match_of norm1 norm2 = exact_match_of norm2 norm1.
Proof. unfold exact_match_of. now rewrite text_eqb_sym. Qed.

Lemma levenshtein_similarity_sym (norm1 norm2 : text) :
  levenshtein_similarity_of norm1 norm2 = levenshtein_similarity_of norm2 norm1.
Proof.
  unfold levenshtein_similarity_of.
  now rewrite Z.max_comm, levenshtein_sym.
Qed.

Lemma jaccard_similarity_sym (norm1 norm2 : text) :
  jaccard_similarity_of norm1 norm2 = jaccard_similarity_of norm2 norm1.
Proof.
  unfold jaccard_similarity_of.
  rewrite (andb_comm (is_empty (word_set norm1))), (orb_comm (is_empty (word_set norm1))).
  rewrite (intersection_length_sym (word_set norm1) (word_set norm2))
    by apply word_set_nodup.
  rewrite (union_length_sym (word_set norm1) (word_set norm2))
    by apply word_set_nodup.
  reflexivity.
Qed.

(** C2, as the program has it.  Of the scores of [calculate_similarity],
    [exact_match], [levenshtein_similarity] and [jaccard_similarity] do not
    depend on the order of the two texts. *)
Theorem similarity_symmetric_metrics (w : weights) (text1 text2 : text) :
  let s12 := calculate_similarity w text1 text2 in
  let s21 := calculate_similarity w text2 text1 in
  exact_match s12 = exact_match s21
  /\ levenshtein_similarity s12 = levenshtein_similarity s21
  /\ jaccard_similarity s12 = jaccard_similarity s21.
Proof.
  simpl. repeat split.
  - apply exact_match_sym.
  - apply levenshtein_similarity_sym.
  - apply jaccard_similarity_sym.
Qed.

(** C2, the claim refuted: [SequenceMatcher.ratio] depends on the order of
    its arguments.  On ["tide"] and ["diet"] it is 0.25 one way and 0.5 the
    other way, and the composite scores differ with it. *)
Lemma sequence_similarity_not_symmetric :
  let s12 := calculate_similarity default_weights (str "tide") (str "diet") in
  let s21 := calculate_similarity default_weights (str "diet") (str "tide") in
  sequence_similarity s12 = F64.lit 25 100
  /\ sequence_similarity s21 = F64.lit 5 10
  /\ sequence_similarity s12 <> sequence_similarity s21
  /\ composite_similarity s12 <> composite_similarity s21.
Proof.
  repeat split; try (vm_compute; reflexivity); vm_compute; discriminate.
Qed.

(** C8. The zero-length cases of the metrics.  When both normalised texts
    are empty, [levenshtein_similarity] and [jaccard_similarity] are 1.0;
    [jaccard_similarity] is 1.0 when both word sets are empty and 0.0 when
    one of them is empty and the other is not.  The metrics are functions
    defined on all texts. *)
Theorem zero_length_fallbacks (w : weights) (text1 text2 : text) :
  let s := calculate_similarity w text1 text2 in
  let norm1 := normalize_text text1 in
  let norm2 := normalize_text text2 in
  (norm1 = [] -> norm2 = [] ->
   levenshtein_similarity s = F64.one /\ jaccard_similarity s = F64.one)
  /\ (word_set norm1 = [] -> word_set norm2 = [] -> jaccard_similarity s = F64.one)
  /\ (word_set norm1 = [] -> word_set norm2 <> [] -> jaccard_similarity s = F64.zero)
  /\ (word_set norm1 <> [] -> word_set norm2 = [] -> jaccard_similarity s = F64.zero).
Proof.
  cbn zeta. unfold calculate_similarity. cbn [levenshtein_similarity jaccard_similarity].
  unfold levenshtein_similarity_of, jaccard_similarity_of.
  repeat split.
  - rewrite H, H0. reflexivity.
  - rewrite H, H0. reflexivity.
  - intros -> ->. reflexivity.
  - intros -> H. simpl. now destruct (word_set (normalize_text text2)).
  - intros H ->. destruct (word_set (normalize_text text1)); [contradiction|reflexivity].
Qed.

Lemma zero_length_fallbacks_witness :
  levenshtein_similarity (calculate_similarity default_weights (str "!!") (str " ? "))
    = F64.one
  /\ jaccard_similarity (calculate_similarity default_weights (str "!!") (str " ? "))
     = F64.one
  /\ jaccard_similarity (calculate_similarity default_weights (str "!!") (str "ab"))
     = F64.zero
  /\ jaccard_similarity (calculate_similarity default_weights (str "ab") (str "!!"))
     = F64.zero.
Proof.
  destruct (zero_length_fallbacks default_weights (str "!!") (str " ? "))
    as (H1 & _ & _ & _).
  destruct (zero_length_fallbacks default_weights (str "!!") (str "ab"))
    as (_ & _ & H3 & _).
  destruct (zero_length_fallbacks default_weights (str "ab") (str "!!"))
    as (_ & _ & _ & H4).
  split; [|split; [|split]].
  - apply H1; reflexivity.
  - apply H1; reflexivity.
  - apply H3; [reflexivity|discriminate].
  - apply H4; [discriminate|reflexivity].
Defined.

(** ** Binary64 arithmetic on counts and lengths *)

Lemma digits2_pos_iter (p k : positive) :
  digits2_pos (Pos.iter xO p k) = (digits2_pos p + k)%positive.
Proof.
  induction k as [|k IH] using Pos.peano_ind.
  - simpl. lia.
  - rewrite Pos.iter_succ. simpl. rewrite IH. lia.
Qed.

Lemma digits2_pos_size (p : positive) : digits2_pos p = Pos.size p.
Proof. induction p; simpl; congruence. Qed.

Lemma digits2_pos_bound (p : positive) (n : Z) :
  0 <= n -> Zpos p < 2 ^ n -> Zpos (digits2_pos p) <= n.
Proof.
  intros Hn H. rewrite digits2_pos_size.
  destruct (Z_le_gt_dec (Zpos (Pos.size p)) n) as [|Hgt]; [assumption|exfalso].
  pose proof (Pos.size_le p) as Hle.
  assert (2 ^ Zpos (Pos.size p) <= Zpos p~0).
  { rewrite <- Pos2Z.inj_pow. apply Pos2Z.pos_le_pos. exact Hle. }
  assert (2 ^ (n + 1) <= 2 ^ Zpos (Pos.size p)) by (apply Z.pow_le_mono_r; lia).
  rewrite Z.pow_add_r in H1 by lia. lia.
Qed.

(** Rounding a mantissa of 53 digits changes nothing. *)
Lemma round_canonical (s : bool) (m : positive) (e : Z) :
  digits2_pos m = 53%positive -> -1074 <= e <= 971 ->
  binary_round_aux F64.prec F64.emax s (Zpos m) e loc_Exact = S754_finite s m e.
Proof.
  intros Hd He. unfold binary_round_aux, shr_fexp. cbn [shr_record_of_loc Zdigits2].
  rewrite Hd.
  replace (fexp F64.prec F64.emax (53 + e) - e) with 0
    by (unfold fexp, emin, F64.prec, F64.emax; lia).
  cbn [shr shr_m loc_of_shr_record round_nearest_even Zdigits2].
  rewrite Hd.
  replace (fexp F64.prec F64.emax (53 + e) - e) with 0
    by (unfold fexp, emin, F64.prec, F64.emax; lia).
  cbn [shr shr_m].
  replace (e <=? F64.emax - F64.prec) with true; [reflexivity|].
  symmetry. apply Z.leb_le. unfold F64.prec, F64.emax. lia.
Qed.

Lemma mantissa_of_digits (p : positive) :
  Zpos (digits2_pos p) <= 53 -> digits2_pos (mantissa_of p) = 53%positive.
Proof.
  intro H. unfold mantissa_of, shl_align.
  destruct (Zpos (digits2_pos p) - 53 - 0) as [|k|k] eqn:E; cbn [fst].
  - lia.
  - lia.
  - rewrite digits2_pos_iter. lia.
Qed.

Lemma shl_align_exponent (p : positive) :
  Zpos (digits2_pos p) <= 53 ->
  snd (shl_align p 0 (Zpos (digits2_pos p) - 53)) = Zpos (digits2_pos p) - 53.
Proof.
  intro H. unfold shl_align.
  destruct (Zpos (digits2_pos p) - 53 - 0) eqn:E; cbn [snd]; lia.
Qed.

Lemma of_int_pos (p : positive) :
  Zpos (digits2_pos p) <= 53 ->
  F64.of_int (Zpos p) = S754_finite false (mantissa_of p) (Zpos (digits2_pos p) - 53).
Proof.
  intro H. unfold F64.of_int, binary_normalize, binary_round.
  replace (fexp F64.prec F64.emax (Zpos (digits2_pos p) + 0))
    with (Zpos (digits2_pos p) - 53)
    by (unfold fexp, emin, F64.prec, F64.emax; lia).
  rewrite (surjective_pairing (shl_align p 0 (Zpos (digits2_pos p) - 53))).
  rewrite shl_align_exponent by exact H.
  apply round_canonical; [now apply mantissa_of_digits|lia].
Qed.

Lemma mantissa_of_double (p : positive) :
  Zpos (digits2_pos p) <= 52 -> mantissa_of p~0 = mantissa_of p.
Proof.
  intro H. unfold mantissa_of, shl_align. cbn [digits2_pos].
  destruct (Zpos (digits2_pos p) - 53 - 0) as [|k|k] eqn:E; try lia.
  destruct (Zpos (Pos.succ (digits2_pos p)) - 53 - 0) as [|k'|k'] eqn:E'; try lia; cbn [fst].
  - assert (k = 1%positive) by lia. subst k. reflexivity.
  - assert (k = Pos.succ k') by lia. subst k.
    rewrite Pos.iter_succ. change (p~0)%positive with (xO p).
    now rewrite Pos.iter_swap.
Qed.

Lemma mul_two (m : positive) (e : Z) :
  digits2_pos m = 53%positive -> -1074 <= e <= 970 ->
  F64.mul F64.two (S754_finite false m e) = S754_finite false m (e + 1).
Proof.
  intros Hd He. unfold F64.mul, F64.two, SFmul. cbn [xorb].
  unfold binary_round_aux, shr_fexp. cbn [shr_record_of_loc Zdigits2].
  replace (Zpos (digits2_pos (4503599627370496 * m))) with 105.
  2:{ change (4503599627370496 * m)%positive with (Pos.iter xO m 52).
      rewrite digits2_pos_iter, Hd. reflexivity. }
  replace (fexp F64.prec F64.emax (105 + (-51 + e)) - (-51 + e)) with 52
    by (unfold fexp, emin, F64.prec, F64.emax; lia).
  change (4503599627370496 * m)%positive with (Pos.iter xO m 52).
  cbn [shr iter_pos Pos.iter shr_1 orb shr_m loc_of_shr_record round_nearest_even Zdigits2].
  rewrite Hd.
  replace (fexp F64.prec F64.emax (53 + (-51 + e + 52)) - (-51 + e + 52)) with 0
    by (unfold fexp, emin, F64.prec, F64.emax; lia).
  cbn [shr shr_m].
  replace (-51 + e + 52 <=? F64.emax - F64.prec) with true
    by (symmetry; apply Z.leb_le; unfold F64.prec, F64.emax; lia).
  f_equal. lia.
Qed.

Lemma div_same (s : bool) (m : positive) (e : Z) :
  F64.div (S754_finite s m e) (S754_finite s m e) = F64.one.
Proof.
  unfold F64.div, SFdiv, SFdiv_core_binary. cbn [Zdigits2].
  replace (Zpos (digits2_pos m) + e - (Zpos (digits2_pos m) + e)) with 0 by lia.
  replace (e - e) with 0 by lia.
  change (Z.min (fexp F64.prec F64.emax 0) 0) with (-53).
  change (0 - -53) with 53.
  cbv iota.
  assert (Hq : Z.div_eucl (Z.shiftl (Zpos m) 53) (Zpos m) = (2 ^ 53, 0)).
  { rewrite Z.shiftl_mul_pow2 by lia.
    pose proof (Z.div_eucl_eq (Zpos m * 2 ^ 53) (Zpos m)) as Heq.
    pose proof (Z.mod_pos_bound (Zpos m * 2 ^ 53) (Zpos m)) as Hb.
    unfold Z.modulo, Z.div in *.
    destruct (Z.div_eucl (Zpos m * 2 ^ 53) (Zpos m)) as [q r].
    assert (Hm : 0 < Zpos m) by lia. specialize (Hb Hm). specialize (Heq ltac:(lia)).
    assert (q = 2 ^ 53) by nia. subst q. f_equal. lia. }
  rewrite Hq.
  assert (Hl : new_location (Zpos m) 0 = loc_Exact).
  { unfold new_location, new_location_even, new_location_odd.
    destruct (Z.even (Zpos m)); reflexivity. }
  rewrite Hl. destruct s; vm_compute; reflexivity.
Qed.

(** ** Rounding and upper bounds *)


Lemma inexact_bits (m : Z) (r s : bool) :
  inexact (loc_of_shr_record (Build_shr_record m r s)) = 0 <-> r = false /\ s = false.
Proof. destruct r, s; simpl; intuition congruence. Qed.

Lemma shr_1_rel (a : shr_record) : 0 <= shr_m a -> shr_rel 1 a (shr_1 a).
Proof.
  destruct a as [m r s]. cbn [shr_m]. intro Hm. unfold shr_rel.
  destruct m as [|p|p]; [| |lia].
  - cbn [shr_1 shr_m]. rewrite !inexact_bits.
    split; [lia|]. split; [lia|]. destruct r, s; simpl; intuition congruence.
  - destruct p as [p|p|]; cbn [shr_1 shr_m]; rewrite !inexact_bits.
    + split; [lia|]. split; [lia|]. split; [intros [H _]; discriminate|lia].
    + split; [lia|]. split; [lia|]. destruct r, s; simpl; intuition (try congruence; lia).
    + split; [lia|]. split; [lia|]. split; [intros [H _]; discriminate|lia].
Qed.

Lemma shr_rel_trans (n1 n2 : Z) (a b c : shr_record) :
  0 <= n1 -> 0 <= n2 -> shr_rel n1 a b -> shr_rel n2 b c -> shr_rel (n1 + n2) a c.
Proof.
  intros H1 H2 (Hb & Hab & Eab) (Hc & Hbc & Ebc). unfold shr_rel.
  rewrite Z.pow_add_r by assumption.
  assert (P1 : 0 < 2 ^ n1) by (apply Z.pow_pos_nonneg; lia).
  assert (P2 : 0 < 2 ^ n2) by (apply Z.pow_pos_nonneg; lia).
  split; [exact Hc|]. split; [nia|].
  rewrite Ebc, Eab. split.
  - intros (E1 & E2 & E3). split; [nia|exact E3].
  - intros (E1 & E2). assert (shr_m b = shr_m c * 2 ^ n2) by nia.
    split; [assumption|]. split; [nia|exact E2].
Qed.

Lemma iter_pos_shr_rel (p : positive) :
  forall a, 0 <= shr_m a -> shr_rel (Zpos p) a (iter_pos shr_1 p a).
Proof.
  induction p as [p IH|p IH|]; intros a Ha; cbn [iter_pos].
  - pose proof (shr_1_rel a Ha) as R1.
    assert (H1 : 0 <= shr_m (shr_1 a)) by apply R1.
    pose proof (IH _ H1) as R2.
    assert (H2 : 0 <= shr_m (iter_pos shr_1 p (shr_1 a))) by apply R2.
    pose proof (IH _ H2) as R3.
    replace (Zpos p~1) with (1 + Zpos p + Zpos p) by lia.
    eapply shr_rel_trans; [lia|lia| |exact R3].
    eapply shr_rel_trans; [lia|lia|exact R1|exact R2].
  - pose proof (IH a Ha) as R1.
    assert (H1 : 0 <= shr_m (iter_pos shr_1 p a)) by apply R1.
    pose proof (IH _ H1) as R2.
    replace (Zpos p~0) with (Zpos p + Zpos p) by lia.
    eapply shr_rel_trans; [lia|lia|exact R1|exact R2].
  - now apply shr_1_rel.
Qed.

Lemma shr_rel_shift (m e n : Z) (l : location) :
  0 <= m -> 0 <= n ->
  shr_rel n (shr_record_of_loc m l) (fst (shr (shr_record_of_loc m l) e n))
  /\ snd (shr (shr_record_of_loc m l) e n) = e + n.
Proof.
  intros Hm Hn.
  assert (Hm' : 0 <= shr_m (shr_record_of_loc m l)) by (destruct l as [|[]]; exact Hm).
  destruct n as [|p|p]; [| |lia]; cbn [shr fst snd].
  - split; [|lia]. unfold shr_rel. rewrite Z.pow_0_r. split; [exact Hm'|].
    split; [lia|]. intuition lia.
  - split; [|reflexivity]. now apply iter_pos_shr_rel.
Qed.

Lemma shr_record_of_loc_m (m : Z) (l : location) : shr_m (shr_record_of_loc m l) = m.
Proof. now destruct l as [|[]]. Qed.

Lemma shr_record_of_loc_inexact (m : Z) (l : location) :
  inexact (loc_of_shr_record (shr_record_of_loc m l)) = inexact l.
Proof. now destruct l as [|[]]. Qed.

Lemma round_nearest_even_bounds (m : Z) (l : location) :
  m <= round_nearest_even m l <= m + inexact l.
Proof.
  destruct l as [|[]]; cbn [round_nearest_even inexact]; try lia.
  destruct (Z.even m); lia.
Qed.

Lemma digits2_bounds (p : positive) :
  2 ^ (Zpos (digits2_pos p) - 1) <= Zpos p < 2 ^ Zpos (digits2_pos p).
Proof.
  rewrite digits2_pos_size. split.
  - pose proof (Pos.size_le p) as H.
    assert (H' : 2 ^ Zpos (Pos.size p) <= Zpos p~0).
    { rewrite <- Pos2Z.inj_pow. now apply Pos2Z.pos_le_pos. }
    replace (Zpos (Pos.size p)) with (Zpos (Pos.size p) - 1 + 1) in H' by lia.
    rewrite Z.pow_add_r in H' by lia. lia.
  - pose proof (Pos.size_gt p) as H.
    rewrite <- Pos2Z.inj_pow. now apply Pos2Z.pos_lt_pos.
Qed.

Lemma Zdigits2_unique (m k : Z) :
  2 ^ (k - 1) <= m < 2 ^ k -> 0 < m -> Zdigits2 m = k.
Proof.
  intros [H1 H2] Hm. destruct m as [|p|p]; try lia. cbn [Zdigits2].
  pose proof (digits2_bounds p) as [B1 B2].
  set (d := Zpos (digits2_pos p)) in *.
  assert (0 < k).
  { destruct (Z_lt_le_dec 0 k); [assumption|].
    destruct (Z.eq_dec k 0) as [->|]; [simpl in H2; lia|].
    rewrite (Z.pow_neg_r 2 k) in H2 by lia. lia. }
  destruct (Z_lt_le_dec d k).
  - assert (2 ^ d <= 2 ^ (k - 1)) by (apply Z.pow_le_mono_r; lia). lia.
  - destruct (Z_lt_le_dec k d); [|lia].
    assert (2 ^ k <= 2 ^ (d - 1)) by (apply Z.pow_le_mono_r; lia). lia.
Qed.


Lemma fexp_eq (x : Z) : fexp F64.prec F64.emax x = Z.max (x - 53) (-1074).
Proof. reflexivity. Qed.

Lemma second_round_same (m e1 : Z) :
  0 <= m < 2 ^ 53 -> e1 <= 971 ->
  (0 < m -> fexp F64.prec F64.emax (Zdigits2 m + e1) = e1) ->
  (let '(mrs, e2) := shr_fexp F64.prec F64.emax m e1 loc_Exact in
   match shr_m mrs with
   | Z0 => S754_zero false
   | Zpos p => if e2 <=? F64.emax - F64.prec then S754_finite false p e2
               else S754_infinity false
   | Zneg _ => S754_nan
   end)
  = match m with
    | Zpos p => S754_finite false p e1
    | _ => S754_zero false
    end.
Proof.
  intros Hm He Hf. destruct m as [|p|p]; [| |lia].
  - unfold shr_fexp. cbn [shr_record_of_loc Zdigits2].
    destruct (fexp F64.prec F64.emax (0 + e1) - e1) as [|q|q] eqn:E; cbn [shr].
    + reflexivity.
    + assert (R := iter_pos_shr_rel q (Build_shr_record 0 false false) ltac:(simpl; lia)).
      destruct R as (R0 & R1 & _). cbn [shr_m] in R1.
      assert (0 < 2 ^ Zpos q) by (apply Z.pow_pos_nonneg; lia).
      assert (shr_m (iter_pos shr_1 q (Build_shr_record 0 false false)) = 0) by nia.
      now rewrite H0.
    + reflexivity.
  - unfold shr_fexp. rewrite (Hf ltac:(lia)). rewrite Z.sub_diag.
    cbn [shr shr_record_of_loc shr_m].
    replace (e1 <=? F64.emax - F64.prec) with true; [reflexivity|].
    symmetry. apply Z.leb_le. unfold F64.emax, F64.prec. lia.
Qed.

Lemma round_aux_core (mx e K : Z) (l : location) :
  0 <= mx ->
  e <= fexp F64.prec F64.emax (Zdigits2 mx + e) ->
  fexp F64.prec F64.emax (Zdigits2 mx + e) <= 970 ->
  mx + inexact l <= K * 2 ^ (fexp F64.prec F64.emax (Zdigits2 mx + e) - e) ->
  rounded_below (fexp F64.prec F64.emax (Zdigits2 mx + e)) K
                (binary_round_aux F64.prec F64.emax false mx e l).
Proof.
  intros Hmx Hn Hov HK.
  set (e1 := fexp F64.prec F64.emax (Zdigits2 mx + e)) in *.
  unfold binary_round_aux. unfold shr_fexp at 1. fold e1.
  destruct (shr_rel_shift mx e (e1 - e) l Hmx ltac:(lia)) as [Rel Hsnd].
  destruct (shr (shr_record_of_loc mx l) e (e1 - e)) as [mrs e'] eqn:Eshr.
  cbn [fst snd] in Rel, Hsnd. replace e' with e1 by lia. clear Hsnd.
  destruct Rel as (Hm'0 & Hm' & Hex).
  rewrite shr_record_of_loc_m, shr_record_of_loc_inexact in *.
  set (m' := shr_m mrs) in *.
  pose proof (round_nearest_even_bounds m' (loc_of_shr_record mrs)) as Hr.
  set (m'' := round_nearest_even m' (loc_of_shr_record mrs)) in *.
  assert (P2 : 0 < 2 ^ (e1 - e)) by (apply Z.pow_pos_nonneg; lia).
  assert (HKm : m'' <= K).
  { assert (Hl0 : 0 <= inexact l) by (destruct l; simpl; lia).
    assert (m' <= K).
    { destruct (Z_le_gt_dec m' K); [assumption|exfalso].
      assert ((K + 1) * 2 ^ (e1 - e) <= m' * 2 ^ (e1 - e))
        by (apply Z.mul_le_mono_nonneg_r; lia).
      lia. }
    destruct (Z.eq_dec (inexact (loc_of_shr_record mrs)) 0) as [E0|E1]; [lia|].
    destruct (Z.eq_dec m' K) as [->|]; [|assert (inexact (loc_of_shr_record mrs) <= 1)
                                          by (destruct (loc_of_shr_record mrs); simpl; lia); lia].
    exfalso. apply E1. apply Hex.
    assert (0 <= inexact l) by (destruct l; simpl; lia). split; lia. }
  (* the size of the rounded mantissa *)
  assert (Hcases : (0 <= m'' < 2 ^ 53
                    /\ (0 < m'' -> fexp F64.prec F64.emax (Zdigits2 m'' + e1) = e1))
                   \/ m'' = 2 ^ 53).
  { destruct (Z.eq_dec mx 0) as [Hz|Hnz].
    - left. assert (m' = 0) by nia.
      assert (inexact (loc_of_shr_record mrs) <= 1)
        by (destruct (loc_of_shr_record mrs); simpl; lia).
      assert (He1 : e1 = -1074).
      { unfold e1 in *. rewrite Hz in *. cbn [Zdigits2] in *. rewrite fexp_eq in *. lia. }
      split; [lia|]. intro Hpos. assert (Hone : m'' = 1) by lia.
      rewrite Hone, He1. reflexivity.
    - assert (Hd := Zdigits2_unique mx (Zdigits2 mx)).
      destruct mx as [|p|p]; try lia. cbn [Zdigits2] in *.
      pose proof (digits2_bounds p) as [B1 B2].
      set (d := Zpos (digits2_pos p)) in *. clear Hd.
      assert (inexact (loc_of_shr_record mrs) <= 1)
        by (destruct (loc_of_shr_record mrs); simpl; lia).
      destruct (Z_le_gt_dec (-1074) (d + e - 53)) as [Hnorm|Hsub].
      + (* normal *)
        assert (He1 : e1 = d + e - 53) by (unfold e1; rewrite fexp_eq; lia).
        assert (Hsh : e1 - e = d - 53) by lia. rewrite Hsh in *.
        assert (E1 : 2 ^ d = 2 ^ 53 * 2 ^ (d - 53))
          by (rewrite <- Z.pow_add_r by lia; f_equal; lia).
        assert (E2 : 2 ^ (d - 1) = 2 ^ 52 * 2 ^ (d - 53))
          by (rewrite <- Z.pow_add_r by lia; f_equal; lia).
        assert (2 ^ 52 <= m' < 2 ^ 53) by nia.
        destruct (Z.eq_dec m'' (2 ^ 53)) as [|Hne]; [now right|left].
        split; [lia|]. intros _.
        rewrite (Zdigits2_unique m'' 53) by (simpl Z.sub; lia).
        rewrite fexp_eq. lia.
      + (* subnormal *)
        left. assert (He1 : e1 = -1074) by (unfold e1; rewrite fexp_eq; lia).
        assert (m' < 2 ^ 52).
        { destruct (Z_lt_le_dec m' (2 ^ 52)); [assumption|exfalso].
          assert (Hlt : 2 ^ 52 * 2 ^ (e1 - e) < 2 ^ d) by nia.
          rewrite <- Z.pow_add_r in Hlt by lia.
          apply Z.pow_lt_mono_r_iff in Hlt; lia. }
        split; [lia|]. intro Hpos.
        assert (Zdigits2 m'' <= 53).
        { destruct m'' as [|q|q]; try lia. cbn [Zdigits2].
          apply digits2_pos_bound; lia. }
        assert (0 < Zdigits2 m'') by (destruct m'' as [|q|q]; simpl; lia).
        rewrite fexp_eq. lia. }
  destruct Hcases as [[Hm'' Hf]|Hcarry].
  - rewrite second_round_same; [|exact Hm''|lia|exact Hf].
    destruct m'' as [|p|p] eqn:Em; [now left| |now left].
    right. exists p, e1. split; [reflexivity|]. split; [apply Hf; lia|].
    split; [lia|]. rewrite Z.sub_diag. simpl Z.pow. lia.
  - rewrite Hcarry. unfold shr_fexp.
    change (Zdigits2 (2 ^ 53)) with 54.
    replace (fexp F64.prec F64.emax (54 + e1) - e1) with 1
      by (rewrite fexp_eq; unfold e1; rewrite fexp_eq; lia).
    cbn. replace (e1 + 1 <=? 971) with true by (symmetry; apply Z.leb_le; lia).
    right. exists 4503599627370496%positive, (e1 + 1). split; [reflexivity|].
    split; [change (Zpos (digits2_pos 4503599627370496)) with 53; rewrite fexp_eq; unfold e1;
            rewrite fexp_eq; lia|].
    split; [lia|]. replace (e1 + 1 - e1) with 1 by lia.
    change (Zpos 4503599627370496 * 2 ^ 1) with (2 ^ 53). lia.
Qed.


Lemma pow2_pos (n : Z) : 0 <= n -> 0 < 2 ^ n.
Proof. intro H. apply Z.pow_pos_nonneg; lia. Qed.

Lemma pow2_split (a b : Z) : 0 <= a -> 0 <= b -> 2 ^ (a + b) = 2 ^ a * 2 ^ b.
Proof. intros. now apply Z.pow_add_r. Qed.

Lemma Zdigits2_shift (m s : Z) :
  0 < m -> 0 <= s -> Zdigits2 (m * 2 ^ s) = Zdigits2 m + s.
Proof.
  intros Hm Hs. pose proof (pow2_pos s Hs) as Hp.
  apply Zdigits2_unique; [|nia].
  destruct m as [|p|p]; try lia. cbn [Zdigits2].
  pose proof (digits2_bounds p) as [B1 B2].
  replace (Zpos (digits2_pos p) + s - 1) with (Zpos (digits2_pos p) - 1 + s) by lia.
  rewrite !pow2_split by lia. split; nia.
Qed.

Lemma Zdigits2_le_bound (m c n : Z) :
  0 < m -> 0 <= n -> 0 < c < 2 ^ 52 -> m <= c * 2 ^ n -> Zdigits2 m <= n + 52.
Proof.
  intros Hm Hn Hc Hle. destruct m as [|p|p]; try lia. cbn [Zdigits2].
  apply digits2_pos_bound; [lia|].
  rewrite pow2_split by lia. pose proof (pow2_pos n Hn). nia.
Qed.

(** Rounding a positive mantissa given exactly. *)
Lemma round_aux_below (mx e c k : Z) :
  0 < mx ->
  e <= fexp F64.prec F64.emax (Zdigits2 mx + e) ->
  e <= k -> -1074 <= k <= 900 -> 0 < c < 2 ^ 52 ->
  mx <= c * 2 ^ (k - e) ->
  below c k (binary_round_aux F64.prec F64.emax false mx e loc_Exact).
Proof.
  intros Hmx Hn Hek Hk Hc Hle.
  pose proof (Zdigits2_le_bound mx c (k - e) Hmx ltac:(lia) Hc Hle) as Hd.
  set (e1 := fexp F64.prec F64.emax (Zdigits2 mx + e)) in *.
  assert (He1 : e1 <= k) by (unfold e1; rewrite fexp_eq; lia).
  assert (HK : mx + inexact loc_Exact <= c * 2 ^ (k - e1) * 2 ^ (e1 - e)).
  { cbn [inexact]. rewrite <- Z.mul_assoc, <- pow2_split by lia.
    replace (k - e1 + (e1 - e)) with (k - e) by lia. lia. }
  destruct (round_aux_core mx e (c * 2 ^ (k - e1)) loc_Exact ltac:(lia) Hn ltac:(fold e1; lia) HK)
    as [Hz|(m & e2 & Hr & Hcan & He2 & Hm)]; [now left|].
  fold e1 in He2, Hm. right. exists m, e2. split; [exact Hr|]. split; [exact Hcan|].
  assert (He2k : e2 <= k).
  { destruct (Z_le_gt_dec e2 k); [assumption|exfalso].
    rewrite fexp_eq in Hcan.
    assert (Hd53 : Zpos (digits2_pos m) = 53) by lia.
    pose proof (digits2_bounds m) as [B1 _]. rewrite Hd53 in B1. simpl Z.sub in B1.
    assert (2 ^ (k - e1) < 2 ^ (e2 - e1)) by (apply Z.pow_lt_mono_r; lia).
    pose proof (pow2_pos (k - e1) ltac:(lia)).
    assert (Zpos m * 2 ^ (e2 - e1) < 2 ^ 52 * 2 ^ (e2 - e1)) by nia.
    pose proof (pow2_pos (e2 - e1) ltac:(lia)). nia. }
  split; [exact He2k|].
  replace (k - e1) with (k - e2 + (e2 - e1)) in Hm by lia.
  rewrite pow2_split in Hm by lia.
  pose proof (pow2_pos (e2 - e1) ltac:(lia)). nia.
Qed.

Lemma shl_align_spec (m : positive) (e e' : Z) :
  snd (shl_align m e e') = Z.min e e'
  /\ Zpos (fst (shl_align m e e')) = Zpos m * 2 ^ (e - Z.min e e').
Proof.
  unfold shl_align. destruct (e' - e) as [|d|d] eqn:E; cbn [fst snd].
  - split; [lia|]. replace (e - Z.min e e') with 0 by lia. simpl. lia.
  - split; [lia|]. replace (e - Z.min e e') with 0 by lia. simpl. lia.
  - split; [lia|]. replace (e - Z.min e e') with (Zpos d) by lia.
    clear E. induction d as [|d IH] using Pos.peano_ind.
    + simpl. lia.
    + rewrite Pos.iter_succ, Pos2Z.inj_succ, Z.pow_succ_r by lia.
      rewrite Pos2Z.inj_xO, IH. lia.
Qed.

(** [binary_normalize] on a mantissa that is not negative. *)
Lemma normalize_below (M ez c k : Z) :
  0 <= M -> ez <= k -> -1074 <= k <= 900 -> 0 < c < 2 ^ 52 ->
  M <= c * 2 ^ (k - ez) ->
  below c k (binary_normalize F64.prec F64.emax M ez false).
Proof.
  intros HM Hek Hk Hc Hle. destruct M as [|p|p]; [now left| |lia].
  cbn [binary_normalize]. unfold binary_round.
  set (f := fexp F64.prec F64.emax (Zpos (digits2_pos p) + ez)).
  destruct (shl_align_spec p ez f) as [Hs Hf].
  destruct (shl_align p ez f) as [mz ez'] eqn:E. cbn [fst snd] in Hs, Hf. subst ez'.
  assert (Hdig : Zdigits2 (Zpos mz) = Zpos (digits2_pos p) + (ez - Z.min ez f)).
  { rewrite Hf. apply (Zdigits2_shift (Zpos p)); lia. }
  apply round_aux_below; try assumption; try lia.
  - rewrite Hdig. replace (Zpos (digits2_pos p) + (ez - Z.min ez f) + Z.min ez f)
      with (Zpos (digits2_pos p) + ez) by lia. fold f. lia.
  - rewrite Hf. replace (k - Z.min ez f) with (k - ez + (ez - Z.min ez f)) by lia.
    rewrite pow2_split by lia. pose proof (pow2_pos (ez - Z.min ez f) ltac:(lia)). nia.
Qed.

Lemma below_weaken (c c' k : Z) (x : spec_float) :
  c <= c' -> below c k x -> below c' k x.
Proof.
  intros Hc [Hz|(m & e & -> & Hcan & He & Hm)]; [now left|right].
  exists m, e. repeat split; try assumption.
  pose proof (pow2_pos (k - e) ltac:(lia)). nia.
Qed.

Lemma add_below (c1 c2 k : Z) (x y : spec_float) :
  -1074 <= k <= 900 -> 0 < c1 -> 0 < c2 -> c1 + c2 < 2 ^ 52 ->
  below c1 k x -> below c2 k y -> below (c1 + c2) k (F64.add x y).
Proof.
  intros Hk H1 H2 Hc Hx Hy.
  destruct Hx as [->|(m1 & e1 & -> & Hcan1 & He1 & Hm1)];
    destruct Hy as [->|(m2 & e2 & -> & Hcan2 & He2 & Hm2)].
  - now left.
  - apply (below_weaken c2); [lia|]. right. now exists m2, e2.
  - apply (below_weaken c1); [lia|]. right. now exists m1, e1.
  - unfold F64.add, SFadd. cbn [cond_Zopp].
    destruct (shl_align_spec m1 e1 (Z.min e1 e2)) as [_ Ha1].
    destruct (shl_align_spec m2 e2 (Z.min e1 e2)) as [_ Ha2].
    rewrite Ha1, Ha2.
    replace (Z.min e1 (Z.min e1 e2)) with (Z.min e1 e2) by lia.
    replace (Z.min e2 (Z.min e1 e2)) with (Z.min e1 e2) by lia.
    assert (Hez : Z.min e1 e2 <= e1 /\ Z.min e1 e2 <= e2) by lia.
    generalize dependent (Z.min e1 e2). intros ez _ _ Hez.
    destruct Hez as [Hez1 Hez2].
    assert (P1 : 0 < 2 ^ (e1 - ez)) by (apply pow2_pos; lia).
    assert (P2 : 0 < 2 ^ (e2 - ez)) by (apply pow2_pos; lia).
    assert (E1 : 2 ^ (k - ez) = 2 ^ (k - e1) * 2 ^ (e1 - ez))
      by (rewrite <- pow2_split by lia; f_equal; lia).
    assert (E2 : 2 ^ (k - ez) = 2 ^ (k - e2) * 2 ^ (e2 - ez))
      by (rewrite <- pow2_split by lia; f_equal; lia).
    apply normalize_below; try lia.
    rewrite Z.mul_add_distr_r. rewrite E1 at 1. rewrite E2.
    apply Z.add_le_mono.
    + rewrite Z.mul_assoc. apply Z.mul_le_mono_nonneg_r; lia.
    + rewrite Z.mul_assoc. apply Z.mul_le_mono_nonneg_r; lia.
Qed.

Lemma mul_below (c k ew : Z) (pw : positive) (x : spec_float) :
  -1074 <= k <= 900 -> 0 < c < 2 ^ 52 ->
  digits2_pos pw = 53%positive -> ew <= k -> Zpos pw <= c * 2 ^ (k - ew) ->
  below 1 0 x ->
  below c k (F64.mul x (S754_finite false pw ew)).
Proof.
  intros Hk Hc Hd Hew Hw [->|(m & e & -> & Hcan & He & Hm)]; [now left|].
  unfold F64.mul, SFmul. cbn [xorb].
  pose proof (digits2_bounds pw) as [Bw _]. rewrite Hd in Bw. simpl Z.sub in Bw.
  assert (P : 0 < 2 ^ (0 - e)) by (apply pow2_pos; lia).
  assert (Pw : 0 < 2 ^ (k - ew)) by (apply pow2_pos; lia).
  apply round_aux_below; try assumption; try lia.
  - assert (53 <= Zdigits2 (Zpos (m * pw))).
    { cbn [Zdigits2]. pose proof (digits2_bounds (m * pw)) as [_ B2].
      destruct (Z_le_gt_dec 53 (Zpos (digits2_pos (m * pw)))); [assumption|exfalso].
      assert (2 ^ Zpos (digits2_pos (m * pw)) <= 2 ^ 52) by (apply Z.pow_le_mono_r; lia).
      rewrite Pos2Z.inj_mul in B2. nia. }
    rewrite fexp_eq. lia.
  - replace (k - (e + ew)) with (0 - e + (k - ew)) by lia.
    rewrite pow2_split by lia. rewrite Pos2Z.inj_mul.
    rewrite Z.mul_1_l in Hm.
    transitivity (2 ^ (0 - e) * (c * 2 ^ (k - ew))); [|lia].
    apply Z.mul_le_mono_nonneg; lia.
Qed.

Lemma one_below : below 1 0 F64.one.
Proof.
  right. exists 4503599627370496%positive, (-52). repeat split; try reflexivity; try lia.
Qed.

Lemma sub_one_below (x : spec_float) : below 1 0 x -> below 1 0 (F64.sub F64.one x).
Proof.
  intros [->|(m & e & -> & Hcan & He & Hm)]; [exact one_below|].
  unfold F64.sub, F64.one, SFsub. cbn [cond_Zopp].
  destruct (shl_align_spec 4503599627370496 (-52) (Z.min (-52) e)) as [_ Ha1].
  destruct (shl_align_spec m e (Z.min (-52) e)) as [_ Ha2].
  rewrite Ha1, Ha2.
  replace (Z.min (-52) (Z.min (-52) e)) with (Z.min (-52) e) by lia.
  replace (Z.min e (Z.min (-52) e)) with (Z.min (-52) e) by lia.
  assert (Hez : Z.min (-52) e <= -52 /\ Z.min (-52) e <= e) by lia.
  generalize dependent (Z.min (-52) e). intros ez _ _ [Hez1 Hez2].
  assert (P1 : 0 < 2 ^ (-52 - ez)) by (apply pow2_pos; lia).
  assert (P2 : 0 < 2 ^ (e - ez)) by (apply pow2_pos; lia).
  assert (E1 : 2 ^ (0 - ez) = 2 ^ 52 * 2 ^ (-52 - ez))
    by (rewrite <- pow2_split by lia; f_equal; lia).
  assert (E2 : 2 ^ (0 - ez) = 2 ^ (0 - e) * 2 ^ (e - ez))
    by (rewrite <- pow2_split by lia; f_equal; lia).
  change (Zpos 4503599627370496) with (2 ^ 52). rewrite <- E1.
  rewrite Z.mul_1_l in Hm.
  assert (Hle : Zpos m * 2 ^ (e - ez) <= 2 ^ (0 - ez)).
  { rewrite E2. apply Z.mul_le_mono_nonneg_r; lia. }
  apply normalize_below; lia.
Qed.

Lemma inexact_new_location (m r : Z) :
  inexact (new_location m r) = if r =? 0 then 0 else 1.
Proof.
  unfold new_location, new_location_even, new_location_odd.
  destruct (Z.even m); destruct (r =? 0); reflexivity.
Qed.

(** The quotient of two normal floats, the first not above the second. *)
Lemma div_below_one (a b : Z) (m1 m2 : positive) (e1 e2 : Z) :
  represents a m1 e1 -> represents b m2 e2 -> a <= b ->
  below 1 0 (F64.div (S754_finite false m1 e1) (S754_finite false m2 e2)).
Proof.
  intros (Hd1 & He1 & Hv1) (Hd2 & He2 & Hv2) Hab.
  pose proof (digits2_bounds m1) as [B1 B1']. rewrite Hd1 in B1, B1'. simpl Z.sub in B1.
  pose proof (digits2_bounds m2) as [B2 B2']. rewrite Hd2 in B2, B2'. simpl Z.sub in B2.
  assert (Pa : 0 < 2 ^ (- e1)) by (apply pow2_pos; lia).
  assert (Pb : 0 < 2 ^ (- e2)) by (apply pow2_pos; lia).
  assert (Hee : e1 <= e2).
  { destruct (Z_le_gt_dec e1 e2); [assumption|exfalso].
    assert (E : 2 ^ (- e2) = 2 ^ (- e1) * 2 ^ (e1 - e2))
      by (rewrite <- pow2_split by lia; f_equal; lia).
    assert (2 <= 2 ^ (e1 - e2)).
    { change 2 with (2 ^ 1) at 1. apply Z.pow_le_mono_r; lia. }
    assert (0 < a) by nia.
    assert (Zpos m2 >= 2 * (a * 2 ^ (- e1))).
    { rewrite Hv2, E. nia. }
    lia. }
  assert (Hmm : Zpos m1 * 2 ^ 53 <= Zpos m2 * 2 ^ (53 + (e2 - e1))).
  { rewrite pow2_split by lia.
    assert (E : 2 ^ (- e1) = 2 ^ (- e2) * 2 ^ (e2 - e1))
      by (rewrite <- pow2_split by lia; f_equal; lia).
    assert (Zpos m1 <= Zpos m2 * 2 ^ (e2 - e1)).
    { rewrite Hv1, Hv2, E. pose proof (pow2_pos (e2 - e1) ltac:(lia)). nia. }
    nia. }
  unfold F64.div, SFdiv, SFdiv_core_binary. cbn [xorb Zdigits2]. rewrite Hd1, Hd2.
  replace (Z.min (fexp F64.prec F64.emax (53 + e1 - (53 + e2))) (e1 - e2))
    with (e1 - e2 - 53) by (rewrite fexp_eq; lia).
  replace (e1 - e2 - (e1 - e2 - 53)) with 53 by lia.
  cbv iota. rewrite Z.shiftl_mul_pow2 by lia.
  pose proof (Z.div_eucl_eq (Zpos m1 * 2 ^ 53) (Zpos m2) ltac:(lia)) as Heq.
  pose proof (Z.mod_pos_bound (Zpos m1 * 2 ^ 53) (Zpos m2) ltac:(lia)) as Hr.
  unfold Z.modulo in Hr.
  destruct (Z.div_eucl (Zpos m1 * 2 ^ 53) (Zpos m2)) as [q r].
  set (e' := e1 - e2 - 53).
  assert (Pe : 0 < 2 ^ (- e')) by (apply pow2_pos; unfold e'; lia).
  replace (53 + (e2 - e1)) with (- e') in Hmm by (unfold e'; lia).
  assert (Hq1 : 2 ^ 52 <= q) by nia.
  assert (Hq2 : q + (if r =? 0 then 0 else 1) <= 2 ^ (- e')).
  { destruct (r =? 0) eqn:Er.
    - apply Z.eqb_eq in Er. nia.
    - apply Z.eqb_neq in Er. nia. }
  assert (Hdq : 53 <= Zdigits2 q <= - e' + 1).
  { destruct q as [|pq|pq]; try lia. cbn [Zdigits2].
    pose proof (digits2_bounds pq) as [Bq Bq']. split.
    - destruct (Z_le_gt_dec 53 (Zpos (digits2_pos pq))); [assumption|exfalso].
      assert (2 ^ Zpos (digits2_pos pq) <= 2 ^ 52) by (apply Z.pow_le_mono_r; lia). lia.
    - destruct (Z_le_gt_dec (Zpos (digits2_pos pq)) (- e' + 1)); [assumption|exfalso].
      assert (2 ^ (- e' + 1) <= 2 ^ (Zpos (digits2_pos pq) - 1))
        by (apply Z.pow_le_mono_r; lia).
      rewrite pow2_split in H by lia. simpl (2 ^ 1) in H.
      destruct (r =? 0); lia. }
  set (e1r := fexp F64.prec F64.emax (Zdigits2 q + e')).
  assert (He1r : e' <= e1r <= 0) by (unfold e1r; rewrite fexp_eq; unfold e' in *; lia).
  assert (HK : q + inexact (new_location (Zpos m2) r) <= 2 ^ (0 - e1r) * 2 ^ (e1r - e')).
  { rewrite inexact_new_location, <- pow2_split by lia.
    replace (0 - e1r + (e1r - e')) with (- e') by lia. exact Hq2. }
  destruct (round_aux_core q e' (2 ^ (0 - e1r)) (new_location (Zpos m2) r)
              ltac:(lia) ltac:(fold e1r; lia) ltac:(fold e1r; lia) HK)
    as [Hz|(m & e2' & Hres & Hcan & He2' & Hm)]; [now left|].
  fold e1r in He2', Hm. right. exists m, e2'. split; [exact Hres|]. split; [exact Hcan|].
  assert (P3 : 0 < 2 ^ (e2' - e1r)) by (apply pow2_pos; lia).
  assert (He2k : e2' <= 0).
  { destruct (Z_le_gt_dec e2' 0); [assumption|exfalso].
    assert (2 ^ (0 - e1r) < 2 ^ (e2' - e1r)) by (apply Z.pow_lt_mono_r; lia).
    nia. }
  split; [exact He2k|]. rewrite Z.mul_1_l.
  replace (0 - e1r) with (0 - e2' + (e2' - e1r)) in Hm by lia.
  rewrite pow2_split in Hm by lia. nia.
Qed.

Lemma below_not_reached (x : spec_float) : below 3 (-2) x -> F64.geb x F64.one = false.
Proof.
  intros [->|(m & e & -> & Hcan & He & Hm)]; [reflexivity|].
  unfold F64.geb, F64.leb, SFleb, F64.one, SFcompare.
  destruct (Z.compare (-52) e) eqn:Ec; [| |reflexivity]; exfalso.
  - apply Z.compare_eq in Ec. subst e. rewrite fexp_eq in Hcan.
    assert (Hd : Zpos (digits2_pos m) = 53) by lia.
    pose proof (digits2_bounds m) as [B _]. rewrite Hd in B.
    simpl in B, Hm. lia.
  - rewrite Z.compare_lt_iff in Ec. rewrite fexp_eq in Hcan.
    assert (Hd : Zpos (digits2_pos m) = 53) by lia.
    pose proof (digits2_bounds m) as [B _]. rewrite Hd in B. simpl Z.sub in B.
    assert (2 ^ (-2 - e) <= 2 ^ 49) by (apply Z.pow_le_mono_r; lia).
    simpl (2 ^ 49) in *. simpl (2 ^ 52) in *. lia.
Qed.

Lemma mantissa_of_value (p : positive) :
  Zpos (digits2_pos p) <= 53 ->
  Zpos (mantissa_of p) = Zpos p * 2 ^ (53 - Zpos (digits2_pos p)).
Proof.
  intro H. unfold mantissa_of.
  destruct (shl_align_spec p 0 (Zpos (digits2_pos p) - 53)) as [_ Hv].
  rewrite Hv. f_equal. f_equal. lia.
Qed.

Lemma of_int_represents (p : positive) :
  Zpos p < 2 ^ 53 ->
  exists m e, F64.of_int (Zpos p) = S754_finite false m e /\ represents (Zpos p) m e.
Proof.
  intro H. assert (Hd : Zpos (digits2_pos p) <= 53) by (apply digits2_pos_bound; [lia|exact H]).
  exists (mantissa_of p), (Zpos (digits2_pos p) - 53).
  split; [now apply of_int_pos|]. split; [now apply mantissa_of_digits|].
  split; [lia|]. rewrite mantissa_of_value by exact Hd. f_equal. f_equal. lia.
Qed.

Lemma truediv_below_one (a b : Z) :
  0 <= a <= b -> 0 < b < 2 ^ 53 -> below 1 0 (F64.truediv a b).
Proof.
  intros [Ha Hab] [Hb Hb']. unfold F64.truediv.
  destruct b as [|pb|pb]; try lia.
  destruct (of_int_represents pb Hb') as (m2 & e2 & -> & R2).
  destruct a as [|pa|pa]; [now left| |lia].
  destruct (of_int_represents pa ltac:(lia)) as (m1 & e1 & -> & R1).
  now apply (div_below_one (Zpos pa) (Zpos pb)).
Qed.

Lemma calculate_ratio_below_one (matches length : Z) :
  0 <= matches -> 2 * matches <= length -> length < 2 ^ 53 ->
  below 1 0 (Difflib.calculate_ratio matches length).
Proof.
  intros Hm Hl Hlt. unfold Difflib.calculate_ratio.
  destruct (length =? 0) eqn:E; [exact one_below|]. apply Z.eqb_neq in E.
  destruct length as [|pl|pl]; try lia.
  destruct (of_int_represents pl Hlt) as (m2 & e2 & -> & R2).
  destruct matches as [|pm|pm]; [now left| |lia].
  destruct (of_int_represents pm ltac:(lia)) as (m1 & e1 & -> & (D1 & He1 & V1)).
  assert (He1' : e1 <= -1).
  { destruct (Z.eq_dec e1 0) as [->|]; [|lia]. simpl in V1.
    pose proof (digits2_bounds m1) as [B _]. rewrite D1 in B. simpl in B. lia. }
  rewrite mul_two by (try assumption; lia).
  apply (div_below_one (2 * Zpos pm) (Zpos pl)); [|exact R2|lia].
  split; [exact D1|]. split; [lia|].
  rewrite V1. replace (- e1) with (- (e1 + 1) + 1) by lia.
  rewrite pow2_split by lia. simpl (2 ^ 1). lia.
Qed.

(** ** [SequenceMatcher] on a text compared with itself *)


Lemma range_nil (lo hi : Z) : hi <= lo -> range lo hi = [].
Proof. intro H. unfold range. now replace (Z.to_nat (hi - lo)) with O by lia. Qed.

Lemma range_cons (lo hi : Z) : lo < hi -> range lo hi = lo :: range (lo + 1) hi.
Proof.
  intro H. unfold range.
  replace (Z.to_nat (hi - lo)) with (S (Z.to_nat (hi - (lo + 1)))) by lia.
  cbn [seq map]. f_equal; [lia|].
  rewrite <- seq_shift, map_map. apply map_ext. intro n. lia.
Qed.

Lemma fold_range_invariant {S : Type} (P : Z -> S -> Prop) (f : S -> Z -> S) (hi : Z) :
  (forall i st, i < hi -> P i st -> P (i + 1) (f st i)) ->
  forall (n : nat) (lo : Z) (st : S),
    Z.of_nat n = hi - lo -> P lo st -> P hi (fold_left f (range lo hi) st).
Proof.
  intros Hstep. induction n as [|n IH]; intros lo st Hn H.
  - rewrite range_nil by lia. simpl. now replace hi with lo by lia.
  - rewrite range_cons by lia. simpl. apply IH; [lia|]. apply Hstep; [lia|exact H].
Qed.

Lemma run_nonneg (b : text) (n : nat) : 0 <= run b n <= Z.of_nat n + 1.
Proof.
  induction n as [|n IH]; cbn [run].
  - destruct (popular b _); lia.
  - destruct (popular b _); lia.
Qed.

Lemma run_at_bounds (b : text) (i : Z) : 0 <= run_at b i /\ (-1 <= i -> run_at b i <= i + 1).
Proof.
  unfold run_at. destruct (i <? 0) eqn:E.
  - lia.
  - apply Z.ltb_ge in E. pose proof (run_nonneg b (Z.to_nat i)). lia.
Qed.

Lemma run_at_step (b : text) (i : Z) :
  0 <= i ->
  run_at b i = if popular b (item b i) then 0 else run_at b (i - 1) + 1.
Proof.
  intro Hi. unfold run_at.
  replace (i <? 0) with false by (symmetry; apply Z.ltb_ge; lia).
  destruct (Z.to_nat i) as [|n] eqn:E; cbn [run].
  - replace (Z.of_nat 0) with i by lia.
    replace (i - 1 <? 0) with true by (symmetry; apply Z.ltb_lt; lia). reflexivity.
  - replace (Z.of_nat (S n)) with i by lia.
    replace (i - 1 <? 0) with false by (symmetry; apply Z.ltb_ge; lia).
    now replace (Z.to_nat (i - 1)) with n by lia.
Qed.

Lemma scan_row_in_range (j2len : dict) (i blo bhi : Z) (js : list Z) :
  (forall j, In j js -> blo <= j < bhi) ->
  forall (newj2len : dict) (best : Match),
    scan_row j2len i blo bhi js newj2len best
    = fold_left (row_step j2len i) js (newj2len, best).
Proof.
  induction js as [|j js IH]; intros Hr newj2len best; [reflexivity|].
  cbn [scan_row fold_left].
  destruct (Hr j (or_introl eq_refl)) as [H1 H2].
  replace (j <? blo) with false by (symmetry; apply Z.ltb_ge; lia).
  replace (bhi <=? j) with false by (symmetry; apply Z.leb_gt; lia).
  rewrite IH by (intros j' Hj'; apply Hr; now right). reflexivity.
Qed.

Lemma fold_row_dict (j2len : dict) (i : Z) (js : list Z) :
  forall (st : dict * Match) (j' : Z),
    dict_get (fst (fold_left (row_step j2len i) js st)) j' 0
    = if existsb (Z.eqb j') js then dict_get j2len (j' - 1) 0 + 1
      else dict_get (fst st) j' 0.
Proof.
  induction js as [|j js IH]; intros st j'; [reflexivity|].
  cbn [fold_left existsb]. rewrite IH.
  destruct (existsb (Z.eqb j') js) eqn:E.
  - now rewrite orb_true_r.
  - rewrite orb_false_r. unfold row_step, dict_set. cbn [fst dict_get].
    rewrite (Z.eqb_sym j j'). destruct (j' =? j) eqn:Ej; [|reflexivity].
    apply Z.eqb_eq in Ej. now subst.
Qed.

Lemma fold_row_keeps_best (j2len : dict) (i : Z) (js : list Z) :
  forall (st : dict * Match),
    (forall j, In j js -> dict_get j2len (j - 1) 0 + 1 <= m_size (snd st)) ->
    snd (fold_left (row_step j2len i) js st) = snd st.
Proof.
  induction js as [|j js IH]; intros st H; [reflexivity|].
  cbn [fold_left].
  assert (Hs : snd (row_step j2len i st j) = snd st).
  { unfold row_step. cbn [snd].
    replace (m_size (snd st) <? dict_get j2len (j - 1) 0 + 1) with false; [reflexivity|].
    symmetry. apply Z.ltb_ge. apply H. now left. }
  rewrite IH; [exact Hs|].
  intros j' Hj'. rewrite Hs. apply H. now right.
Qed.

Lemma item_cons (c : ascii) (b : text) (i : Z) :
  0 < i -> item (c :: b) i = item b (i - 1).
Proof.
  intro H. unfold item.
  now replace (Z.to_nat i) with (S (Z.to_nat (i - 1))) by lia.
Qed.

Lemma in_indices_from (b : text) :
  forall (i0 : Z) (c : ascii) (j : Z),
    In j (indices_from i0 c b) ->
    i0 <= j < i0 + len b /\ item b (j - i0) = c.
Proof.
  induction b as [|c0 b IH]; intros i0 c j; cbn [indices_from]; [intros []|].
  assert (Hlen : len (c0 :: b) = len b + 1) by (unfold len; cbn [List.length]; lia).
  assert (Hrec : In j (indices_from (i0 + 1) c b) ->
                 i0 <= j < i0 + len (c0 :: b) /\ item (c0 :: b) (j - i0) = c).
  { intro H. apply IH in H as [H1 H2]. split; [lia|].
    rewrite item_cons by lia. now replace (j - i0 - 1) with (j - (i0 + 1)) by lia. }
  destruct (char_eqb c0 c) eqn:E; [|exact Hrec].
  intros [<-|H]; [|now apply Hrec].
  split; [unfold len in *; lia|].
  replace (i0 - i0) with 0 by lia. apply Ascii.eqb_eq in E. exact E.
Qed.

Lemma indices_from_split (b : text) :
  forall (i0 i : Z),
    i0 <= i < i0 + len b ->
    exists js1 js2,
      indices_from i0 (item b (i - i0)) b = js1 ++ i :: js2
      /\ (forall j, In j js1 -> j < i)
      /\ (forall j, In j js2 -> i < j).
Proof.
  induction b as [|c0 b IH]; intros i0 i Hi.
  - unfold len in Hi. simpl in Hi. lia.
  - assert (Hlen : len (c0 :: b) = len b + 1) by (unfold len; cbn [List.length]; lia).
    destruct (Z.eq_dec i i0) as [->|Hne].
    + replace (i0 - i0) with 0 by lia. change (item (c0 :: b) 0) with c0.
      cbn [indices_from]. unfold char_eqb. rewrite Ascii.eqb_refl.
      exists [], (indices_from (i0 + 1) c0 b). repeat split; [intros j []|].
      intros j Hj. apply in_indices_from in Hj. lia.
    + rewrite item_cons by lia.
      replace (i - i0 - 1) with (i - (i0 + 1)) by lia.
      destruct (IH (i0 + 1) i ltac:(lia)) as (js1 & js2 & Heq & H1 & H2).
      cbn [indices_from]. rewrite Heq.
      destruct (char_eqb c0 (item b (i - (i0 + 1)))).
      * exists (i0 :: js1), js2. repeat split; [|exact H2].
        intros j [<-|Hj]; [lia|now apply H1].
      * exists js1, js2. now repeat split.
Qed.

Lemma existsb_eqb_in (j : Z) (js : list Z) : existsb (Z.eqb j) js = true <-> In j js.
Proof.
  rewrite existsb_exists. split.
  - intros (x & Hx & E). apply Z.eqb_eq in E. now subst.
  - intro H. exists j. split; [exact H|apply Z.eqb_refl].
Qed.

(** One turn of the outer loop on a text compared with itself. *)
Lemma diagonal_row (s : text) (i : Z) (st : dict * Match) :
  0 <= i < len s ->
  diagonal_invariant s i st ->
  diagonal_invariant s (i + 1)
    (scan_row (fst st) i 0 (len s) (b2j s (item s i)) [] (snd st)).
Proof.
  intros Hi (I2 & I5 & I4 & I3 & Ia & Ib & Ic & Id).
  pose proof (run_at_step s i (proj1 Hi)) as Hrun.
  unfold diagonal_invariant. replace (i + 1 - 1) with i by lia.
  unfold b2j in *. destruct (popular s (item s i)) eqn:Hpop.
  - cbn [scan_row fst snd dict_get]. rewrite Hrun.
    repeat split; try assumption; try lia.
    + intro j. apply run_at_bounds.
    + intros i' Hi'. destruct (Z.eq_dec i' i) as [->|]; [lia|apply I3; lia].
  - assert (Hin : forall j, In j (indices (item s i) s) ->
                            0 <= j < len s /\ item s j = item s i).
    { intros j Hj. apply in_indices_from in Hj as [H1 H2].
      split; [lia|]. now replace (j - 0) with j in H2 by lia. }
    rewrite scan_row_in_range by (intros j Hj; now apply Hin).
    match goal with
    | |- context [fold_left ?f ?l ?a] => set (res := fold_left f l a)
    end.
    assert (Hnew : forall j,
               dict_get (fst res) j 0
               = if existsb (Z.eqb j) (indices (item s i) s)
                 then dict_get (fst st) (j - 1) 0 + 1 else 0).
    { intro j. unfold res. now rewrite fold_row_dict. }
    assert (Hrunj : forall j, In j (indices (item s i) s) ->
                              run_at s j = run_at s (j - 1) + 1).
    { intros j Hj. destruct (Hin j Hj) as [Hj1 Hj2].
      rewrite (run_at_step s j) by lia. now rewrite Hj2, Hpop. }
    destruct (indices_from_split s 0 i ltac:(lia)) as (js1 & js2 & Heq & H1 & H2).
    replace (i - 0) with i in Heq by lia. fold (indices (item s i) s) in Heq.
    assert (Hbest : snd res
                    = if m_size (snd st) <? run_at s i
                      then mkMatch (i - run_at s i + 1) (i - run_at s i + 1) (run_at s i)
                      else snd st).
    { unfold res. rewrite Heq, fold_left_app. cbn [fold_left].
      set (st1 := fold_left (row_step (fst st) i) js1 ([], snd st)).
      assert (Hst1 : snd st1 = snd st).
      { unfold st1. rewrite fold_row_keeps_best; [reflexivity|].
        intros j Hj. cbn [snd].
        assert (Hj' : In j (indices (item s i) s)).
        { rewrite Heq. apply in_app_iff. now left. }
        specialize (H1 j Hj). destruct (Hin j Hj') as [Hj1 _].
        specialize (I2 (j - 1)). specialize (Hrunj j Hj').
        specialize (I3 j ltac:(lia)). lia. }
      assert (Hst2 : snd (row_step (fst st) i st1 i)
                     = if m_size (snd st) <? run_at s i
                       then mkMatch (i - run_at s i + 1) (i - run_at s i + 1) (run_at s i)
                       else snd st).
      { unfold row_step. cbn [snd]. rewrite Hst1, I4, Hrun. reflexivity. }
      rewrite fold_row_keeps_best; [exact Hst2|].
      intros j Hj.
      match goal with
      | |- _ <= m_size ?t =>
          replace t with (if m_size (snd st) <? run_at s i
                          then mkMatch (i - run_at s i + 1) (i - run_at s i + 1)
                                       (run_at s i)
                          else snd st)
            by (symmetry; exact Hst2)
      end.
      specialize (I5 (j - 1)).
      destruct (m_size (snd st) <? run_at s i) eqn:E; cbn [m_size].
      - lia.
      - apply Z.ltb_ge in E. lia. }
    rewrite Hbest.
    pose proof (run_at_bounds s i) as [Hr0 Hr1]. specialize (Hr1 ltac:(lia)).
    repeat split.
    + intro j. rewrite Hnew. destruct (existsb _ _) eqn:E.
      * apply existsb_eqb_in in E. rewrite (Hrunj j E). specialize (I2 (j - 1)). lia.
      * apply run_at_bounds.
    + intro j. rewrite Hnew. destruct (existsb _ _) eqn:E.
      * specialize (I5 (j - 1)). lia.
      * lia.
    + rewrite Hnew.
      replace (existsb (Z.eqb i) (indices (item s i) s)) with true.
      * lia.
      * symmetry. apply existsb_eqb_in. rewrite Heq. apply in_app_iff. right. now left.
    + intros i' Hi'. destruct (m_size (snd st) <? run_at s i) eqn:E; cbn [m_size].
      * apply Z.ltb_lt in E. destruct (Z.eq_dec i' i) as [->|]; [lia|].
        specialize (I3 i' ltac:(lia)). lia.
      * apply Z.ltb_ge in E. destruct (Z.eq_dec i' i) as [->|]; [lia|].
        apply I3. lia.
    + destruct (m_size (snd st) <? run_at s i); [reflexivity|exact Ia].
    + destruct (m_size (snd st) <? run_at s i); cbn [m_a]; lia.
    + destruct (m_size (snd st) <? run_at s i); cbn [m_size]; lia.
    + destruct (m_size (snd st) <? run_at s i); cbn [m_a m_size]; lia.
Qed.

Lemma scan_rows_diagonal (s : text) :
  exists x k, scan_rows s s 0 (len s) 0 (len s) = mkMatch x x k
              /\ 0 <= x /\ 0 <= k /\ x + k <= len s.
Proof.
  unfold scan_rows.
  assert (H : diagonal_invariant s (len s)
                (fold_left
                   (fun (st : dict * Match) (i : Z) =>
                      scan_row (fst st) i 0 (len s) (b2j s (item s i)) [] (snd st))
                   (range 0 (len s)) ([], mkMatch 0 0 0))).
  { apply (fold_range_invariant (diagonal_invariant s) _ (len s)) with (n := List.length s).
    - intros i st Hi Hinv. apply diagonal_row; [|exact Hinv].
      destruct Hinv as (_ & _ & _ & _ & _ & H1 & H2 & H3). lia.
    - unfold len. lia.
    - unfold diagonal_invariant. cbn [fst snd dict_get m_a m_b m_size].
      repeat split; try lia.
      + intro j. apply run_at_bounds.
      + intro j. apply run_at_bounds. }
  destruct H as (_ & _ & _ & _ & Ha & Hb & Hc & Hd).
  destruct (snd _) as [x y k]. cbn [m_a m_b m_size] in *. subst y.
  now exists x, k.
Qed.


Lemma extend_left_diagonal (s : text) (fuel : nat) :
  forall (x k : Z),
    Z.of_nat fuel = x ->
    extend_left_loop fuel s s 0 0 false (mkMatch x x k) = mkMatch 0 0 (k + x).
Proof.
  induction fuel as [|fuel IH]; intros x k Hx; cbn [extend_left_loop m_a m_b m_size].
  - f_equal; lia.
  - replace (0 <? x) with true by (symmetry; apply Z.ltb_lt; lia).
    unfold isbjunk. rewrite char_eqb_refl. cbn [andb Bool.eqb].
    rewrite IH by lia. f_equal. lia.
Qed.

Lemma extend_right_diagonal (s : text) (fuel : nat) :
  forall (k : Z),
    Z.of_nat fuel = len s - k ->
    extend_right_loop fuel s s (len s) (len s) false (mkMatch 0 0 k) = mkMatch 0 0 (len s).
Proof.
  induction fuel as [|fuel IH]; intros k Hk; cbn [extend_right_loop m_a m_b m_size].
  - f_equal. lia.
  - replace (0 + k <? len s) with true by (symmetry; apply Z.ltb_lt; lia).
    unfold isbjunk. rewrite char_eqb_refl. cbn [andb Bool.eqb].
    apply IH. lia.
Qed.

(** The longest match of a text with itself is the whole text. *)
Lemma find_longest_match_same (s : text) :
  find_longest_match s s 0 (len s) 0 (len s) = mkMatch 0 0 (len s).
Proof.
  unfold find_longest_match.
  destruct (scan_rows_diagonal s) as (x & k & -> & Hx & Hk & Hxk).
  unfold extend_left at 2. cbn [m_a]. rewrite extend_left_diagonal by lia.
  unfold extend_right at 2. cbn [m_a m_size]. rewrite extend_right_diagonal by lia.
  unfold extend_left. cbn [m_a]. replace (Z.to_nat (0 - 0)) with O by lia.
  cbn [extend_left_loop].
  unfold extend_right. cbn [m_a m_size].
  replace (Z.to_nat (len s - (0 + len s))) with O by lia. reflexivity.
Qed.

Lemma sum_sizes_same (s : text) : sum_sizes (get_matching_blocks s s) = len s.
Proof.
  unfold get_matching_blocks.
  replace (2 * List.length s + 1)%nat with (S (2 * List.length s)) by lia.
  cbn [blocks_loop]. rewrite find_longest_match_same. cbn [m_a m_b m_size].
  destruct (len s =? 0) eqn:E.
  - apply Z.eqb_eq in E.
    assert (Hl : s = []) by (destruct s; [reflexivity|unfold len in E; simpl in E; lia]).
    subst s. reflexivity.
  - rewrite Z.ltb_irrefl. cbn [andb].
    replace (0 + len s <? len s) with false by (symmetry; apply Z.ltb_ge; lia).
    cbn [andb app].
    assert (Hloop : forall fuel x, snd (blocks_loop fuel s s [] [x]) = [x])
      by (intros [|fuel] x; reflexivity).
    rewrite Hloop. cbn [sort fold_right insert_sorted collapse m_a m_b m_size].
    change (0 + 0 =? 0) with true. cbn [andb collapse m_size].
    replace (0 + len s =? 0) with false by (symmetry; apply Z.eqb_neq; apply Z.eqb_neq in E; lia).
    cbn [app sum_sizes fold_left m_size]. lia.
Qed.

Lemma len_pos_cases (s : text) : len s = 0 \/ exists p, len s = Zpos p.
Proof. unfold len. destruct (List.length s); [now left|right]. simpl. now eexists. Qed.

Lemma ratio_same (s : text) : len s < 2 ^ 52 -> ratio s s = F64.one.
Proof.
  intro Hlt. unfold ratio. rewrite sum_sizes_same. unfold calculate_ratio.
  destruct (len_pos_cases s) as [->|(p & Hp)]; [reflexivity|].
  rewrite Hp in *.
  change (Zpos p + Zpos p) with (Zpos (p + p)). rewrite Pos.add_diag.
  cbn [Z.eqb].
  assert (Hd : Zpos (digits2_pos p) <= 52) by (apply digits2_pos_bound; [lia|exact Hlt]).
  rewrite (of_int_pos p) by lia.
  rewrite (of_int_pos p~0) by (cbn [digits2_pos]; lia).
  rewrite mul_two by (try apply mantissa_of_digits; lia).
  rewrite mantissa_of_double by exact Hd.
  replace (Zpos (digits2_pos p~0) - 53) with (Zpos (digits2_pos p) - 53 + 1)
    by (cbn [digits2_pos]; lia).
  apply div_same.
Qed.

Lemma truediv_same (k : Z) : 0 < k < 2 ^ 53 -> F64.truediv k k = F64.one.
Proof.
  intros [H0 H1]. destruct k as [|p|p]; try lia.
  unfold F64.truediv. rewrite of_int_pos by (apply digits2_pos_bound; [lia|exact H1]).
  apply div_same.
Qed.

Lemma sub_one_zero_over (k : Z) :
  0 < k < 2 ^ 53 -> F64.sub F64.one (F64.truediv 0 k) = F64.one.
Proof.
  intros [H0 H1]. destruct k as [|p|p]; try lia.
  unfold F64.truediv. rewrite of_int_pos by (apply digits2_pos_bound; [lia|exact H1]).
  reflexivity.
Qed.

Lemma levenshtein_same (s : text) : levenshtein_distance s s = 0.
Proof.
  assert (Hnn : forall s t, 0 <= levenshtein_distance s t).
  { clear s. induction s as [|a s IHs]; intro t.
    - rewrite levenshtein_nil_l. lia.
    - induction t as [|b t IHt].
      + rewrite levenshtein_nil_r. lia.
      + rewrite levenshtein_cons.
        specialize (IHs (b :: t)) as H1. specialize (IHs t) as H2.
        destruct (char_eqb a b); lia. }
  induction s as [|a s IH]; [reflexivity|].
  rewrite levenshtein_cons, IH, char_eqb_refl.
  pose proof (Hnn s (a :: s)). pose proof (Hnn (a :: s) s). lia.
Qed.

(** ** The blocks of [get_matching_blocks] *)


Lemma scan_row_ok (j2len : dict) (alo blo bhi i : Z) (js : list Z) :
  alo <= i -> dict_ok alo blo i j2len ->
  forall (newj2len : dict) (best : Match),
    dict_ok alo blo (i + 1) newj2len -> in_bounds alo (i + 1) blo bhi best ->
    dict_ok alo blo (i + 1) (fst (scan_row j2len i blo bhi js newj2len best))
    /\ in_bounds alo (i + 1) blo bhi (snd (scan_row j2len i blo bhi js newj2len best)).
Proof.
  intros Hi Hold. induction js as [|j js IH]; intros newj2len best Hnew Hbest;
    cbn [scan_row]; [now split|].
  destruct (j <? blo) eqn:E1; [now apply IH|]. apply Z.ltb_ge in E1.
  destruct (bhi <=? j) eqn:E2; [now split|]. apply Z.leb_gt in E2.
  destruct (Hold (j - 1)) as [[K1 K2] K3]. specialize (K3 ltac:(lia)).
  apply IH.
  - intro j'. unfold dict_set. cbn [dict_get].
    destruct (j =? j') eqn:Ej; [|apply Hnew].
    apply Z.eqb_eq in Ej. subst j'. lia.
  - destruct (m_size best <? dict_get j2len (j - 1) 0 + 1); [|exact Hbest].
    unfold in_bounds. cbn [m_a m_b m_size]. lia.
Qed.

Lemma scan_rows_ok (a b : text) (alo ahi blo bhi : Z) :
  alo <= ahi -> blo <= bhi ->
  in_bounds alo ahi blo bhi (scan_rows a b alo ahi blo bhi).
Proof.
  intros Ha Hb. unfold scan_rows.
  assert (H : alo <= ahi
              /\ dict_ok alo blo ahi
                   (fst (fold_left
                           (fun (st : dict * Match) (i : Z) =>
                              scan_row (fst st) i blo bhi (b2j b (item a i)) [] (snd st))
                           (range alo ahi) ([], mkMatch alo blo 0)))
              /\ in_bounds alo ahi blo bhi
                   (snd (fold_left
                           (fun (st : dict * Match) (i : Z) =>
                              scan_row (fst st) i blo bhi (b2j b (item a i)) [] (snd st))
                           (range alo ahi) ([], mkMatch alo blo 0)))).
  { apply (fold_range_invariant
             (fun i st => alo <= i /\ dict_ok alo blo i (fst st)
                          /\ in_bounds alo i blo bhi (snd st)) _ ahi)
      with (n := Z.to_nat (ahi - alo)).
    - intros i st Hi (H1 & H2 & H3). split; [lia|].
      apply scan_row_ok; try assumption.
      + intro j. cbn [dict_get]. lia.
      + unfold in_bounds in *. lia.
    - lia.
    - split; [lia|]. cbn [fst snd]. split.
      + intro j. cbn [dict_get]. lia.
      + unfold in_bounds. cbn [m_a m_b m_size]. lia. }
  apply H.
Qed.

Lemma extend_left_loop_ok (a b : text) (alo ahi blo bhi : Z) (junk : bool) (fuel : nat) :
  forall m, in_bounds alo ahi blo bhi m ->
            in_bounds alo ahi blo bhi (extend_left_loop fuel a b alo blo junk m).
Proof.
  induction fuel as [|fuel IH]; intros m Hm; cbn [extend_left_loop]; [exact Hm|].
  destruct ((alo <? m_a m) && (blo <? m_b m)) eqn:E; cbn [andb]; [|exact Hm].
  apply andb_true_iff in E as [E1 E2]. apply Z.ltb_lt in E1, E2.
  destruct (_ && _); [|exact Hm].
  apply IH. unfold in_bounds in *. cbn [m_a m_b m_size]. lia.
Qed.

Lemma extend_right_loop_ok (a b : text) (alo ahi blo bhi : Z) (junk : bool) (fuel : nat) :
  forall m, in_bounds alo ahi blo bhi m ->
            in_bounds alo ahi blo bhi (extend_right_loop fuel a b ahi bhi junk m).
Proof.
  induction fuel as [|fuel IH]; intros m Hm; cbn [extend_right_loop]; [exact Hm|].
  destruct ((m_a m + m_size m <? ahi) && (m_b m + m_size m <? bhi)) eqn:E;
    cbn [andb]; [|exact Hm].
  apply andb_true_iff in E as [E1 E2]. apply Z.ltb_lt in E1, E2.
  destruct (_ && _); [|exact Hm].
  apply IH. unfold in_bounds in *. cbn [m_a m_b m_size]. lia.
Qed.

(** The block found lies within the ranges searched. *)
Lemma find_longest_match_ok (a b : text) (alo ahi blo bhi : Z) :
  alo <= ahi -> blo <= bhi ->
  in_bounds alo ahi blo bhi (find_longest_match a b alo ahi blo bhi).
Proof.
  intros Ha Hb. unfold find_longest_match, extend_left, extend_right.
  apply extend_right_loop_ok with (alo := alo) (blo := blo).
  apply extend_left_loop_ok with (ahi := ahi) (bhi := bhi).
  apply extend_right_loop_ok with (alo := alo) (blo := blo).
  apply extend_left_loop_ok with (ahi := ahi) (bhi := bhi).
  now apply scan_rows_ok.
Qed.

Lemma sum_sizes_from (l : list Match) (acc : Z) :
  fold_left (fun acc x => acc + m_size x) l acc = acc + sum_sizes l.
Proof.
  unfold sum_sizes. revert acc. induction l as [|x l IH]; intro acc; cbn [fold_left]; [lia|].
  rewrite (IH (acc + m_size x)), (IH (0 + m_size x)). lia.
Qed.

Lemma sum_sizes_nil : sum_sizes [] = 0.
Proof. reflexivity. Qed.

Lemma sum_sizes_cons (x : Match) (l : list Match) :
  sum_sizes (x :: l) = m_size x + sum_sizes l.
Proof. unfold sum_sizes at 1. cbn [fold_left]. rewrite sum_sizes_from. lia. Qed.

Lemma sum_sizes_app (l1 l2 : list Match) :
  sum_sizes (l1 ++ l2) = sum_sizes l1 + sum_sizes l2.
Proof.
  induction l1 as [|x l1 IH]; cbn [app]; [reflexivity|].
  rewrite !sum_sizes_cons, IH. lia.
Qed.

Lemma sum_sizes_insert (x : Match) (l : list Match) :
  sum_sizes (insert_sorted x l) = m_size x + sum_sizes l.
Proof.
  induction l as [|y l IH]; cbn [insert_sorted]; [now rewrite sum_sizes_cons|].
  destruct (match_leb x y); rewrite !sum_sizes_cons; [reflexivity|].
  rewrite IH. lia.
Qed.

Lemma sum_sizes_sort (l : list Match) : sum_sizes (sort l) = sum_sizes l.
Proof.
  induction l as [|x l IH]; [reflexivity|].
  cbn [sort fold_right]. fold (sort l). rewrite sum_sizes_insert, sum_sizes_cons, IH. lia.
Qed.

Lemma sum_sizes_collapse (blocks : list Match) :
  forall cur non_adjacent,
    sum_sizes (collapse cur non_adjacent blocks)
    = sum_sizes non_adjacent + m_size cur + sum_sizes blocks.
Proof.
  assert (Hacc : forall cur acc,
             sum_sizes (if m_size cur =? 0 then acc else acc ++ [cur])
             = sum_sizes acc + m_size cur).
  { intros cur acc. destruct (m_size cur =? 0) eqn:E.
    - apply Z.eqb_eq in E. lia.
    - rewrite sum_sizes_app, sum_sizes_cons, sum_sizes_nil. lia. }
  induction blocks as [|x blocks IH]; intros cur acc; cbn [collapse].
  - rewrite Hacc, sum_sizes_nil. lia.
  - rewrite sum_sizes_cons. destruct (_ && _).
    + rewrite IH. cbn [m_size]. lia.
    + rewrite IH, Hacc. lia.
Qed.

Lemma blocks_loop_sum (a b : text) (fuel : nat) :
  forall (queue : list bounds) (blocks : list Match),
    Forall valid_bounds queue ->
    sum_sizes blocks
    <= sum_sizes (snd (blocks_loop fuel a b queue blocks))
    <= sum_sizes blocks + Z.min (queue_a queue) (queue_b queue)
    /\ 0 <= queue_a queue /\ 0 <= queue_b queue.
Proof.
  induction fuel as [|fuel IH]; intros queue blocks Hq.
  - cbn [blocks_loop snd].
    assert (0 <= queue_a queue /\ 0 <= queue_b queue).
    { induction Hq as [|[[[alo ahi] blo] bhi] q Hv _ IHq]; cbn [queue_a queue_b]; [lia|].
      cbn in Hv. lia. }
    lia.
  - destruct queue as [|[[[alo ahi] blo] bhi] queue]; cbn [blocks_loop snd queue_a queue_b];
      [lia|].
    apply Forall_cons_iff in Hq as [Hv Hq]. cbn in Hv. destruct Hv as [Ha Hb].
    pose proof (find_longest_match_ok a b alo ahi blo bhi Ha Hb) as (G1 & G2 & G3 & G4 & G5).
    set (x := find_longest_match a b alo ahi blo bhi) in *.
    destruct (m_size x =? 0) eqn:Ek.
    + destruct (IH queue blocks Hq) as (S1 & S2 & S3). lia.
    + apply Z.eqb_neq in Ek.
      set (q1 := if (alo <? m_a x) && (blo <? m_b x)
                 then (alo, m_a x, blo, m_b x) :: queue else queue).
      set (q2 := if (m_a x + m_size x <? ahi) && (m_b x + m_size x <? bhi)
                 then (m_a x + m_size x, ahi, m_b x + m_size x, bhi) :: q1 else q1).
      assert (Hq1 : Forall valid_bounds q1
                    /\ queue_a queue <= queue_a q1 <= queue_a queue + (m_a x - alo)
                    /\ queue_b queue <= queue_b q1 <= queue_b queue + (m_b x - blo)).
      { unfold q1. destruct ((alo <? m_a x) && (blo <? m_b x)); cbn [queue_a queue_b].
        - split; [constructor; [cbn; lia|exact Hq]|lia].
        - split; [exact Hq|lia]. }
      destruct Hq1 as (V1 & A1 & B1). clearbody q1.
      assert (Hq2 : Forall valid_bounds q2
                    /\ queue_a q1 <= queue_a q2 <= queue_a q1 + (ahi - (m_a x + m_size x))
                    /\ queue_b q1 <= queue_b q2 <= queue_b q1 + (bhi - (m_b x + m_size x))).
      { unfold q2.
        destruct ((m_a x + m_size x <? ahi) && (m_b x + m_size x <? bhi));
          cbn [queue_a queue_b].
        - split; [constructor; [cbn; lia|exact V1]|lia].
        - split; [exact V1|lia]. }
      destruct Hq2 as (V2 & A2 & B2). clearbody q2.
      destruct (IH q2 (blocks ++ [x]) V2) as (S1 & S2 & S3).
      rewrite sum_sizes_app, sum_sizes_cons, sum_sizes_nil in S1.
      destruct (IH queue blocks Hq) as (_ & S4 & S5).
      lia.
Qed.

(** The blocks of [get_matching_blocks] count no element twice. *)
Lemma matches_bounds (a b : text) :
  0 <= sum_sizes (get_matching_blocks a b) <= Z.min (len a) (len b).
Proof.
  unfold get_matching_blocks.
  rewrite sum_sizes_app, sum_sizes_collapse, sum_sizes_sort.
  assert (Hv : Forall valid_bounds [(0, len a, 0, len b)]).
  { constructor; [|constructor]. cbn. unfold len. lia. }
  destruct (blocks_loop_sum a b (2 * List.length a + 1) _ [] Hv) as (S1 & _).
  cbn [queue_a queue_b] in S1. rewrite sum_sizes_nil in S1.
  rewrite sum_sizes_cons, !sum_sizes_nil. cbn [m_size]. lia.
Qed.


(** The fuel of [get_matching_blocks] is enough: the loop ends on an empty
    queue. *)
Lemma blocks_loop_empties (a b : text) (fuel : nat) :
  forall (queue : list bounds) (blocks : list Match),
    Forall valid_bounds queue ->
    queue_measure queue <= Z.of_nat fuel ->
    fst (blocks_loop fuel a b queue blocks) = [].
Proof.
  assert (Hpos : forall queue, Forall valid_bounds queue -> 0 <= queue_measure queue).
  { induction 1 as [|[[[alo ahi] blo] bhi] q Hv _ IHq]; cbn [queue_measure fold_right]; [lia|].
    fold (queue_measure q). cbn in Hv. lia. }
  induction fuel as [|fuel IH]; intros queue blocks Hq Hm.
  - destruct queue as [|[[[alo ahi] blo] bhi] queue]; [reflexivity|exfalso].
    apply Forall_cons_iff in Hq as [Hv Hq]. cbn in Hv.
    cbn [queue_measure fold_right] in Hm. fold (queue_measure queue) in Hm.
    specialize (Hpos queue Hq). lia.
  - destruct queue as [|[[[alo ahi] blo] bhi] queue]; [reflexivity|]. cbn [blocks_loop].
    apply Forall_cons_iff in Hq as [Hv Hq]. cbn in Hv. destruct Hv as [Ha Hb].
    cbn [queue_measure fold_right] in Hm. fold (queue_measure queue) in Hm.
    pose proof (find_longest_match_ok a b alo ahi blo bhi Ha Hb) as (G1 & G2 & G3 & G4 & G5).
    set (x := find_longest_match a b alo ahi blo bhi) in *.
    destruct (m_size x =? 0) eqn:Ek; [apply IH; [exact Hq|lia]|].
    apply Z.eqb_neq in Ek. apply IH.
    + destruct ((alo <? m_a x) && (blo <? m_b x));
        destruct ((m_a x + m_size x <? ahi) && (m_b x + m_size x <? bhi));
        repeat (constructor; [cbn; lia|]); exact Hq.
    + destruct ((alo <? m_a x) && (blo <? m_b x));
        destruct ((m_a x + m_size x <? ahi) && (m_b x + m_size x <? bhi));
        cbn [queue_measure fold_right]; fold (queue_measure queue); lia.
Qed.

Lemma get_matching_blocks_queue_empty (a b : text) :
  fst (blocks_loop (2 * List.length a + 1) a b [(0, len a, 0, len b)] []) = [].
Proof.
  apply blocks_loop_empties.
  - constructor; [|constructor]. cbn. unfold len. lia.
  - cbn [queue_measure fold_right]. unfold len. lia.
Qed.


(** ** A text compared with itself *)

Lemma split_from_length (t : text) :
  forall cur : text,
    (List.length (split_from cur t) <= List.length t + (if is_empty cur then 0 else 1))%nat.
Proof.
  induction t as [|c t IH]; intro cur; cbn [split_from].
  - destruct cur; simpl; lia.
  - destruct (is_space c).
    + specialize (IH []). destruct cur; simpl in *; lia.
    + specialize (IH (cur ++ [c])).
      assert (is_empty (cur ++ [c]) = false) by now destruct cur.
      rewrite H in IH. destruct cur; simpl in *; lia.
Qed.

Lemma nodup_length_le (l : list text) :
  (List.length (nodup text_dec l) <= List.length l)%nat.
Proof.
  induction l as [|x l IH]; simpl; [lia|].
  destruct (in_dec text_dec x l); simpl; lia.
Qed.

Lemma word_set_length (norm : text) :
  (List.length (word_set norm) <= List.length norm)%nat.
Proof.
  unfold word_set. etransitivity; [apply nodup_length_le|].
  unfold split. pose proof (split_from_length norm []). simpl in H. lia.
Qed.

Lemma intersection_same (words : list text) : intersection words words = words.
Proof.
  unfold intersection.
  assert (H : forall l, incl l words ->
                        filter (fun w => if in_dec text_dec w words then true else false) l = l).
  { induction l as [|x l IH]; intro Hl; simpl; [reflexivity|].
    destruct (in_dec text_dec x words) as [_|Hn].
    - f_equal. apply IH. intros y Hy. apply Hl. now right.
    - elim Hn. apply Hl. now left. }
  apply H, incl_refl.
Qed.

Lemma union_same (words : list text) : union words words = words.
Proof.
  unfold union.
  assert (H : forall l, incl l words ->
                        filter (fun w => if in_dec text_dec w words then false else true) l = []).
  { induction l as [|x l IH]; intro Hl; simpl; [reflexivity|].
    destruct (in_dec text_dec x words) as [_|Hn].
    - apply IH. intros y Hy. apply Hl. now right.
    - elim Hn. apply Hl. now left. }
  rewrite H by apply incl_refl. apply app_nil_r.
Qed.

Lemma exact_match_same (norm : text) : exact_match_of norm norm = F64.one.
Proof. unfold exact_match_of. now rewrite text_eqb_refl. Qed.

Lemma levenshtein_similarity_same (norm : text) :
  len norm < 2 ^ 52 -> levenshtein_similarity_of norm norm = F64.one.
Proof.
  intro H. unfold levenshtein_similarity_of. rewrite Z.max_id.
  destruct (len norm =? 0) eqn:E; [reflexivity|].
  apply Z.eqb_neq in E. rewrite levenshtein_same.
  apply sub_one_zero_over. split.
  - unfold len in *. lia.
  - eapply Z.lt_trans; [exact H|]. now apply Z.pow_lt_mono_r.
Qed.

Lemma jaccard_similarity_same (norm : text) :
  len norm < 2 ^ 52 -> jaccard_similarity_of norm norm = F64.one.
Proof.
  intro H. unfold jaccard_similarity_of.
  rewrite intersection_same, union_same.
  pose proof (word_set_length norm) as Hlen.
  destruct (word_set norm) as [|w ws] eqn:E; [reflexivity|].
  cbn [is_empty andb orb].
  apply truediv_same. split.
  - simpl List.length. lia.
  - eapply Z.le_lt_trans; [|eapply Z.lt_trans; [exact H|now apply Z.pow_lt_mono_r]].
    unfold len. lia.
Qed.

(** C4. For a text [t], [calculate_similarity t t] under the default
    weights 0.3, 0.25, 0.25, 0.2 gives 1.0 for each of [exact_match],
    [sequence_similarity], [levenshtein_similarity], [jaccard_similarity],
    and 1.0 for the composite score, the sum being rounded to 1.0 exactly.
    The normalised text has fewer than [2^52] characters, so that lengths
    and counts convert to floats without rounding. *)
Theorem identical_texts_score_one (t : text) :
  len (normalize_text t) < 2 ^ 52 ->
  let s := calculate_similarity default_weights t t in
  exact_match s = F64.one
  /\ sequence_similarity s = F64.one
  /\ levenshtein_similarity s = F64.one
  /\ jaccard_similarity s = F64.one
  /\ composite_similarity s = F64.one.
Proof.
  intro H. unfold calculate_similarity.
  cbn [exact_match sequence_similarity levenshtein_similarity jaccard_similarity
       composite_similarity].
  rewrite exact_match_same, (ratio_same _ H), (levenshtein_similarity_same _ H),
    (jaccard_similarity_same _ H).
  split; [reflexivity|]. split; [reflexivity|]. split; [reflexivity|].
  split; [reflexivity|]. vm_compute. reflexivity.
Qed.

Lemma identical_texts_score_one_witness :
  len (normalize_text (str "Up 10:00:01")) < 2 ^ 52
  /\ (let s := calculate_similarity default_weights (str "Up 10:00:01") (str "Up 10:00:01") in
      exact_match s = F64.one
      /\ sequence_similarity s = F64.one
      /\ levenshtein_similarity s = F64.one
      /\ jaccard_similarity s = F64.one
      /\ composite_similarity s = F64.one).
Proof.
  assert (H : len (normalize_text (str "Up 10:00:01")) < 2 ^ 52) by (vm_compute; reflexivity).
  split; [exact H|].
  exact (identical_texts_score_one (str "Up 10:00:01") H).
Defined.

(** ** Clustering with threshold 1.0 *)

Lemma levenshtein_bounds (s : text) :
  forall t, 0 <= levenshtein_distance s t <= Z.max (len s) (len t).
Proof.
  induction s as [|a s IHs]; intro t.
  - rewrite levenshtein_nil_l. unfold len. simpl. lia.
  - induction t as [|b t IHt].
    + rewrite levenshtein_nil_r. unfold len. simpl List.length. lia.
    + rewrite levenshtein_cons.
      specialize (IHs (b :: t)) as H1. specialize (IHs t) as H2.
      unfold len in *. cbn [List.length] in *.
      destruct (char_eqb a b); lia.
Qed.

Lemma ratio_below_one (a b : text) :
  len a + len b < 2 ^ 53 -> below 1 0 (ratio a b).
Proof.
  intro H. unfold ratio. pose proof (matches_bounds a b).
  apply calculate_ratio_below_one; lia.
Qed.

Lemma levenshtein_similarity_below_one (norm1 norm2 : text) :
  Z.max (len norm1) (len norm2) < 2 ^ 53 ->
  below 1 0 (levenshtein_similarity_of norm1 norm2).
Proof.
  intro H. unfold levenshtein_similarity_of.
  destruct (Z.max (len norm1) (len norm2) =? 0) eqn:E; [exact one_below|].
  apply Z.eqb_neq in E. apply sub_one_below, truediv_below_one.
  - apply levenshtein_bounds.
  - unfold len in *. lia.
Qed.

Lemma intersection_length_le (words1 words2 : list text) :
  (List.length (intersection words1 words2) <= List.length (union words1 words2))%nat.
Proof.
  unfold intersection, union. rewrite length_app.
  pose proof (filter_length_le (fun w => if in_dec text_dec w words2 then true else false)
                               words1). lia.
Qed.

Lemma union_length_le (words1 words2 : list text) :
  (List.length words1 <= List.length (union words1 words2)
   <= List.length words1 + List.length words2)%nat.
Proof.
  unfold union. rewrite length_app.
  pose proof (filter_length_le (fun w => if in_dec text_dec w words1 then false else true)
                               words2). lia.
Qed.

Lemma jaccard_similarity_below_one (norm1 norm2 : text) :
  len norm1 + len norm2 < 2 ^ 53 ->
  below 1 0 (jaccard_similarity_of norm1 norm2).
Proof.
  intro H. unfold jaccard_similarity_of.
  pose proof (word_set_length norm1) as L1. pose proof (word_set_length norm2) as L2.
  pose proof (intersection_length_le (word_set norm1) (word_set norm2)) as L3.
  pose proof (union_length_le (word_set norm1) (word_set norm2)) as L4.
  destruct (word_set norm1) as [|w1 ws1]; destruct (word_set norm2) as [|w2 ws2];
    cbn [is_empty andb orb]; [exact one_below|now left|now left|].
  apply truediv_below_one.
  - lia.
  - cbn [List.length] in *. unfold len in H. lia.
Qed.

(** Texts that differ after normalisation score less than 1.0. *)
Lemma composite_below_one (text1 text2 : text) :
  len (normalize_text text1) < 2 ^ 52 -> len (normalize_text text2) < 2 ^ 52 ->
  normalize_text text1 <> normalize_text text2 ->
  below 3 (-2) (composite_similarity (calculate_similarity default_weights text1 text2)).
Proof.
  intros H1 H2 Hne.
  assert (Hsum : len (normalize_text text1) + len (normalize_text text2) < 2 ^ 53).
  { change (2 ^ 53) with (2 ^ 52 + 2 ^ 52). lia. }
  assert (Hmax : Z.max (len (normalize_text text1)) (len (normalize_text text2)) < 2 ^ 53).
  { change (2 ^ 53) with (2 ^ 52 + 2 ^ 52). unfold len in *. lia. }
  unfold calculate_similarity. cbn [composite_similarity].
  unfold exact_match_of. rewrite (text_eqb_neq _ _ Hne).
  cbn [default_weights w_exact_match w_sequence_similarity w_levenshtein_similarity
       w_jaccard_similarity].
  change (F64.mul F64.zero (S754_finite false 5404319552844595 (-54)))
    with (S754_zero false).
  pose proof (ratio_below_one _ _ Hsum) as Bs.
  pose proof (levenshtein_similarity_below_one _ _ Hmax) as Bl.
  pose proof (jaccard_similarity_below_one _ _ Hsum) as Bj.
  assert (Ws : below 1 (-2)
                 (F64.mul (ratio (normalize_text text1) (normalize_text text2))
                          (S754_finite false 4503599627370496 (-54)))).
  { apply (mul_below 1 (-2) (-54)); try lia; try reflexivity; exact Bs. }
  assert (Wl : below 1 (-2)
                 (F64.mul (levenshtein_similarity_of (normalize_text text1)
                                                     (normalize_text text2))
                          (S754_finite false 4503599627370496 (-54)))).
  { apply (mul_below 1 (-2) (-54)); try lia; try reflexivity; exact Bl. }
  assert (Wj : below 1 (-2)
                 (F64.mul (jaccard_similarity_of (normalize_text text1)
                                                 (normalize_text text2))
                          (S754_finite false 7205759403792794 (-55)))).
  { apply (mul_below 1 (-2) (-55)); try lia; try reflexivity; exact Bj. }
  assert (A1 : below 1 (-2)
                 (F64.add (S754_zero false)
                          (F64.mul (ratio (normalize_text text1) (normalize_text text2))
                                   (S754_finite false 4503599627370496 (-54))))).
  { destruct Ws as [->|(m & e & -> & Hrest)]; [now left|]. right. now exists m, e. }
  change 3 with (1 + 1 + 1).
  apply add_below; try lia; [|exact Wj].
  apply add_below; try lia; assumption.
Qed.

Lemma is_duplicate_exact (text1 text2 : text) :
  len (normalize_text text1) < 2 ^ 52 -> len (normalize_text text2) < 2 ^ 52 ->
  is_duplicate exact_engine text1 text2 = true ->
  normalize_text text1 = normalize_text text2.
Proof.
  intros H1 H2 Hd.
  destruct (text_dec (normalize_text text1) (normalize_text text2)) as [E|Hne];
    [exact E|exfalso].
  unfold is_duplicate in Hd. cbn [exact_engine engine_weights similarity_threshold] in Hd.
  rewrite (below_not_reached _ (composite_below_one _ _ H1 H2 Hne)) in Hd. discriminate.
Qed.

Lemma scan_candidates_members (self : engine) (content1 : text) (rest : list record) :
  forall (group : list record) (processed : list Z) (r : record),
    In r (fst (scan_candidates self content1 rest group processed)) ->
    In r group \/ is_duplicate self content1 (rec_content r) = true.
Proof.
  induction rest as [|record2 rest IH]; intros group processed r; cbn [scan_candidates fst].
  - now left.
  - destruct (id_in (rec_id record2) processed); [apply IH|].
    destruct (is_duplicate self content1 (rec_content record2)) eqn:E; [|apply IH].
    intro H. apply IH in H as [H|H]; [|now right].
    apply in_app_iff in H as [H|[<-|[]]]; [now left|now right].
Qed.

Lemma cluster_loop_led (self : engine) (rows : list record) :
  forall (gs : list duplicate_group) (processed : list Z),
    Forall (led_group self) gs ->
    Forall (led_group self) (cluster_loop self rows gs processed).
Proof.
  induction rows as [|record1 rest IH]; intros gs processed Hgs;
    cbn [cluster_loop]; [exact Hgs|].
  destruct (id_in (rec_id record1) processed); [now apply IH|].
  destruct (scan_candidates_spec self (rec_content record1) rest [record1] processed)
    as (added & Heq & _).
  pose proof (scan_candidates_members self (rec_content record1) rest [record1] processed)
    as Hmem.
  rewrite Heq in *. cbn [fst] in Hmem. apply IH.
  destruct (1 <? List.length ([record1] ++ added))%nat; [|exact Hgs].
  apply Forall_app. split; [exact Hgs|]. constructor; [|constructor].
  exists record1, added. split; [reflexivity|].
  intros r Hr. destruct (Hmem r) as [[<-|[]]|H]; [right; now apply in_app_iff; right| |].
  - now left.
  - now right.
Qed.

Lemma cluster_loop_from (self : engine) (rows : list record) :
  forall (gs : list duplicate_group) (processed : list Z) (g : duplicate_group),
    In g (cluster_loop self rows gs processed) ->
    In g gs \/ incl (records g) rows.
Proof.
  induction rows as [|record1 rest IH]; intros gs processed g;
    cbn [cluster_loop]; [now left|].
  destruct (id_in (rec_id record1) processed).
  - intro H. apply IH in H as [H|H]; [now left|right]. now apply incl_tl.
  - destruct (scan_candidates_spec self (rec_content record1) rest [record1] processed)
      as (added & -> & Hincl & _).
    intro H. apply IH in H as [H|H].
    + destruct (1 <? List.length ([record1] ++ added))%nat; [|now left].
      apply in_app_iff in H as [H|[<-|[]]]; [now left|right].
      cbn [make_group records app]. intros r [<-|Hr]; [now left|].
      right. now apply Hincl.
    + right. now apply incl_tl.
Qed.

(** C5. With threshold 1.0 and the default weights, every group that the
    clustering step emits is a leader followed by records whose normalised
    text equals the normalised text of the leader: a record whose
    normalised text differs from the leader's scores below 1.0 and is not
    taken.  The normalised texts have fewer than [2^52] characters, so that
    lengths and counts convert to floats without rounding. *)
Theorem threshold_one_groups_exact (rows : list record) :
  (forall r, In r rows -> len (normalize_text (rec_content r)) < 2 ^ 52) ->
  forall g, In g (duplicate_groups (find_duplicates exact_engine rows)) ->
    exists leader members,
      records g = leader :: members
      /\ forall r, In r members ->
                   normalize_text (rec_content r) = normalize_text (rec_content leader).
Proof.
  intros Hlen g Hg. unfold find_duplicates, find_duplicate_groups in Hg.
  cbn [duplicate_groups] in Hg.
  pose proof (cluster_loop_led exact_engine rows [] [] (Forall_nil _)) as Hled.
  rewrite Forall_forall in Hled. destruct (Hled g Hg) as (leader & members & Hrec & Hdup).
  destruct (cluster_loop_from exact_engine rows [] [] g Hg) as [[]|Hincl].
  exists leader, members. split; [exact Hrec|].
  intros r Hr. destruct (Hdup r Hr) as [->|Hd]; [reflexivity|].
  symmetry. apply is_duplicate_exact; [| |exact Hd].
  - apply Hlen, Hincl. rewrite Hrec. now left.
  - apply Hlen, Hincl. rewrite Hrec. now right.
Qed.

Lemma sample_records_short :
  forall r, In r sample_records -> len (normalize_text (rec_content r)) < 2 ^ 52.
Proof.
  intros r [<-|[<-|[<-|[]]]]; vm_compute; reflexivity.
Defined.

Lemma threshold_one_groups_exact_witness :
  exists g,
    In g (duplicate_groups (find_duplicates exact_engine sample_records))
    /\ exists leader members,
         records g = leader :: members
         /\ forall r, In r members ->
                      normalize_text (rec_content r) = normalize_text (rec_content leader).
Proof.
  eexists. split.
  - vm_compute. left. reflexivity.
  - apply (threshold_one_groups_exact sample_records sample_records_short).
    vm_compute. left. reflexivity.
Defined.

(** On the sample records the threshold 1.0 keeps the two messages that
    are equal once their times are removed, and nothing else. *)
Example threshold_one_on_sample :
  map group_ids (duplicate_groups (find_duplicates exact_engine sample_records))
  = [[1; 2]].
Proof. vm_compute. reflexivity. Qed.

(* ================================================================== *)
(** * Part III: further properties of the program *)
(* ================================================================== *)

(** ** [resolve_duplicates] as a transaction *)

Section Transactions.

Variable strftime : Z -> text.

Lemma reads_only_ret {A : Type} (a : A) : reads_only (ret a).
Proof. intro w. reflexivity. Qed.

Lemma reads_only_lift {A : Type} (r : result A) : reads_only (lift r).
Proof. intro w. reflexivity. Qed.

Lemma reads_only_now : reads_only now.
Proof. intro w. reflexivity. Qed.

Lemma reads_only_bind {A B : Type} (m : io A) (f : A -> io B) :
  reads_only m -> (forall a, reads_only (f a)) -> reads_only (bind m f).
Proof.
  intros Hm Hf w. unfold bind. specialize (Hm w).
  destruct (m w) as [[a|message] w1]; cbn [snd] in Hm; subst w1.
  - apply Hf.
  - reflexivity.
Qed.

Lemma merge_content_reads_only (p : record) (l : list record) :
  reads_only (merge_content strftime p l).
Proof.
  unfold merge_content. apply reads_only_bind; [apply reads_only_now|].
  intro t. apply reads_only_ret.
Qed.

Lemma resolve_group_dry_reads_only (strategy : text) (g : duplicate_group) :
  reads_only (resolve_group strftime strategy true g).
Proof.
  unfold resolve_group.
  destruct (text_eqb strategy (str "keep_latest")).
  { apply reads_only_bind; [apply reads_only_lift|]. intro r.
    apply reads_only_bind; [apply reads_only_ret|]. intro u. apply reads_only_ret. }
  destruct (text_eqb strategy (str "merge")).
  { apply reads_only_bind; [apply reads_only_lift|]. intro r.
    apply reads_only_bind; [apply merge_content_reads_only|]. intro c.
    apply reads_only_bind; [apply reads_only_ret|]. intro u. apply reads_only_ret. }
  destruct (text_eqb strategy (str "flag_only")).
  { apply reads_only_bind; [apply reads_only_ret|]. intro u. apply reads_only_ret. }
  apply reads_only_ret.
Qed.

Lemma resolve_groups_dry_reads_only (strategy : text) (gs : list duplicate_group) :
  forall acc, reads_only (resolve_groups strftime strategy true gs acc).
Proof.
  induction gs as [|g gs IH]; intro acc; cbn [resolve_groups].
  - apply reads_only_ret.
  - apply reads_only_bind; [apply resolve_group_dry_reads_only|].
    intro a. apply IH.
Qed.

Lemma try_block_dry_reads_only (analysis : analysis_result) (strategy : text) :
  reads_only (try_block strftime analysis strategy true).
Proof.
  unfold try_block. apply reads_only_bind; [apply resolve_groups_dry_reads_only|].
  intro acts. apply reads_only_bind; [apply reads_only_ret|].
  intro u. apply reads_only_ret.
Qed.

(** X1. A dry run sends nothing to the database but the opening and the
    closing of the connection: whatever the strategy, the groups and the
    faults of the database, the table is as it was, and the journal gets no
    statement and no commit; it gets nothing (no group), [connect] alone
    (the connection fails), [connect, close], or [connect, rollback, close]
    (an exception in the loop). *)
Theorem dry_run_sends_no_update (analysis : analysis_result) (strategy : text) (w : world) :
  let w' := snd (resolve_duplicates strftime analysis strategy true w) in
  table w' = table w
  /\ exists evs, journal w' = journal w ++ evs /\ In evs dry_run_events.
Proof.
  cbv zeta.
  destruct (resolve_duplicates strftime analysis strategy true w) as [o w'] eqn:E.
  cbn [snd]. unfold resolve_duplicates in E.
  destruct (is_empty (duplicate_groups analysis)).
  { injection E as <- <-. split; [reflexivity|]. exists []. rewrite app_nil_r.
    split; [reflexivity|]. now left. }
  unfold connect_db, attempt in E.
  destruct (faults w (List.length (journal w))) as [message|].
  { injection E as <- <-. split; [reflexivity|].
    exists [EvConnect]. split; [reflexivity|]. right. now left. }
  set (w1 := set_pending _ _) in E.
  pose proof (try_block_dry_reads_only analysis strategy w1) as Hw.
  destruct (try_block strftime analysis strategy true w1) as [[acts|message] w2];
    cbn [snd] in Hw; subst w2; injection E as <- <-.
  - split; [reflexivity|]. exists [EvConnect; EvClose]. split.
    + cbn. now rewrite <- app_assoc.
    + right. right. now left.
  - split; [reflexivity|]. exists [EvConnect; EvRollback; EvClose]. split.
    + cbn. now rewrite <- !app_assoc.
    + right. right. right. now left.
Qed.

(** *** Computations that only execute statements *)

Lemma apply_statements_app (s1 s2 : list statement) (rows : list record) :
  apply_statements (s1 ++ s2) rows = apply_statements s2 (apply_statements s1 rows).
Proof. unfold apply_statements. apply fold_left_app. Qed.

Lemma updates_only_reads {A : Type} (m : io A) : reads_only m -> updates_only m.
Proof.
  intros H w. exists []. rewrite (H w). cbn [map]. rewrite app_nil_r.
  repeat split. destruct (fst (m w)); [|exact I].
  destruct (pending w); reflexivity.
Qed.

Lemma updates_only_bind {A B : Type} (m : io A) (f : A -> io B) :
  updates_only m -> (forall a, updates_only (f a)) -> updates_only (bind m f).
Proof.
  intros Hm Hf w. destruct (Hm w) as (s1 & Ht & Hfa & Hc & Hj & Hp).
  unfold bind. destruct (m w) as [[a|message] w1]; cbn [fst snd] in *.
  - destruct (Hf a w1) as (s2 & Ht2 & Hfa2 & Hc2 & Hj2 & Hp2).
    exists (s1 ++ s2). rewrite Ht2, Hfa2, Hc2, Hj2, Ht, Hfa, Hc, Hj.
    rewrite map_app, app_assoc. repeat split.
    destruct (fst (f a w1)); [|exact I].
    rewrite Hp2, Hp. destruct (pending w); cbn [option_map]; [|reflexivity].
    now rewrite apply_statements_app.
  - exists s1. repeat split; assumption.
Qed.

Lemma updates_only_execute (s : statement) : updates_only (execute s).
Proof.
  intro w. exists [s]. unfold execute, attempt.
  destruct (faults w (List.length (journal w))); cbn; repeat split.
Qed.

Lemma updates_only_for_each {A : Type} (l : list A) (body : A -> io unit) :
  (forall x, updates_only (body x)) -> updates_only (for_each l body).
Proof.
  intro H. induction l as [|x l IH]; cbn [for_each].
  - apply updates_only_reads, reads_only_ret.
  - apply updates_only_bind; [apply H|]. intros _. exact IH.
Qed.

Lemma updates_only_resolve_group (strategy : text) (dry_run : bool) (g : duplicate_group) :
  updates_only (resolve_group strftime strategy dry_run g).
Proof.
  destruct dry_run; [apply updates_only_reads, resolve_group_dry_reads_only|].
  unfold resolve_group.
  destruct (text_eqb strategy (str "keep_latest")).
  { apply updates_only_bind; [apply updates_only_reads, reads_only_lift|]. intro r.
    apply updates_only_bind.
    - apply updates_only_for_each. intro x. apply updates_only_execute.
    - intro u. apply updates_only_reads, reads_only_ret. }
  destruct (text_eqb strategy (str "merge")).
  { apply updates_only_bind; [apply updates_only_reads, reads_only_lift|]. intro r.
    apply updates_only_bind; [apply updates_only_reads, merge_content_reads_only|].
    intro c. apply updates_only_bind.
    - apply updates_only_bind; [apply updates_only_reads, reads_only_now|]. intro t.
      apply updates_only_bind; [apply updates_only_execute|]. intro u.
      apply updates_only_for_each. intro x. apply updates_only_execute.
    - intro u. apply updates_only_reads, reads_only_ret. }
  destruct (text_eqb strategy (str "flag_only")).
  { apply updates_only_bind.
    - apply updates_only_for_each. intro x. apply updates_only_execute.
    - intro u. apply updates_only_reads, reads_only_ret. }
  apply updates_only_reads, reads_only_ret.
Qed.

Lemma updates_only_resolve_groups (strategy : text) (dry_run : bool)
      (gs : list duplicate_group) :
  forall acc, updates_only (resolve_groups strftime strategy dry_run gs acc).
Proof.
  induction gs as [|g gs IH]; intro acc; cbn [resolve_groups].
  - apply updates_only_reads, reads_only_ret.
  - apply updates_only_bind; [apply updates_only_resolve_group|].
    intro a. apply IH.
Qed.

(** What [resolve_duplicates] does once the connection is open. *)
Lemma resolve_duplicates_connected (analysis : analysis_result)
      (strategy : text) (dry_run : bool) (w : world) :
  duplicate_groups analysis <> [] ->
  faults w (List.length (journal w)) = None ->
  exists stmts,
    let opened := journal w ++ EvConnect :: map EvExecute stmts in
    (exists cause,
        resolve_duplicates strftime analysis strategy dry_run w
        = (Returned (ResolutionError (str "Error resolving duplicates: " ++ cause)),
           mkWorld (table w) None (opened ++ [EvRollback; EvClose]) (faults w) (clock w)))
    \/ (exists cause,
           dry_run = false /\
           resolve_duplicates strftime analysis strategy dry_run w
           = (Returned (ResolutionError (str "Error resolving duplicates: " ++ cause)),
              mkWorld (table w) None (opened ++ [EvCommit; EvRollback; EvClose])
                      (faults w) (clock w)))
    \/ (exists affected actions,
           dry_run = true /\
           resolve_duplicates strftime analysis strategy dry_run w
           = (Returned (ResolutionDone false strategy
                          (List.length (duplicate_groups analysis)) affected actions),
              mkWorld (table w) None (opened ++ [EvClose]) (faults w) (clock w)))
    \/ (exists affected actions,
           dry_run = false /\
           resolve_duplicates strftime analysis strategy dry_run w
           = (Returned (ResolutionDone true strategy
                          (List.length (duplicate_groups analysis)) affected actions),
              mkWorld (apply_statements stmts (table w)) None
                      (opened ++ [EvCommit; EvClose]) (faults w) (clock w))).
Proof.
  intros Hne Hc. unfold resolve_duplicates.
  rewrite is_empty_false by exact Hne.
  unfold connect_db, attempt. rewrite Hc.
  set (w1 := set_pending _ _).
  assert (Hw1 : pending w1 = Some (table w)) by reflexivity.
  assert (Hj1 : journal w1 = journal w ++ [EvConnect]) by reflexivity.
  assert (Ht1 : table w1 = table w) by reflexivity.
  assert (Hf1 : faults w1 = faults w) by reflexivity.
  assert (Hc1 : clock w1 = clock w) by reflexivity.
  clearbody w1.
  unfold try_block, bind.
  destruct (updates_only_resolve_groups strategy dry_run (duplicate_groups analysis) [] w1)
    as (stmts & Ht & Hf & Hcl & Hj & Hp).
  exists stmts. cbv zeta.
  destruct (resolve_groups strftime strategy dry_run (duplicate_groups analysis) [] w1)
    as [[acts|message] w2]; cbn [fst snd] in *.
  2:{ left. exists message. f_equal. unfold close, rollback, set_pending, log.
      cbn [table pending journal faults clock].
      rewrite Ht, Ht1, Hf, Hf1, Hcl, Hc1, Hj, Hj1, <- !app_assoc. reflexivity. }
  destruct dry_run; cbn [ret negb].
  { right. right. left. eexists _, acts. split; [reflexivity|]. f_equal.
    unfold close, set_pending, log. cbn [table pending journal faults clock].
    rewrite Ht, Ht1, Hf, Hf1, Hcl, Hc1, Hj, Hj1, <- !app_assoc. reflexivity. }
  unfold commit, attempt.
  destruct (faults w2 (List.length (journal w2))) as [message|]; unfold ret; cbv beta iota.
  - right. left. exists message. split; [reflexivity|]. f_equal.
    unfold close, rollback, set_pending, log. cbn [table pending journal faults clock].
    rewrite Ht, Ht1, Hf, Hf1, Hcl, Hc1, Hj, Hj1, <- !app_assoc. reflexivity.
  - right. right. right. eexists _, acts. split; [reflexivity|]. f_equal.
    rewrite Hw1 in Hp. cbn [option_map] in Hp.
    unfold close, set_pending, set_table, log. cbn [table pending journal faults clock].
    rewrite Hp. cbn [table pending journal faults clock].
    rewrite Hf, Hf1, Hcl, Hc1, Hj, Hj1, <- !app_assoc. reflexivity.
Qed.

(** X2. A resolution is all or nothing.  Whatever the strategy, the
    groups and the faults of the database, when [resolve_duplicates] does not
    return [resolution_applied] (it raises, or it returns
    [no_duplicates_found], [error] or [dry_run_completed]), the table is as
    it was before the call. *)
Theorem resolution_not_applied_keeps_table (analysis : analysis_result)
        (strategy : text) (dry_run : bool) (w : world) :
  let r := resolve_duplicates strftime analysis strategy dry_run w in
  match fst r with
  | Returned (ResolutionDone true _ _ _ _) => True
  | _ => table (snd r) = table w
  end.
Proof.
  cbv zeta.
  destruct (duplicate_groups analysis) as [|g gs] eqn:Hg.
  { unfold resolve_duplicates. rewrite Hg. reflexivity. }
  destruct (faults w (List.length (journal w))) as [message|] eqn:Hc.
  { unfold resolve_duplicates, connect_db, attempt. rewrite Hg, Hc. reflexivity. }
  assert (Hne : duplicate_groups analysis <> []) by (rewrite Hg; discriminate).
  destruct (resolve_duplicates_connected analysis strategy dry_run w Hne Hc)
    as (stmts & [(c & ->)|[(c & _ & ->)|[(n & a & _ & ->)|(n & a & _ & ->)]]]);
    cbn [fst snd table]; reflexivity || exact I.
Qed.

(** X3. What an applied resolution did.  When [resolve_duplicates]
    returns [resolution_applied], the journal got, in this order, the
    opening of the connection, the statements of the loop, one commit and
    the closing; the table is the table of before with these statements run
    on it in order, and the connection is closed. *)
Theorem applied_resolution_commits_once (analysis : analysis_result)
        (strategy : text) (dry_run : bool) (w : world) :
  let r := resolve_duplicates strftime analysis strategy dry_run w in
  match fst r with
  | Returned (ResolutionDone true _ _ _ _) =>
      dry_run = false
      /\ pending (snd r) = None
      /\ exists stmts,
           journal (snd r)
           = journal w ++ EvConnect :: map EvExecute stmts ++ [EvCommit; EvClose]
           /\ table (snd r) = apply_statements stmts (table w)
  | _ => True
  end.
Proof.
  cbv zeta.
  destruct (duplicate_groups analysis) as [|g gs] eqn:Hg.
  { unfold resolve_duplicates. rewrite Hg. exact I. }
  destruct (faults w (List.length (journal w))) as [message|] eqn:Hc.
  { unfold resolve_duplicates, connect_db, attempt. rewrite Hg, Hc. exact I. }
  assert (Hne : duplicate_groups analysis <> []) by (rewrite Hg; discriminate).
  destruct (resolve_duplicates_connected analysis strategy dry_run w Hne Hc)
    as (stmts & [(c & ->)|[(c & _ & ->)|[(n & a & _ & ->)|(n & a & Hd & ->)]]]);
    cbn [fst snd]; try exact I.
  split; [exact Hd|]. split; [reflexivity|]. exists stmts.
  cbn [journal table]. split; [|reflexivity].
  rewrite <- app_assoc. reflexivity.
Qed.


End Transactions.

(** ** The plan of a resolution and its effect on the rows *)

Section Planning.

Variable strftime : Z -> text.

Lemma run_statements_nil (w : world) : run_statements [] w = w.
Proof.
  destruct w as [t p j f c]. unfold run_statements. cbn. rewrite app_nil_r.
  now destruct p.
Qed.

Lemma run_statements_app (s1 s2 : list statement) (w : world) :
  run_statements s2 (run_statements s1 w) = run_statements (s1 ++ s2) w.
Proof.
  unfold run_statements. cbn [table pending journal faults clock].
  rewrite map_app, app_assoc. f_equal.
  destruct (pending w); cbn [option_map]; [|reflexivity].
  now rewrite apply_statements_app.
Qed.

Lemma run_statements_no_faults (stmts : list statement) (w : world) :
  no_faults w -> no_faults (run_statements stmts w).
Proof. intros H n. exact (H n). Qed.

Lemma execute_run (s : statement) (w : world) :
  no_faults w -> execute s w = (Ok tt, run_statements [s] w).
Proof.
  intro H. unfold execute. rewrite attempt_ok by exact H.
  unfold run_statements, set_pending, log. cbn [table pending journal faults clock map].
  reflexivity.
Qed.

Lemma for_each_execute_run {A : Type} (mk : A -> statement) (l : list A) (w : world) :
  no_faults w ->
  for_each l (fun x => execute (mk x)) w = (Ok tt, run_statements (map mk l) w).
Proof.
  revert w; induction l as [|x l IH]; intros w H; cbn [for_each map].
  - now rewrite run_statements_nil.
  - unfold bind. rewrite execute_run by exact H.
    rewrite IH by (apply run_statements_no_faults; exact H).
    now rewrite run_statements_app.
Qed.

(** What a turn of the loop does, strategy by strategy, when the database
    does not fail. *)
Lemma resolve_group_keep_latest_run (dry_run : bool) (g : duplicate_group) (w : world) :
  no_faults w ->
  resolve_group strftime (str "keep_latest") dry_run g w
  = match max_by_created_at (records g) with
    | Raise message => (Raise message, w)
    | Ok latest =>
        let a := ActKeepLatest (rec_id latest)
                               (map rec_id (others latest (records g)))
                               (List.length (records g)) in
        (Ok (Some a),
         if dry_run then w else run_statements (map marker_statement (markers_of a)) w)
    end.
Proof.
  intro H. unfold resolve_group.
  replace (text_eqb (str "keep_latest") (str "keep_latest")) with true
    by (symmetry; apply text_eqb_refl).
  unfold bind at 1. unfold lift.
  destruct (max_by_created_at (records g)) as [latest|message]; [|reflexivity].
  unfold bind. destruct dry_run; [reflexivity|].
  rewrite for_each_execute_run by exact H. unfold ret. cbv zeta.
  cbn [markers_of]. rewrite !map_map. reflexivity.
Qed.

Lemma resolve_group_flag_only_run (dry_run : bool) (g : duplicate_group) (w : world) :
  no_faults w ->
  resolve_group strftime (str "flag_only") dry_run g w
  = (Ok (Some (flag_action g)),
     if dry_run then w
     else run_statements (map marker_statement (markers_of (flag_action g))) w).
Proof.
  intro H. unfold resolve_group.
  replace (text_eqb (str "flag_only") (str "keep_latest")) with false by reflexivity.
  replace (text_eqb (str "flag_only") (str "merge")) with false by reflexivity.
  replace (text_eqb (str "flag_only") (str "flag_only")) with true by reflexivity.
  unfold bind. destruct dry_run; [reflexivity|].
  rewrite for_each_execute_run by exact H. unfold ret, flag_action.
  cbn [markers_of]. rewrite !map_map. reflexivity.
Qed.

Lemma resolve_group_merge_run (dry_run : bool) (g : duplicate_group) (w : world) :
  no_faults w ->
  exists stmts,
    resolve_group strftime (str "merge") dry_run g w
    = match max_by_created_at (records g) with
      | Raise message => (Raise message, w)
      | Ok primary =>
          (Ok (Some (ActMerge (rec_id primary)
                              (map rec_id (others primary (records g)))
                              (List.length (records g)))),
           if dry_run then w else run_statements stmts w)
      end.
Proof.
  intro H. unfold resolve_group.
  replace (text_eqb (str "merge") (str "keep_latest")) with false by reflexivity.
  replace (text_eqb (str "merge") (str "merge")) with true by reflexivity.
  unfold bind at 1. unfold lift.
  destruct (max_by_created_at (records g)) as [primary|message];
    [|exists []; reflexivity].
  unfold bind at 1. unfold merge_content at 1. unfold bind at 1. unfold now at 1.
  unfold ret at 1. unfold bind at 1.
  destruct dry_run; [exists []; reflexivity|].
  unfold bind at 1. unfold now at 1. unfold bind at 1.
  rewrite execute_run by exact H.
  rewrite for_each_execute_run by (apply run_statements_no_faults; exact H).
  rewrite run_statements_app. unfold ret.
  eexists. reflexivity.
Qed.

(** The outcome of a turn does not depend on [dry_run], nor on the world but
    for the clock. *)
Lemma resolve_group_plan (strategy : text) (dry_run : bool) (g : duplicate_group)
      (w wd : world) :
  no_faults w -> clock wd = clock w ->
  exists w',
    resolve_group strftime strategy dry_run g w
    = (fst (resolve_group strftime strategy true g wd), w')
    /\ no_faults w' /\ clock w' = clock w.
Proof.
  intros H Hc.
  destruct (text_dec strategy (str "keep_latest")) as [->|N1].
  { rewrite resolve_group_keep_latest_run by exact H.
    unfold resolve_group.
    replace (text_eqb (str "keep_latest") (str "keep_latest")) with true
      by (symmetry; apply text_eqb_refl).
    unfold bind at 1. unfold lift.
    destruct (max_by_created_at (records g)) as [latest|message]; cbn [fst].
    - eexists. split; [reflexivity|]. destruct dry_run; split; try assumption; reflexivity.
    - eexists. split; [reflexivity|]. now split. }
  destruct (text_dec strategy (str "merge")) as [->|N2].
  { destruct (resolve_group_merge_run dry_run g w H) as (stmts & ->).
    unfold resolve_group.
    replace (text_eqb (str "merge") (str "keep_latest")) with false by reflexivity.
    replace (text_eqb (str "merge") (str "merge")) with true by reflexivity.
    unfold bind at 1. unfold lift.
    destruct (max_by_created_at (records g)) as [primary|message]; cbn [fst].
    - eexists. split; [reflexivity|]. destruct dry_run; split; try assumption; reflexivity.
    - eexists. split; [reflexivity|]. now split. }
  destruct (text_dec strategy (str "flag_only")) as [->|N3].
  { rewrite resolve_group_flag_only_run by exact H.
    unfold resolve_group.
    replace (text_eqb (str "flag_only") (str "keep_latest")) with false by reflexivity.
    replace (text_eqb (str "flag_only") (str "merge")) with false by reflexivity.
    replace (text_eqb (str "flag_only") (str "flag_only")) with true by reflexivity.
    cbn [fst bind ret]. eexists. split; [reflexivity|].
    destruct dry_run; split; try assumption; reflexivity. }
  unfold resolve_group. rewrite !text_eqb_neq by assumption.
  exists w. now split.
Qed.

Lemma resolve_groups_plan (strategy : text) (dry_run : bool) (gs : list duplicate_group) :
  forall (acc : list resolution_action) (w wd : world),
    no_faults w -> clock wd = clock w ->
    exists w',
      resolve_groups strftime strategy dry_run gs acc w
      = (fst (resolve_groups strftime strategy true gs acc wd), w')
      /\ no_faults w' /\ clock w' = clock w.
Proof.
  induction gs as [|g gs IH]; intros acc w wd H Hc; cbn [resolve_groups].
  - exists w. now split.
  - unfold bind.
    destruct (resolve_group_plan strategy dry_run g w wd H Hc) as (w1 & -> & H1 & Hc1).
    pose proof (resolve_group_dry_reads_only strftime strategy g wd) as Hr.
    destruct (resolve_group strftime strategy true g wd) as [[a|message] wd1];
      cbn [fst snd] in *; subst wd1.
    + destruct (IH (match a with Some act => acc ++ [act] | None => acc end) w1 wd H1)
        as (w2 & E & H2 & Hc2); [congruence|].
      exists w2. split; [exact E|]. split; [exact H2|congruence].
    + exists w1. now split.
Qed.

(** X5. A dry run tells what the run will do.  With a database that does
    not fail, [resolve_duplicates] returns with [dry_run] off what it returns
    with [dry_run] on, but for the entry [action]: the same strategy, the
    same counts and the same [resolution_actions], or the same error. *)
Theorem dry_run_predicts_resolution (analysis : analysis_result) (strategy : text)
        (w : world) :
  no_faults w ->
  plan_of (fst (resolve_duplicates strftime analysis strategy false w))
  = fst (resolve_duplicates strftime analysis strategy true w).
Proof.
  intro H. unfold resolve_duplicates.
  destruct (is_empty (duplicate_groups analysis)); [reflexivity|].
  unfold connect_db. rewrite attempt_ok by exact H.
  set (w1 := set_pending _ _).
  assert (H1 : no_faults w1) by exact H. clearbody w1.
  unfold try_block, bind.
  destruct (resolve_groups_plan strategy false (duplicate_groups analysis) [] w1 w1 H1 eq_refl)
    as (w2 & -> & H2 & _).
  pose proof (resolve_groups_dry_reads_only strftime strategy (duplicate_groups analysis)
                                            [] w1) as Hr.
  destruct (resolve_groups strftime strategy true (duplicate_groups analysis) [] w1)
    as [[acts|message] wd]; cbn [fst snd] in *; [|reflexivity].
  unfold commit. rewrite attempt_ok by exact H2. reflexivity.
Qed.

End Planning.

Lemma dry_run_predicts_resolution_witness :
  no_faults sample_world
  /\ plan_of (fst (resolve_duplicates sample_strftime sample_analysis (str "merge") false
                                      sample_world))
     = fst (resolve_duplicates sample_strftime sample_analysis (str "merge") true
                               sample_world).
Proof.
  split; [exact sample_world_no_faults|].
  apply (dry_run_predicts_resolution sample_strftime sample_analysis (str "merge")
           sample_world).
  exact sample_world_no_faults.
Defined.

(** ** [merge] and [keep_latest] choose alike *)

Section MergeChoice.

Variable strftime : Z -> text.

Lemma fold_sizes_as_merge (actions : list resolution_action) :
  forall n,
    fold_left (fun acc a => (acc + action_group_size a)%nat) (map as_merge actions) n
    = fold_left (fun acc a => (acc + action_group_size a)%nat) actions n.
Proof.
  induction actions as [|a actions IH]; intro n; cbn [map fold_left]; [reflexivity|].
  rewrite IH. now destruct a.
Qed.

Lemma resolve_groups_merge_as_keep_latest (dry_run : bool) (gs : list duplicate_group) :
  forall (acc : list resolution_action) (w w' : world),
    no_faults w -> no_faults w' ->
    exists wk wm,
      no_faults wk /\ no_faults wm
      /\ ((exists actions,
              resolve_groups strftime (str "keep_latest") dry_run gs acc w
              = (Ok actions, wk)
              /\ resolve_groups strftime (str "merge") dry_run gs (map as_merge acc) w'
                 = (Ok (map as_merge actions), wm))
          \/ (exists message,
                resolve_groups strftime (str "keep_latest") dry_run gs acc w
                = (Raise message, wk)
                /\ resolve_groups strftime (str "merge") dry_run gs (map as_merge acc) w'
                   = (Raise message, wm))).
Proof.
  induction gs as [|g gs IH]; intros acc w w' H H'; cbn [resolve_groups].
  - exists w, w'. repeat split; try assumption. left. exists acc. now split.
  - unfold bind. rewrite resolve_group_keep_latest_run by exact H.
    destruct (resolve_group_merge_run strftime dry_run g w' H') as (stmts & ->).
    destruct (max_by_created_at (records g)) as [latest|message].
    + cbv zeta.
      set (wk1 := if dry_run then w else run_statements _ w).
      set (wm1 := if dry_run then w' else run_statements _ w').
      assert (Hk1 : no_faults wk1) by (subst wk1; destruct dry_run; assumption).
      assert (Hm1 : no_faults wm1) by (subst wm1; destruct dry_run; assumption).
      clearbody wk1 wm1.
      specialize (IH (acc ++ [ActKeepLatest (rec_id latest)
                                (map rec_id (others latest (records g)))
                                (List.length (records g))]) wk1 wm1 Hk1 Hm1).
      rewrite map_app in IH. exact IH.
    + exists w, w'. repeat split; try assumption. right. exists message. now split.
Qed.

(** X6. [merge] takes for primary the record that [keep_latest] keeps.
    With a database that does not fail, on the same groups, the result of
    [merge] is the result of [keep_latest] with, in each entry, the kept id
    as [primary_id] and the marked ids as [secondary_ids]: the same counts,
    and the same error when a group has no record. *)
Theorem merge_chooses_as_keep_latest (analysis : analysis_result) (dry_run : bool)
        (w : world) :
  no_faults w ->
  fst (resolve_duplicates strftime analysis (str "merge") dry_run w)
  = match fst (resolve_duplicates strftime analysis (str "keep_latest") dry_run w) with
    | Returned (ResolutionDone applied _ groups_processed records_affected actions) =>
        Returned (ResolutionDone applied (str "merge") groups_processed records_affected
                                 (map as_merge actions))
    | o => o
    end.
Proof.
  intro H. unfold resolve_duplicates.
  destruct (is_empty (duplicate_groups analysis)); [reflexivity|].
  unfold connect_db. rewrite attempt_ok by exact H.
  set (w1 := set_pending _ _).
  assert (H1 : no_faults w1) by exact H. clearbody w1.
  unfold try_block, bind.
  destruct (resolve_groups_merge_as_keep_latest dry_run (duplicate_groups analysis)
              [] w1 w1 H1 H1)
    as (wk & wm & Hk & Hm & [(actions & -> & E)|(message & -> & E)]);
    cbn [map] in E; rewrite E; [|reflexivity].
  destruct dry_run; cbn [ret fst negb].
  - do 2 f_equal. apply fold_sizes_as_merge.
  - unfold commit. rewrite !attempt_ok by assumption. unfold ret. cbn [fst].
    do 2 f_equal. apply fold_sizes_as_merge.
Qed.

End MergeChoice.

Lemma merge_chooses_as_keep_latest_witness :
  no_faults sample_world
  /\ fst (resolve_duplicates sample_strftime sample_analysis (str "merge") false sample_world)
     = Returned (ResolutionDone true (str "merge") 1 3 [ActMerge 2 [1; 3] 3]).
Proof.
  split; [exact sample_world_no_faults|].
  exact (merge_chooses_as_keep_latest sample_strftime sample_analysis false sample_world
           sample_world_no_faults).
Defined.

(** ** The rows after [keep_latest] and [flag_only] *)

Lemma subsequence_refl {A : Type} (l : list A) : subsequence l l.
Proof. induction l; now constructor. Qed.

Lemma subsequence_incl {A : Type} (l1 l2 : list A) : subsequence l1 l2 -> incl l1 l2.
Proof.
  induction 1 as [|x l1 l2 _ IH|x l1 l2 _ IH]; intros y Hy.
  - exact Hy.
  - destruct Hy as [<-|Hy]; [now left|right; now apply IH].
  - right. now apply IH.
Qed.

Lemma subsequence_nodup {A : Type} (l1 l2 : list A) :
  subsequence l1 l2 -> NoDup l2 -> NoDup l1.
Proof.
  induction 1 as [|x l1 l2 Hs IH|x l1 l2 _ IH]; intro Hn.
  - exact Hn.
  - apply NoDup_cons_iff in Hn as [Hx Hn]. constructor; [|now apply IH].
    intro H. apply Hx. eapply subsequence_incl; eassumption.
  - apply NoDup_cons_iff in Hn as [_ Hn]. now apply IH.
Qed.

Lemma subsequence_filter {A : Type} (f : A -> bool) (l : list A) :
  subsequence (filter f l) l.
Proof.
  induction l as [|x l IH]; cbn [filter]; [constructor|].
  destruct (f x); now constructor.
Qed.

Lemma subsequence_map {A B : Type} (f : A -> B) (l1 l2 : list A) :
  subsequence l1 l2 -> subsequence (map f l1) (map f l2).
Proof. induction 1; cbn [map]; now constructor. Qed.

Lemma max_from_in (l : list record) (best : record) : In (max_from best l) (best :: l).
Proof.
  revert best; induction l as [|x l IH]; intro best; cbn [max_from]; [now left|].
  destruct (rec_created_at best <? rec_created_at x).
  - right. apply IH.
  - destruct (IH best) as [E|Hin]; [now left|right; now right].
Qed.

Lemma marker_for_none (id : Z) (markers : list (Z * text)) :
  ~ In id (map fst markers) -> marker_for id markers = None.
Proof.
  induction markers as [|[i suffix] markers IH]; cbn [marker_for map fst In]; intro H;
    [reflexivity|].
  destruct (i =? id) eqn:E.
  - apply Z.eqb_eq in E. elim H. now left.
  - apply IH. intro Hin. apply H. now right.
Qed.

(** Markers for distinct ids, run as statements, mark every row once. *)
Lemma apply_marker_statements (markers : list (Z * text)) :
  NoDup (map fst markers) ->
  forall rows,
    apply_statements (map marker_statement markers) rows = map (mark_row markers) rows.
Proof.
  induction markers as [|[i suffix] markers IH]; intros Hn rows.
  - cbn. symmetry. rewrite <- (map_id rows) at 2. apply map_ext. intro r. reflexivity.
  - cbn [map fst] in Hn. apply NoDup_cons_iff in Hn as [Hi Hn].
    cbn [map]. unfold apply_statements. cbn [fold_left].
    change (fold_left (fun rows s => apply_statement s rows) (map marker_statement markers)
                      (apply_statement (marker_statement (i, suffix)) rows))
      with (apply_statements (map marker_statement markers)
                             (apply_statement (marker_statement (i, suffix)) rows)).
    rewrite (IH Hn). unfold marker_statement. cbn [apply_statement fst snd].
    rewrite map_map. apply map_ext. intro r.
    destruct (rec_id r =? i) eqn:E.
    + apply Z.eqb_eq in E. subst i. unfold mark_row. cbn [marker_for rec_id].
      rewrite Z.eqb_refl. rewrite marker_for_none by exact Hi. reflexivity.
    + unfold mark_row at 2. cbn [marker_for]. rewrite Z.eqb_sym, E. reflexivity.
Qed.

Section Marking.

Variable strftime : Z -> text.

Lemma resolve_groups_marking (strategy : text) (gs : list duplicate_group) :
  marking_strategy strategy ->
  Forall (fun g => records g <> []) gs ->
  forall (acc : list resolution_action) (w : world),
    no_faults w ->
    exists actions,
      resolve_groups strftime strategy false gs acc w
      = (Ok (acc ++ actions),
         run_statements (map marker_statement (flat_map markers_of actions)) w)
      /\ Forall2 marks_within gs actions
      /\ Forall2 (fun g a => action_group_size a = List.length (records g)) gs actions
      /\ (strategy = str "flag_only" -> actions = map flag_action gs).
Proof.
  intros Hs. induction 1 as [|g gs Hne _ IH]; intros acc w H; cbn [resolve_groups].
  - exists []. rewrite app_nil_r, run_statements_nil. repeat split; constructor.
  - unfold bind. destruct Hs as [-> | ->].
    + rewrite resolve_group_keep_latest_run by exact H.
      destruct (records g) as [|r0 l] eqn:Hrec; [contradiction|].
      cbn [max_by_created_at]. cbv zeta.
      set (latest := max_from r0 l).
      set (a := ActKeepLatest _ _ _).
      destruct (IH (acc ++ [a]) _
                   (run_statements_no_faults (map marker_statement (markers_of a)) w H))
        as (actions & -> & HF & Hsz & _).
      exists (a :: actions). rewrite <- app_assoc, run_statements_app.
      cbn [flat_map app]. rewrite map_app. split; [reflexivity|].
      split; [|split; [|intro E; discriminate E]].
      * constructor; [|exact HF]. subst a. unfold marks_within, group_ids.
        cbn [markers_of kept_id_of]. rewrite map_map. cbn [fst]. rewrite Hrec. split.
        -- rewrite map_id. apply subsequence_map, subsequence_filter.
        -- intros k E. injection E as <-. split.
           ++ apply in_map. apply max_from_in.
           ++ rewrite map_id. intro Hin. apply in_map_iff in Hin as (r & E & Hr).
              unfold others in Hr. apply filter_In in Hr as [_ Hr].
              rewrite E, Z.eqb_refl in Hr. discriminate Hr.
      * constructor; [|exact Hsz]. subst a. cbn [action_group_size]. now rewrite Hrec.
    + rewrite resolve_group_flag_only_run by exact H.
      destruct (IH (acc ++ [flag_action g]) _
                   (run_statements_no_faults
                      (map marker_statement (markers_of (flag_action g))) w H))
        as (actions & -> & HF & Hsz & Hfl).
      exists (flag_action g :: actions). rewrite <- app_assoc, run_statements_app.
      cbn [flat_map app]. rewrite map_app. split; [reflexivity|].
      split; [|split].
      * constructor; [|exact HF]. unfold marks_within, flag_action, group_ids.
        cbn [markers_of kept_id_of]. rewrite map_map. cbn [fst]. rewrite map_id. split.
        -- apply subsequence_refl.
        -- intros k E. discriminate E.
      * constructor; [|exact Hsz]. reflexivity.
      * intros _. cbn [map]. f_equal. now apply Hfl.
Qed.

Lemma marks_within_nodup (gs : list duplicate_group) (actions : list resolution_action) :
  Forall2 marks_within gs actions ->
  NoDup (all_group_ids gs) ->
  NoDup (map fst (flat_map markers_of actions))
  /\ incl (map fst (flat_map markers_of actions)) (all_group_ids gs)
  /\ forall a k, In a actions -> kept_id_of a = Some k ->
                 In k (all_group_ids gs)
                 /\ ~ In k (map fst (flat_map markers_of actions)).
Proof.
  induction 1 as [|g a gs actions [Hsub Hkept] _ IH]; intro Hn.
  - cbn. repeat split; [constructor|intros x []|destruct H|destruct H].
  - unfold all_group_ids in *. cbn [flat_map] in *. rewrite map_app.
    assert (Hn1 : NoDup (group_ids g)) by (eapply NoDup_app_remove_r; exact Hn).
    assert (Hn2 : NoDup (flat_map group_ids gs)) by (eapply NoDup_app_remove_l; exact Hn).
    assert (Hdis : forall x, In x (group_ids g) -> ~ In x (flat_map group_ids gs)).
    { clear - Hn. induction (group_ids g) as [|y l IHl]; intros x Hx; [destruct Hx|].
      cbn [app] in Hn. apply NoDup_cons_iff in Hn as [Hy Hn].
      destruct Hx as [<-|Hx]; [|now apply IHl].
      intro H. apply Hy. apply in_app_iff. now right. }
    destruct (IH Hn2) as (IHn & IHi & IHk).
    pose proof (subsequence_incl _ _ Hsub) as Hincl.
    split; [|split].
    + apply NoDup_app_intro; [eapply subsequence_nodup; eassumption|exact IHn|].
      intros x Hx Hx'. apply (Hdis x); [now apply Hincl|now apply IHi].
    + intros x Hx. apply in_app_iff in Hx as [Hx|Hx]; apply in_app_iff;
        [left; now apply Hincl|right; now apply IHi].
    + intros a' k [<-|Ha'] Hk.
      * destruct (Hkept k Hk) as (Hin & Hout). split; [apply in_app_iff; now left|].
        intro Hx. apply in_app_iff in Hx as [Hx|Hx]; [now apply Hout|].
        apply (Hdis k Hin). now apply IHi.
      * destruct (IHk a' k Ha' Hk) as (Hin & Hout). split; [apply in_app_iff; now right|].
        intro Hx. apply in_app_iff in Hx as [Hx|Hx]; [|now apply Hout].
        apply (Hdis k); [now apply Hincl|exact Hin].
Qed.

(** X7. What [keep_latest] and [flag_only] leave in the table.  With a
    database that does not fail, groups that have records and share no id,
    the applied resolution returns [resolution_applied], and the table holds
    the rows of before, in their order, none deleted: a row whose id an
    entry marks has got the marker of this entry at the end of its content,
    once; every other row is as it was, and so is the row of every id that
    [keep_latest] keeps.  Under [flag_only] every member of a group is
    marked. *)
Theorem marking_appends_once (analysis : analysis_result) (strategy : text) (w : world) :
  marking_strategy strategy ->
  duplicate_groups analysis <> [] ->
  Forall (fun g => records g <> []) (duplicate_groups analysis) ->
  NoDup (all_group_ids (duplicate_groups analysis)) ->
  no_faults w ->
  exists actions w',
    resolve_duplicates strftime analysis strategy false w
    = (Returned (ResolutionDone true strategy (List.length (duplicate_groups analysis))
                                (sum_group_sizes actions) actions), w')
    /\ table w' = map (mark_row (flat_map markers_of actions)) (table w)
    /\ (forall a k r, In a actions -> kept_id_of a = Some k -> rec_id r = k ->
                      mark_row (flat_map markers_of actions) r = r)
    /\ (strategy = str "flag_only" ->
        actions = map flag_action (duplicate_groups analysis)).
Proof.
  intros Hs Hne HF Hn H. unfold resolve_duplicates.
  rewrite is_empty_false by exact Hne.
  unfold connect_db. rewrite attempt_ok by exact H.
  set (w1 := set_pending _ _).
  assert (H1 : no_faults w1) by exact H.
  assert (Hp1 : pending w1 = Some (table w)) by reflexivity.
  clearbody w1.
  unfold try_block, bind.
  destruct (resolve_groups_marking strategy _ Hs HF [] w1 H1)
    as (actions & -> & Hm & _ & Hfl).
  cbn [app]. unfold commit. rewrite attempt_ok by (apply run_statements_no_faults; exact H1).
  destruct (marks_within_nodup _ _ Hm Hn) as (Hnd & _ & Hk).
  exists actions. eexists. split; [reflexivity|]. split; [|split; [|exact Hfl]].
  - unfold run_statements, close, set_pending, set_table, log.
    cbn [table pending journal faults clock]. rewrite Hp1. cbn [option_map table].
    now apply apply_marker_statements.
  - intros a k r Ha Hka Hr. unfold mark_row.
    rewrite marker_for_none; [reflexivity|]. rewrite Hr. exact (proj2 (Hk a k Ha Hka)).
Qed.

End Marking.

Lemma sample_groups_have_records :
  Forall (fun g => records g <> []) (duplicate_groups sample_analysis).
Proof. repeat constructor. discriminate. Defined.

Lemma sample_groups_share_no_id : NoDup (all_group_ids (duplicate_groups sample_analysis)).
Proof.
  cbn. repeat constructor; cbn; intuition discriminate.
Defined.

Lemma sample_groups_not_empty : duplicate_groups sample_analysis <> [].
Proof. discriminate. Defined.

Lemma marking_appends_once_witness :
  exists actions w',
    resolve_duplicates sample_strftime sample_analysis (str "keep_latest") false sample_world
    = (Returned (ResolutionDone true (str "keep_latest") 1 (sum_group_sizes actions) actions),
       w')
    /\ table w' = map (mark_row (flat_map markers_of actions)) (table sample_world)
    /\ (forall a k r, In a actions -> kept_id_of a = Some k -> rec_id r = k ->
                      mark_row (flat_map markers_of actions) r = r)
    /\ (str "keep_latest" = str "flag_only" ->
        actions = map flag_action (duplicate_groups sample_analysis)).
Proof.
  apply (marking_appends_once sample_strftime sample_analysis (str "keep_latest")
           sample_world).
  - left. reflexivity.
  - exact sample_groups_not_empty.
  - exact sample_groups_have_records.
  - exact sample_groups_share_no_id.
  - exact sample_world_no_faults.
Defined.

Example keep_latest_rows_on_sample :
  map rec_content
      (table (snd (resolve_duplicates sample_strftime sample_analysis (str "keep_latest")
                                      false sample_world)))
  = [str "alpha [DUPLICATE - KEPT ID: 2]"; str "alpha";
     str "alpha [DUPLICATE - KEPT ID: 2]"].
Proof. vm_compute. reflexivity. Qed.

(** On a database that fails at the first update, [keep_latest] returns
    the error and leaves the table alone. *)
Example keep_latest_on_failing_world :
  resolve_duplicates sample_strftime sample_analysis (str "keep_latest") false failing_world
  = (Returned (ResolutionError (str "Error resolving duplicates: connection lost")),
     mkWorld (table failing_world) None
             [EvConnect;
              EvExecute (AppendToContent (str " [DUPLICATE - KEPT ID: 2]") 1);
              EvRollback; EvClose]
             (faults failing_world) 100).
Proof. vm_compute. reflexivity. Qed.


(** ** What the clustering of [find_duplicates] emits *)

(** What the inner loop adds: records of [rest], in their order, each a
    duplicate of the leader, none with a processed id. *)
Lemma scan_candidates_added (self : engine) (content1 : text) (rest : list record) :
  forall (group : list record) (processed : list Z),
  exists added,
    scan_candidates self content1 rest group processed
      = (group ++ added, rev (map rec_id added) ++ processed)
    /\ subsequence added rest
    /\ Forall (fun r => is_duplicate self content1 (rec_content r) = true) added.
Proof.
  induction rest as [|record2 rest IH]; intros group processed; cbn [scan_candidates].
  - exists []. rewrite app_nil_r. repeat split; constructor.
  - destruct (id_in (rec_id record2) processed) eqn:Hin.
    + destruct (IH group processed) as (added & -> & Hs & Hd).
      exists added. repeat split; [now constructor|exact Hd].
    + destruct (is_duplicate self content1 (rec_content record2)) eqn:Hdup.
      * destruct (IH (group ++ [record2]) (rec_id record2 :: processed))
          as (added & -> & Hs & Hd).
        exists (record2 :: added). repeat split.
        -- cbn [map rev]. now rewrite <- !app_assoc.
        -- now constructor.
        -- now constructor.
      * destruct (IH group processed) as (added & -> & Hs & Hd).
        exists added. repeat split; [now constructor|exact Hd].
Qed.

(** With distinct ids the inner loop is a filter. *)
Lemma scan_candidates_filter (self : engine) (content1 : text) (rest : list record) :
  NoDup (map rec_id rest) ->
  forall (group : list record) (processed : list Z),
    scan_candidates self content1 rest group processed
    = (group ++ filter (joins self content1 processed) rest,
       rev (map rec_id (filter (joins self content1 processed) rest)) ++ processed).
Proof.
  induction rest as [|record2 rest IH]; intros Hn group processed;
    cbn [scan_candidates filter].
  - now rewrite app_nil_r.
  - cbn [map] in Hn. apply NoDup_cons_iff in Hn as [Hfresh Hn].
    destruct (id_in (rec_id record2) processed) eqn:Hin.
    + assert (J : joins self content1 processed record2 = false)
        by (unfold joins; now rewrite Hin).
      rewrite J. now apply IH.
    + destruct (is_duplicate self content1 (rec_content record2)) eqn:Hdup.
      * assert (J : joins self content1 processed record2 = true)
          by (unfold joins; now rewrite Hin, Hdup).
        rewrite J, (IH Hn).
        assert (E : filter (joins self content1 (rec_id record2 :: processed)) rest
                    = filter (joins self content1 processed) rest).
        { apply filter_ext_in. intros r Hr. unfold joins, id_in. cbn [existsb].
          replace (rec_id r =? rec_id record2) with false; [reflexivity|].
          symmetry. apply Z.eqb_neq. intro E. apply Hfresh. rewrite <- E.
          now apply in_map. }
        rewrite E. cbn [map rev]. now rewrite <- !app_assoc.
      * assert (J : joins self content1 processed record2 = false)
          by (unfold joins; now rewrite Hin, Hdup).
        rewrite J. now apply IH.
Qed.

(** The outer loop appends to the groups it has; what it appends is
    numbered from the number of groups it had, holds groups of a leader and
    at least one duplicate of it, and keeps the order of the records. *)
Lemma cluster_loop_appends (self : engine) (rows : list record) :
  forall (gs : list duplicate_group) (processed : list Z),
  exists new,
    cluster_loop self rows gs processed = gs ++ new
    /\ map group_id new = seq (List.length gs) (List.length new)
    /\ Forall (fun g =>
                 count g = List.length (records g)
                 /\ (2 <= count g)%nat
                 /\ subsequence (records g) rows
                 /\ exists leader members,
                      records g = leader :: members
                      /\ similarity_scores g
                         = map (fun r => calculate_similarity (engine_weights self)
                                           (rec_content leader) (rec_content r)) members
                      /\ Forall (fun r => is_duplicate self (rec_content leader)
                                                       (rec_content r) = true) members)
              new
    /\ subsequence (leaders new) rows.
Proof.
  induction rows as [|record1 rest IH]; intros gs processed; cbn [cluster_loop].
  - exists []. rewrite app_nil_r. repeat split; constructor.
  - destruct (id_in (rec_id record1) processed).
    + destruct (IH gs processed) as (new & -> & Hid & HF & Hl).
      exists new. repeat split; [exact Hid| |now constructor].
      eapply Forall_impl; [|exact HF]. intros g (Hc & H2 & Hs & Hg).
      repeat split; [exact Hc|exact H2|now constructor|exact Hg].
    + destruct (scan_candidates_added self (rec_content record1) rest [record1] processed)
        as (added & -> & Hsub & Hdup).
      cbn [app].
      destruct (1 <? List.length (record1 :: added))%nat eqn:Hlen.
      * destruct (IH (gs ++ [make_group self (List.length gs) (record1 :: added)])
                     (rec_id record1 :: rev (map rec_id added) ++ processed))
          as (new & -> & Hid & HF & Hl).
        exists (make_group self (List.length gs) (record1 :: added) :: new).
        rewrite <- app_assoc. split; [reflexivity|].
        rewrite length_app in Hid. cbn [List.length] in Hid.
        replace (List.length gs + 1)%nat with (S (List.length gs)) in Hid by lia.
        split; [|split].
        -- cbn [map List.length seq make_group group_id]. now rewrite Hid.
        -- constructor.
           ++ cbn [make_group count records similarity_scores].
              apply Nat.ltb_lt in Hlen. repeat split; [lia|now constructor|].
              exists record1, added. now repeat split.
           ++ eapply Forall_impl; [|exact HF]. intros g (Hc & H2 & Hs & Hg).
              repeat split; [exact Hc|exact H2|now constructor|exact Hg].
        -- unfold leaders. cbn [flat_map make_group records firstn app].
           now constructor.
      * destruct (IH gs (rec_id record1 :: rev (map rec_id added) ++ processed))
          as (new & -> & Hid & HF & Hl).
        exists new. repeat split; [exact Hid| |now constructor].
        eapply Forall_impl; [|exact HF]. intros g (Hc & H2 & Hs & Hg).
        repeat split; [exact Hc|exact H2|now constructor|exact Hg].
Qed.

(** X8. The shape of the groups of [find_duplicates].  The groups are
    numbered 0, 1, 2, ... in the order of the list.  In every group,
    [count] is the number of [records] and is at least 2; the first record
    is the leader, and [similarity_scores] holds, for each of the other
    records in order, its scores against the leader, so one entry less than
    [records]; the composite score of each entry reaches the threshold. *)
Theorem find_duplicates_group_shape (self : engine) (rows : list record) :
  let gs := duplicate_groups (find_duplicates self rows) in
  map group_id gs = seq 0 (List.length gs)
  /\ Forall (fun g =>
               count g = List.length (records g)
               /\ (2 <= count g)%nat
               /\ S (List.length (similarity_scores g)) = count g
               /\ exists leader members,
                    records g = leader :: members
                    /\ similarity_scores g
                       = map (fun r => calculate_similarity (engine_weights self)
                                         (rec_content leader) (rec_content r)) members
                    /\ Forall (fun s => F64.geb (composite_similarity s)
                                                (similarity_threshold self) = true)
                              (similarity_scores g))
            gs.
Proof.
  cbv zeta. unfold find_duplicates, find_duplicate_groups. cbn [duplicate_groups].
  destruct (cluster_loop_appends self rows [] []) as (new & -> & Hid & HF & _).
  cbn [app List.length] in *. split; [exact Hid|].
  eapply Forall_impl; [|exact HF].
  intros g (Hc & H2 & _ & leader & members & Hrec & Hsc & Hdup).
  repeat split; [exact Hc|exact H2| |].
  - rewrite Hc, Hrec, Hsc, length_map. reflexivity.
  - exists leader, members. repeat split; [exact Hrec|exact Hsc|].
    rewrite Hsc. apply Forall_map. exact Hdup.
Qed.

(** X9. The groups of [find_duplicates] keep the order of the query.
    The records of every group stand in the group in the order they have in
    the result of the query, the leader being the earliest of them, and the
    groups are listed in the order of their leaders in that result. *)
Theorem find_duplicates_keeps_order (self : engine) (rows : list record) :
  let gs := duplicate_groups (find_duplicates self rows) in
  Forall (fun g => subsequence (records g) rows) gs
  /\ subsequence (leaders gs) rows.
Proof.
  cbv zeta. unfold find_duplicates, find_duplicate_groups. cbn [duplicate_groups].
  destruct (cluster_loop_appends self rows [] []) as (new & -> & _ & HF & Hl).
  cbn [app]. split; [|exact Hl].
  eapply Forall_impl; [|exact HF]. intros g (_ & _ & Hs & _). exact Hs.
Qed.

Lemma all_group_ids_cons (g : duplicate_group) (gs : list duplicate_group) :
  all_group_ids (g :: gs) = group_ids g ++ all_group_ids gs.
Proof. reflexivity. Qed.

Lemma follower_ids_cons (g : duplicate_group) (gs : list duplicate_group) :
  follower_ids (g :: gs) = map rec_id (skipn 1 (records g)) ++ follower_ids gs.
Proof. reflexivity. Qed.

(** With distinct ids: of two records of the query, the earlier not a
    follower in what the loop appends and not processed, the later a
    duplicate of the earlier, the later is processed or ends in a group. *)
Lemma cluster_loop_complete (self : engine) (rows : list record) :
  forall (gs : list duplicate_group) (processed : list Z),
    NoDup (map rec_id rows) ->
    exists new,
      cluster_loop self rows gs processed = gs ++ new
      /\ forall l1 a l2 b l3,
           rows = l1 ++ a :: l2 ++ b :: l3 ->
           is_duplicate self (rec_content a) (rec_content b) = true ->
           ~ In (rec_id a) processed ->
           ~ In (rec_id a) (follower_ids new) ->
           In (rec_id b) processed \/ In (rec_id b) (all_group_ids new).
Proof.
  induction rows as [|record1 rest IH]; intros gs processed Hn; cbn [cluster_loop].
  - exists []. rewrite app_nil_r. split; [reflexivity|].
    intros l1 a l2 b l3 E. now destruct l1.
  - cbn [map] in Hn. apply NoDup_cons_iff in Hn as [Hfresh Hn].
    destruct (id_in (rec_id record1) processed) eqn:Hin.
    + destruct (IH gs processed Hn) as (new & -> & Hnew).
      exists new. split; [reflexivity|].
      intros l1 a l2 b l3 E Hdup Ha Hf.
      destruct l1 as [|x l1]; cbn [app] in E; injection E as E1 E2.
      * subst a. apply id_in_iff in Hin. contradiction.
      * eapply Hnew; eassumption.
    + apply id_in_false in Hin.
      rewrite (scan_candidates_filter self (rec_content record1) rest Hn).
      cbn [app].
      set (added := filter (joins self (rec_content record1) processed) rest).
      set (gs' := if (1 <? List.length (record1 :: added))%nat
                  then gs ++ [make_group self (List.length gs) (record1 :: added)]
                  else gs).
      destruct (IH gs' (rec_id record1 :: rev (map rec_id added) ++ processed) Hn)
        as (new & -> & Hnew).
      assert (Hgs' : exists g1s,
                 gs' = gs ++ g1s
                 /\ (added <> [] ->
                     g1s = [make_group self (List.length gs) (record1 :: added)])
                 /\ (added = [] -> g1s = [])).
      { subst gs'. destruct added as [|x added'].
        - exists []. rewrite app_nil_r. repeat split. intro H. now elim H.
        - eexists. split; [reflexivity|]. split; [reflexivity|]. discriminate. }
      destruct Hgs' as (g1s & -> & Hsome & Hnone).
      assert (Hfilter : forall r, In r rest ->
                          joins self (rec_content record1) processed r = true ->
                          In r added)
        by (intros r Hr Hj; apply filter_In; now split).
      assert (Hrest : incl added rest) by (intros r Hr; now apply filter_In in Hr).
      clearbody added.
      exists (g1s ++ new). rewrite <- app_assoc. split; [reflexivity|].
      assert (Hadded : forall r, In r added ->
                         In (rec_id r) (all_group_ids (g1s ++ new))
                         /\ In (rec_id r) (follower_ids (g1s ++ new))).
      { intros r Hr. assert (Hne : added <> []) by (intro E; subst added; destruct Hr).
        rewrite (Hsome Hne). cbn [app]. rewrite all_group_ids_cons, follower_ids_cons.
        unfold group_ids. cbn [make_group records skipn map].
        split; apply in_app_iff; left; [right|]; now apply in_map. }
      intros l1 a l2 b l3 E Hdup Ha Hf.
      destruct l1 as [|x l1]; cbn [app] in E; injection E as E1 E2.
      * subst a.
        destruct (id_in (rec_id b) processed) eqn:Hb; [left; now apply id_in_iff|].
        right. apply Hadded. apply Hfilter.
        -- rewrite E2. apply in_app_iff. right. now left.
        -- unfold joins. now rewrite Hb, Hdup.
      * subst x.
        assert (Hain : In a rest) by (rewrite E2; apply in_app_iff; right; now left).
        assert (Hbin : In b rest).
        { rewrite E2. apply in_app_iff. right. right. apply in_app_iff. right. now left. }
        assert (Hids : forall r, In r rest -> rec_id r <> rec_id record1).
        { intros r Hr E. apply Hfresh. rewrite <- E. now apply in_map. }
        assert (Hrev : forall i, In i (rev (map rec_id added)) ->
                         exists r, In r added /\ rec_id r = i).
        { intros i Hi. apply in_rev in Hi. apply in_map_iff in Hi as (r & E & Hr).
          now exists r. }
        assert (Hf' : ~ In (rec_id a) (follower_ids new)).
        { intro Hi. apply Hf. unfold follower_ids. rewrite flat_map_app.
          apply in_app_iff. now right. }
        destruct (Hnew l1 a l2 b l3 E2 Hdup) as [Hb|Hb].
        -- intros [E|Hi]; [now apply (Hids a Hain)|].
           apply in_app_iff in Hi as [Hi|Hi]; [|now apply Ha].
           destruct (Hrev _ Hi) as (r & Hr & E). apply Hf.
           rewrite <- E. apply (Hadded r Hr).
        -- exact Hf'.
        -- destruct Hb as [E|Hb]; [now elim (Hids b Hbin)|].
           apply in_app_iff in Hb as [Hb|Hb]; [|now left].
           destruct (Hrev _ Hb) as (r & Hr & E). right.
           rewrite <- E. apply (Hadded r Hr).
        -- right. rewrite all_group_ids_app. apply in_app_iff. now right.
Qed.

(** X10. The clustering leaves no duplicate of a leader out.  With
    distinct ids: when a record comes before another in the result of the
    query, the later scores at least the threshold against the earlier, and
    the earlier is not a follower in a group (it leads a group or is in
    none), then the later is in a group.  So of two records that are in no
    group, the later never reaches the threshold against the earlier. *)
Theorem find_duplicates_leaves_no_duplicate_out (self : engine) (rows : list record)
        (l1 l2 l3 : list record) (a b : record) :
  NoDup (map rec_id rows) ->
  rows = l1 ++ a :: l2 ++ b :: l3 ->
  is_duplicate self (rec_content a) (rec_content b) = true ->
  let gs := duplicate_groups (find_duplicates self rows) in
  ~ In (rec_id a) (follower_ids gs) ->
  In (rec_id b) (all_group_ids gs).
Proof.
  intros Hn E Hdup. cbv zeta.
  unfold find_duplicates, find_duplicate_groups. cbn [duplicate_groups].
  destruct (cluster_loop_complete self rows [] [] Hn) as (new & -> & Hnew).
  cbn [app]. intro Hf.
  destruct (Hnew l1 a l2 b l3 E Hdup (fun H => H) Hf) as [[]|H]. exact H.
Qed.

(** X11. The counts of [find_duplicates].  [duplicate_records] is the
    number of members of all the groups; with distinct ids it is at least
    twice the number of groups and at most [total_records], so that the
    duplicate rate cannot exceed 100 percent. *)
Theorem find_duplicates_counts (self : engine) (rows : list record) :
  NoDup (map rec_id rows) ->
  let r := find_duplicates self rows in
  duplicate_records r = List.length (all_group_ids (duplicate_groups r))
  /\ (2 * List.length (duplicate_groups r) <= duplicate_records r)%nat
  /\ (duplicate_records r <= total_records r)%nat
  /\ total_records r = List.length rows.
Proof.
  intro Hn. cbv zeta.
  pose proof (cluster_loop_ids self rows [] [] Hn (NoDup_nil _) (incl_refl _)) as Hnd.
  assert (Hincl : incl (all_group_ids (find_duplicate_groups self rows)) (map rec_id rows)).
  { intros i Hi. unfold all_group_ids in Hi. apply in_flat_map in Hi as (g & Hg & Hi).
    destruct (cluster_loop_from self rows [] [] g Hg) as [[]|Hr].
    unfold group_ids in Hi. apply in_map_iff in Hi as (r & <- & Hr').
    apply in_map. now apply Hr. }
  unfold find_duplicates. cbn [duplicate_records duplicate_groups total_records].
  unfold find_duplicate_groups in *.
  destruct (cluster_loop_appends self rows [] []) as (new & E & _ & HF & _).
  rewrite E in *. cbn [app] in *. clear E.
  assert (Hsum : forall n,
             fold_left (fun acc g => (acc + count g)%nat) new n
             = (n + List.length (all_group_ids new))%nat
             /\ (2 * List.length new <= List.length (all_group_ids new))%nat).
  { clear Hnd Hincl. induction HF as [|g new (Hc & H2 & _) _ IH]; intro n.
    - cbn. lia.
    - cbn [fold_left List.length]. rewrite all_group_ids_cons, length_app.
      destruct (IH (n + count g)%nat) as (-> & Hle).
      unfold group_ids. rewrite length_map. rewrite <- Hc. lia. }
  destruct (Hsum 0%nat) as (-> & Hle). cbn [Nat.add].
  repeat split; [exact Hle|].
  rewrite <- (length_map rec_id rows). apply NoDup_incl_length; assumption.
Qed.

Lemma sample_records_distinct : NoDup (map rec_id sample_records).
Proof. cbn. repeat constructor; cbn; intuition discriminate. Defined.

Lemma find_duplicates_leaves_no_duplicate_out_witness :
  In 2 (all_group_ids (duplicate_groups (find_duplicates default_engine sample_records))).
Proof.
  apply (find_duplicates_leaves_no_duplicate_out default_engine sample_records
           [] [] [mkRecord 3 (str "Down") 10]
           (mkRecord 1 (str "Up 10:00:01") 30) (mkRecord 2 (str "Up 10:00:02") 20)).
  - exact sample_records_distinct.
  - reflexivity.
  - vm_compute. reflexivity.
  - vm_compute. intuition discriminate.
Defined.

Lemma find_duplicates_counts_witness :
  let r := find_duplicates default_engine sample_records in
  duplicate_records r = List.length (all_group_ids (duplicate_groups r))
  /\ (2 * List.length (duplicate_groups r) <= duplicate_records r)%nat
  /\ (duplicate_records r <= total_records r)%nat
  /\ total_records r = List.length sample_records.
Proof.
  exact (find_duplicates_counts default_engine sample_records sample_records_distinct).
Defined.

(** ** Resolving what [find_duplicates] found *)

Lemma latest_first_subsequence (l1 l2 : list record) :
  subsequence l1 l2 -> latest_first l2 -> latest_first l1.
Proof.
  induction 1 as [|x l1 l2 Hs IH|x l1 l2 Hs IH]; cbn [latest_first].
  - trivial.
  - intros (Hx & Hl). split; [|now apply IH].
    intros r Hr. apply Hx. eapply subsequence_incl; eassumption.
  - intros (_ & Hl). now apply IH.
Qed.

Lemma max_from_first (l : list record) (best : record) :
  (forall r, In r l -> rec_created_at r <= rec_created_at best) ->
  max_from best l = best.
Proof.
  induction l as [|x l IH]; intro H; cbn [max_from]; [reflexivity|].
  replace (rec_created_at best <? rec_created_at x) with false.
  - apply IH. intros r Hr. apply H. now right.
  - symmetry. apply Z.ltb_ge. apply H. now left.
Qed.

Lemma fold_sizes_counts (gs : list duplicate_group) (actions : list resolution_action) :
  Forall2 (fun g a => action_group_size a = count g) gs actions ->
  forall n,
    fold_left (fun acc a => (acc + action_group_size a)%nat) actions n
    = fold_left (fun acc g => (acc + count g)%nat) gs n.
Proof.
  induction 1 as [|g a gs actions E _ IH]; intro n; cbn [fold_left]; [reflexivity|].
  now rewrite E, IH.
Qed.

Section ResolvingFound.

Variable strftime : Z -> text.

(** With a strategy that has a branch, groups that have records and a
    database that does not fail, the loop gives one entry for each group,
    of the size of the group. *)
Lemma resolve_groups_known (strategy : text) (dry_run : bool) (gs : list duplicate_group) :
  known_strategy strategy ->
  Forall (fun g => records g <> []) gs ->
  forall (acc : list resolution_action) (w : world),
    no_faults w ->
    exists actions w',
      resolve_groups strftime strategy dry_run gs acc w = (Ok (acc ++ actions), w')
      /\ no_faults w'
      /\ Forall2 (fun g a => action_group_size a = List.length (records g)) gs actions
      /\ (strategy = str "keep_latest" ->
          Forall2 (fun g a =>
                     exists latest,
                       max_by_created_at (records g) = Ok latest
                       /\ a = ActKeepLatest (rec_id latest)
                                            (map rec_id (others latest (records g)))
                                            (List.length (records g)))
                  gs actions).
Proof.
  intros Hs. induction 1 as [|g gs Hne _ IH]; intros acc w H; cbn [resolve_groups].
  - exists [], w. rewrite app_nil_r. repeat split; try assumption; constructor.
  - unfold bind.
    assert (Hmax : exists latest, max_by_created_at (records g) = Ok latest).
    { destruct (records g) as [|r0 l]; [contradiction|]. now eexists. }
    destruct Hmax as (latest & Hmax).
    destruct Hs as [-> | [-> | ->]].
    + rewrite resolve_group_keep_latest_run by exact H. rewrite Hmax. cbv zeta.
      set (a := ActKeepLatest _ _ _).
      set (w1 := if dry_run then w else _).
      assert (H1 : no_faults w1) by (subst w1; destruct dry_run; assumption).
      destruct (IH (acc ++ [a]) w1 H1) as (actions & w' & -> & H' & Hsz & Hk).
      exists (a :: actions), w'. rewrite <- app_assoc.
      repeat split; [exact H'|now constructor|].
      intros _. constructor; [now exists latest|now apply Hk].
    + destruct (resolve_group_merge_run strftime dry_run g w H) as (stmts & ->).
      rewrite Hmax.
      set (a := ActMerge _ _ _).
      set (w1 := if dry_run then w else _).
      assert (H1 : no_faults w1) by (subst w1; destruct dry_run; assumption).
      destruct (IH (acc ++ [a]) w1 H1) as (actions & w' & -> & H' & Hsz & _).
      exists (a :: actions), w'. rewrite <- app_assoc.
      repeat split; [exact H'|now constructor|].
      intro E. discriminate E.
    + rewrite resolve_group_flag_only_run by exact H.
      set (w1 := if dry_run then w else _).
      assert (H1 : no_faults w1) by (subst w1; destruct dry_run; assumption).
      destruct (IH (acc ++ [flag_action g]) w1 H1) as (actions & w' & -> & H' & Hsz & _).
      exists (flag_action g :: actions), w'. rewrite <- app_assoc.
      repeat split; [exact H'|now constructor|].
      intro E. discriminate E.
Qed.

Lemma found_groups_have_records (self : engine) (rows : list record) :
  Forall (fun g => records g <> [])
         (duplicate_groups (find_duplicates self rows)).
Proof.
  unfold find_duplicates, find_duplicate_groups. cbn [duplicate_groups].
  destruct (cluster_loop_appends self rows [] []) as (new & -> & _ & HF & _).
  cbn [app]. eapply Forall_impl; [|exact HF].
  intros g (_ & _ & _ & leader & members & -> & _). discriminate.
Qed.

Lemma found_groups_count (self : engine) (rows : list record) :
  Forall (fun g => count g = List.length (records g))
         (duplicate_groups (find_duplicates self rows)).
Proof.
  unfold find_duplicates, find_duplicate_groups. cbn [duplicate_groups].
  destruct (cluster_loop_appends self rows [] []) as (new & -> & _ & HF & _).
  cbn [app]. eapply Forall_impl; [|exact HF].
  intros g (Hc & _). exact Hc.
Qed.

(** X12. Resolving what [find_duplicates] found.  With a strategy among
    [keep_latest], [merge] and [flag_only] and a database that does not
    fail, [resolve_duplicates] on the result of [find_duplicates] never ends
    in [error]: it returns one entry for each group, and
    [records_affected] is the [duplicate_records] of the analysis, so it
    counts the kept or primary record of each group too. *)
Theorem resolving_found_duplicates (self : engine) (rows : list record)
        (strategy : text) (dry_run : bool) (w : world) :
  known_strategy strategy ->
  no_faults w ->
  let analysis := find_duplicates self rows in
  duplicate_groups analysis <> [] ->
  exists actions w',
    resolve_duplicates strftime analysis strategy dry_run w
    = (Returned (ResolutionDone (negb dry_run) strategy
                                (List.length (duplicate_groups analysis))
                                (duplicate_records analysis) actions), w')
    /\ List.length actions = List.length (duplicate_groups analysis).
Proof.
  intros Hs H. cbv zeta. intro Hne. unfold resolve_duplicates.
  rewrite is_empty_false by exact Hne.
  unfold connect_db. rewrite attempt_ok by exact H.
  set (w1 := set_pending _ _).
  assert (H1 : no_faults w1) by exact H. clearbody w1.
  unfold try_block, bind.
  destruct (resolve_groups_known strategy dry_run _ Hs (found_groups_have_records self rows)
              [] w1 H1) as (actions & w2 & -> & H2 & Hsz & _).
  cbn [app].
  assert (Hsum : fold_left (fun acc a => (acc + action_group_size a)%nat) actions 0%nat
                 = duplicate_records (find_duplicates self rows)).
  { unfold find_duplicates at 1. cbn [duplicate_records].
    apply fold_sizes_counts.
    pose proof (found_groups_count self rows) as Hc.
    unfold find_duplicates in Hsz, Hc. cbn [duplicate_groups] in Hsz, Hc.
    clear - Hsz Hc. induction Hsz as [|g a gs actions E _ IH]; constructor.
    - apply Forall_inv in Hc. congruence.
    - apply IH. eapply Forall_inv_tail. exact Hc. }
  assert (Hlen : List.length actions
                 = List.length (duplicate_groups (find_duplicates self rows))).
  { symmetry. eapply Forall2_length. exact Hsz. }
  destruct dry_run; cbn [ret negb].
  - rewrite Hsum. now eexists _, _.
  - unfold commit. rewrite attempt_ok by exact H2. unfold ret. rewrite Hsum.
    now eexists _, _.
Qed.

(** X13. On the rows of the query, [keep_latest] keeps the leaders.
    [find_duplicates] reads the rows with [created_at] descending.  With
    rows in that order and distinct ids, and a database that does not fail,
    [keep_latest] keeps in every group of the analysis the leader, the
    record the similarity scores of the group were computed against, and
    marks all the other records of the group. *)
Theorem keep_latest_keeps_leaders (self : engine) (rows : list record)
        (dry_run : bool) (w : world) :
  NoDup (map rec_id rows) ->
  latest_first rows ->
  no_faults w ->
  let analysis := find_duplicates self rows in
  duplicate_groups analysis <> [] ->
  exists affected actions w',
    resolve_duplicates strftime analysis (str "keep_latest") dry_run w
    = (Returned (ResolutionDone (negb dry_run) (str "keep_latest")
                                (List.length (duplicate_groups analysis))
                                affected actions), w')
    /\ Forall2 keeps_leader (duplicate_groups analysis) actions.
Proof.
  intros Hn Hlf H. cbv zeta. intro Hne. unfold resolve_duplicates.
  rewrite is_empty_false by exact Hne.
  unfold connect_db. rewrite attempt_ok by exact H.
  set (w1 := set_pending _ _).
  assert (H1 : no_faults w1) by exact H. clearbody w1.
  unfold try_block, bind.
  destruct (resolve_groups_known (str "keep_latest") dry_run _
              (or_introl eq_refl) (found_groups_have_records self rows) [] w1 H1)
    as (actions & w2 & -> & H2 & _ & Hk).
  specialize (Hk eq_refl). cbn [app].
  assert (HF : Forall2 keeps_leader (duplicate_groups (find_duplicates self rows)) actions).
  { unfold find_duplicates, find_duplicate_groups in *. cbn [duplicate_groups] in *.
    destruct (cluster_loop_appends self rows [] []) as (new & E & _ & Hshape & _).
    rewrite E in *. cbn [app] in *. clear E Hne.
    induction Hk as [|g a gs actions (latest & Hmax & Ha) _ IH]; constructor.
    - apply Forall_inv in Hshape.
      destruct Hshape as (_ & _ & Hsub & leader & members & Hrec & _).
      exists leader, members. split; [exact Hrec|].
      rewrite Hrec in *. cbn [max_by_created_at] in Hmax. injection Hmax as <-.
      pose proof (latest_first_subsequence _ _ Hsub Hlf) as (Hle & _).
      rewrite (max_from_first _ _ Hle) in Ha. rewrite Ha. f_equal.
      assert (Hnd : NoDup (map rec_id ([] ++ leader :: members))).
      { cbn [app]. eapply subsequence_nodup; [|exact Hn]. now apply subsequence_map. }
      pose proof (others_split [] members leader Hnd) as Ho. cbn [app] in Ho.
      now rewrite Ho.
    - apply IH. eapply Forall_inv_tail. exact Hshape. }
  destruct dry_run; cbn [ret negb].
  - now eexists _, _, _.
  - unfold commit. rewrite attempt_ok by exact H2. unfold ret.
    now eexists _, _, _.
Qed.

End ResolvingFound.

Lemma keep_latest_known : known_strategy (str "keep_latest").
Proof. left. reflexivity. Defined.

Lemma sample_records_found : duplicate_groups (find_duplicates default_engine sample_records) <> [].
Proof. vm_compute. discriminate. Defined.

Lemma sample_records_latest_first : latest_first sample_records.
Proof.
  cbn. repeat split; intros r' H; repeat (destruct H as [<-|H]; [cbn; lia|]); destruct H.
Defined.

Lemma resolving_found_duplicates_witness :
  exists actions w',
    resolve_duplicates sample_strftime (find_duplicates default_engine sample_records)
                       (str "keep_latest") true sample_world
    = (Returned (ResolutionDone (negb true) (str "keep_latest")
                   (List.length (duplicate_groups
                                   (find_duplicates default_engine sample_records)))
                   (duplicate_records (find_duplicates default_engine sample_records))
                   actions), w')
    /\ List.length actions
       = List.length (duplicate_groups (find_duplicates default_engine sample_records)).
Proof.
  exact (resolving_found_duplicates sample_strftime default_engine sample_records
           (str "keep_latest") true sample_world keep_latest_known sample_world_no_faults
           sample_records_found).
Defined.

Lemma keep_latest_keeps_leaders_witness :
  exists affected actions w',
    resolve_duplicates sample_strftime (find_duplicates default_engine sample_records)
                       (str "keep_latest") true sample_world
    = (Returned (ResolutionDone (negb true) (str "keep_latest")
                   (List.length (duplicate_groups
                                   (find_duplicates default_engine sample_records)))
                   affected actions), w')
    /\ Forall2 keeps_leader
               (duplicate_groups (find_duplicates default_engine sample_records)) actions.
Proof.
  exact (keep_latest_keeps_leaders sample_strftime default_engine sample_records
           true sample_world sample_records_distinct sample_records_latest_first
           sample_world_no_faults sample_records_found).
Defined.

(** ** The regular expressions and [normalize_text] *)

Lemma repeat_match_suffix (p : ascii -> bool) (k : text -> option text) :
  (forall s rest, k s = Some rest -> (List.length rest <= List.length s)%nat) ->
  forall s lo hi rest,
    Re.repeat_match p k lo hi s = Some rest -> (List.length rest <= List.length s)%nat.
Proof.
  intros Hk. induction s as [|c s IH]; intros lo hi rest; cbn [Re.repeat_match].
  - destruct lo; [apply Hk|discriminate].
  - assert (Hstop : match lo with O => k (c :: s) | S _ => None end = Some rest ->
                    (List.length rest <= List.length (c :: s))%nat).
    { destruct lo; [apply Hk|discriminate]. }
    destruct (Re.can_take hi && p c); [|exact Hstop].
    destruct (Re.repeat_match p k (pred lo) (Re.dec hi) s) as [rest'|] eqn:E;
      [|exact Hstop].
    intro H. injection H as <-. apply IH in E. cbn [List.length]. lia.
Qed.

Lemma match_here_suffix (ic : bool) (r : Re.regex) :
  forall s rest,
    Re.match_here ic r s = Some rest -> (List.length rest <= List.length s)%nat.
Proof.
  induction r as [|it r IH]; intros s rest; cbn [Re.match_here].
  - intro H. injection H as <-. lia.
  - apply repeat_match_suffix. exact IH.
Qed.

(** A pattern whose first atom is wanted at least once matches only where
    this atom does, and then matches at least one character. *)
Lemma match_here_first (ic : bool) (a : Re.atom) (n : nat) (hi : option nat)
      (r : Re.regex) (c : ascii) (s rest : text) :
  Re.match_here ic (Re.Item a (S n) hi :: r) (c :: s) = Some rest ->
  Re.atom_matches ic a c = true /\ (List.length rest <= List.length s)%nat.
Proof.
  cbn [Re.match_here Re.it_atom Re.it_min Re.it_max Re.repeat_match].
  destruct (Re.can_take hi && Re.atom_matches ic a c) eqn:E; [|discriminate].
  apply andb_true_iff in E as [_ E].
  destruct (Re.repeat_match (Re.atom_matches ic a) (Re.match_here ic r) (pred (S n))
                            (Re.dec hi) s) as [rest'|] eqn:E'; [|discriminate].
  intro H. injection H as <-. split; [exact E|].
  eapply repeat_match_suffix; [|exact E']. apply match_here_suffix.
Qed.

Lemma match_here_first_fails (ic : bool) (a : Re.atom) (n : nat) (hi : option nat)
      (r : Re.regex) (c : ascii) (s : text) :
  Re.atom_matches ic a c = false ->
  Re.match_here ic (Re.Item a (S n) hi :: r) (c :: s) = None.
Proof.
  intro H.
  destruct (Re.match_here ic (Re.Item a (S n) hi :: r) (c :: s)) as [rest|] eqn:E;
    [|reflexivity].
  apply match_here_first in E as [E _]. congruence.
Qed.

Lemma repeat_match_zero (p : ascii -> bool) (hi : option nat) (s : text) :
  Re.repeat_match p (fun s => Some s) 0 hi s <> None.
Proof.
  destruct s as [|c s]; cbn [Re.repeat_match]; [discriminate|].
  destruct (Re.can_take hi && p c); [|discriminate].
  destruct (Re.repeat_match p (fun s0 => Some s0) (pred 0) (Re.dec hi) s); discriminate.
Qed.

(** A pattern of one atom, wanted once or more, matches wherever the atom
    does. *)
Lemma kept_at_single (a : Re.atom) (hi : option nat) (c : ascii) (s : text) :
  Re.can_take hi = true ->
  kept_at [Re.Item a 1 hi] (c :: s) -> Re.atom_matches false a c = false.
Proof.
  intros Hhi. unfold kept_at.
  destruct (Re.match_here false [Re.Item a 1 hi] (c :: s)) as [rest|] eqn:E.
  - apply match_here_first in E as [_ E]. cbn [List.length]. lia.
  - intros _. cbn [Re.match_here Re.it_atom Re.it_min Re.it_max Re.repeat_match] in E.
    rewrite Hhi in E. cbn [andb] in E.
    destruct (Re.atom_matches false a c); [|reflexivity].
    cbn [pred] in E.
    pose proof (repeat_match_zero (Re.atom_matches false a) (Re.dec hi) s) as Hz.
    destruct (Re.repeat_match (Re.atom_matches false a) (fun s0 => Some s0) 0
                              (Re.dec hi) s); [discriminate|now elim Hz].
Qed.

(** What [re.sub] returns is made of the replacement and of the characters
    of the text where the pattern does not match. *)
Lemma sub_from_chars (r : Re.regex) (repl : text) (s : text) :
  forall skip c,
    In c (Re.sub_from r repl skip s) ->
    In c repl \/ exists s1 s2, s = s1 ++ c :: s2 /\ kept_at r (c :: s2).
Proof.
  induction s as [|c0 s IH]; intros skip c; cbn [Re.sub_from]; [intros []|].
  assert (Hrest : forall n, In c (Re.sub_from r repl n s) ->
                    In c repl \/ exists s1 s2, c0 :: s = s1 ++ c :: s2
                                               /\ kept_at r (c :: s2)).
  { intros n H. apply IH in H as [H|(s1 & s2 & -> & Hk)]; [now left|right].
    now exists (c0 :: s1), s2. }
  destruct skip as [|n]; [|apply Hrest].
  assert (Hkeep : kept_at r (c0 :: s) -> In c (c0 :: Re.sub_from r repl 0 s) ->
                  In c repl \/ exists s1 s2, c0 :: s = s1 ++ c :: s2
                                             /\ kept_at r (c :: s2)).
  { intros Hk [<-|H]; [|now apply (Hrest 0%nat)]. right. now exists [], s. }
  destruct (Re.match_here false r (c0 :: s)) as [rest|] eqn:E.
  - destruct (List.length (c0 :: s) - List.length rest)%nat eqn:El.
    + apply Hkeep. unfold kept_at. rewrite E. exact El.
    + intro H. apply in_app_iff in H as [H|H]; [now left|now apply (Hrest n)].
  - apply Hkeep. unfold kept_at. now rewrite E.
Qed.

Lemma sub_delete_incl (r : Re.regex) (s : text) (c : ascii) :
  In c (Re.sub r [] s) -> In c s.
Proof.
  intro H. apply sub_from_chars in H as [[]|(s1 & s2 & -> & _)].
  apply in_app_iff. right. now left.
Qed.

(** Where the first atom of a pattern matches nowhere, [re.sub] changes
    nothing. *)
Lemma sub_from_unmatched (a : Re.atom) (n : nat) (hi : option nat) (r : Re.regex)
      (repl : text) (s : text) :
  Forall (fun c => Re.atom_matches false a c = false) s ->
  Re.sub_from (Re.Item a (S n) hi :: r) repl 0 s = s.
Proof.
  induction 1 as [|c s Hc _ IH]; cbn [Re.sub_from]; [reflexivity|].
  rewrite (match_here_first_fails false a n hi r c s Hc). now rewrite IH.
Qed.

(** *** [strip] *)

Lemma lstrip_incl (t : text) (c : ascii) : In c (lstrip t) -> In c t.
Proof.
  induction t as [|x t IH]; cbn [lstrip]; [trivial|].
  destruct (is_space x); [|trivial]. intro H. right. now apply IH.
Qed.

Lemma strip_incl (t : text) (c : ascii) : In c (strip t) -> In c t.
Proof.
  unfold strip, rstrip. intro H. apply in_rev in H. apply lstrip_incl in H.
  apply in_rev in H. now apply lstrip_incl.
Qed.

Lemma lstrip_fixed (c : ascii) (t : text) : is_space c = false -> lstrip (c :: t) = c :: t.
Proof. intro H. cbn [lstrip]. now rewrite H. Qed.

Lemma lstrip_head (t : text) :
  lstrip t = [] \/ exists c t', lstrip t = c :: t' /\ is_space c = false.
Proof.
  induction t as [|x t IH]; cbn [lstrip]; [now left|].
  destruct (is_space x) eqn:E; [exact IH|]. right. now exists x, t.
Qed.

Lemma lstrip_idempotent (t : text) : lstrip (lstrip t) = lstrip t.
Proof.
  destruct (lstrip_head t) as [->|(c & t' & -> & H)]; [reflexivity|].
  now apply lstrip_fixed.
Qed.

Lemma lstrip_suffix (t : text) : exists spaces, t = spaces ++ lstrip t.
Proof.
  induction t as [|x t (sp & IH)]; cbn [lstrip]; [now exists []|].
  destruct (is_space x); [|now exists []].
  exists (x :: sp). cbn [app]. now f_equal.
Qed.

Lemma rstrip_prefix (t : text) : exists spaces, t = rstrip t ++ spaces.
Proof.
  unfold rstrip. destruct (lstrip_suffix (rev t)) as (sp & E).
  exists (rev sp). rewrite <- rev_app_distr, <- E. now rewrite rev_involutive.
Qed.

Lemma rstrip_idempotent (t : text) : rstrip (rstrip t) = rstrip t.
Proof. unfold rstrip. now rewrite rev_involutive, lstrip_idempotent. Qed.

Lemma strip_idempotent (t : text) : strip (strip t) = strip t.
Proof.
  unfold strip.
  assert (H : lstrip (rstrip (lstrip t)) = rstrip (lstrip t)).
  { destruct (rstrip_prefix (lstrip t)) as (sp & E).
    destruct (rstrip (lstrip t)) as [|c t'] eqn:Er; [reflexivity|].
    destruct (lstrip_head t) as [El|(c' & t'' & El & Hc)].
    - rewrite El in E. discriminate E.
    - rewrite El in E. cbn [app] in E. injection E as -> _. now apply lstrip_fixed. }
  rewrite H. apply rstrip_idempotent.
Qed.

(** *** The characters of a normalised text *)

Lemma lower_char_idempotent (c : ascii) : lower_char (lower_char c) = lower_char c.
Proof. destruct c as [[] [] [] [] [] [] [] []]; reflexivity. Qed.

Lemma lower_char_not_capital_i (c : ascii) :
  Re.atom_matches false (Re.Lit "I"%char) (lower_char c) = false.
Proof. destruct c as [[] [] [] [] [] [] [] []]; reflexivity. Qed.

Lemma fold_sub_delete_incl (ps : list Re.regex) :
  forall (s : text) (c : ascii),
    In c (fold_left (fun acc pattern => Re.sub pattern [] acc) ps s) -> In c s.
Proof.
  induction ps as [|p ps IH]; intros s c; cbn [fold_left]; [trivial|].
  intro H. apply IH in H. now apply sub_delete_incl in H.
Qed.

Lemma normalize_text_with_chars (ps : list Re.regex) (t : text) (c : ascii) :
  In c (normalize_text_with ps t) ->
  (is_word c = true /\ exists c0, In c0 t /\ c = lower_char c0) \/ c = char_space.
Proof.
  unfold normalize_text_with. intro H.
  apply strip_incl in H.
  apply sub_from_chars in H as [[]|(s1 & s2 & E & Hk)].
  assert (Hin : In c (Re.sub pat_spaces (str " ")
                        (fold_left (fun acc pattern => Re.sub pattern [] acc) ps
                                   (strip (lower t)))))
    by (rewrite E; apply in_app_iff; right; now left).
  apply (kept_at_single Re.NotWordSpace (Some 1%nat) c s2 eq_refl) in Hk.
  cbn [Re.atom_matches] in Hk. apply negb_false_iff in Hk.
  apply sub_from_chars in Hin as [[<-|[]]|(s3 & s4 & E' & Hk')]; [now right|].
  apply (kept_at_single Re.Space None c s4 eq_refl) in Hk'.
  cbn [Re.atom_matches] in Hk'. rewrite Hk', orb_false_r in Hk.
  left. split; [exact Hk|].
  assert (Hin' : In c (fold_left (fun acc pattern => Re.sub pattern [] acc) ps
                                 (strip (lower t))))
    by (rewrite E'; apply in_app_iff; right; now left).
  apply fold_sub_delete_incl, strip_incl in Hin'.
  unfold lower in Hin'. apply in_map_iff in Hin' as (c0 & <- & Hc0). now exists c0.
Qed.

(** X14. What a normalised text is made of.  Whatever the text,
    [normalize_text] returns a text in which every character is a word
    character (of the class [\w]) or the space U+0020: no punctuation and no
    other whitespace is left; no character is in upper case, so [lower]
    leaves the result as it is; and the result has no whitespace at either
    end, so [strip] leaves it as it is. *)
Theorem normalize_text_output (t : text) :
  Forall (fun c => is_word c = true \/ c = char_space) (normalize_text t)
  /\ lower (normalize_text t) = normalize_text t
  /\ strip (normalize_text t) = normalize_text t.
Proof.
  change (normalize_text t) with (normalize_text_with patterns t).
  split; [|split].
  - apply Forall_forall. intros c Hc.
    apply normalize_text_with_chars in Hc as [[Hw _]|Hs]; [now left|now right].
  - unfold lower. rewrite <- (map_id (normalize_text_with patterns t)) at 2.
    apply map_ext_in. intros c Hc.
    apply normalize_text_with_chars in Hc as [[_ (c0 & _ & ->)]| ->].
    + apply lower_char_idempotent.
    + reflexivity.
  - unfold normalize_text_with. apply strip_idempotent.
Qed.

(** X15. The pattern [ID:\s*\d+] of [normalize_text] never matches.  It
    is matched, case-sensitively, against a text that [lower] has gone
    through, which holds no capital I; so [normalize_text] is the same
    function with the three other patterns alone, and an id written
    [ID: 123] is not removed from the text. *)
Theorem normalize_text_id_pattern_is_dead (t : text) :
  normalize_text t = normalize_text_with [pat_date; pat_time; pat_hash] t.
Proof.
  unfold normalize_text, normalize_text_with, patterns. cbn [fold_left].
  set (s := Re.sub pat_time [] (Re.sub pat_date [] (strip (lower t)))).
  assert (E : Re.sub pat_id [] s = s).
  { unfold Re.sub, pat_id. cbn [Re.lits str list_ascii_of_string map app Re.one].
    apply sub_from_unmatched. apply Forall_forall. intros c Hc.
    subst s. apply sub_delete_incl, sub_delete_incl, strip_incl in Hc.
    unfold lower in Hc. apply in_map_iff in Hc as (c0 & <- & _).
    apply lower_char_not_capital_i. }
  now rewrite E.
Qed.

Example normalize_text_keeps_ids :
  normalize_text (str "Ticket ID: 123 closed") = str "ticket id 123 closed"
  /\ normalize_text (str "Ticket #123 closed") = str "ticket closed".
Proof. split; vm_compute; reflexivity. Qed.

(** ** The range and the extremes of the scores *)

Lemma below_one_in_unit_interval (x : spec_float) : below 1 0 x -> in_unit_interval x.
Proof.
  intros [->|(m & e & -> & Hcan & He & Hm)]; [split; reflexivity|].
  split; [reflexivity|].
  unfold F64.leb, SFleb, F64.one, SFcompare.
  rewrite fexp_eq in Hcan. rewrite Z.mul_1_l in Hm.
  pose proof (digits2_bounds m) as [B _].
  destruct (Z.compare e (-52)) eqn:Ec.
  - apply Z.compare_eq in Ec. subst e. change (2 ^ (0 - -52)) with 4503599627370496 in Hm.
    destruct (Pos.compare_cont Eq m 4503599627370496) eqn:Em; try reflexivity.
    exfalso. apply Pos.compare_gt_iff in Em. lia.
  - reflexivity.
  - exfalso. rewrite Z.compare_gt_iff in Ec.
    assert (Hd : Zpos (digits2_pos m) = 53) by lia. rewrite Hd in B.
    assert (2 ^ (0 - e) <= 2 ^ 51) by (apply Z.pow_le_mono_r; lia).
    simpl (2 ^ (53 - 1)) in B. simpl (2 ^ 51) in *. lia.
Qed.

Lemma below_three_quarters_below_one (x : spec_float) : below 3 (-2) x -> below 1 0 x.
Proof.
  intros [->|(m & e & -> & Hcan & He & Hm)]; [now left|right].
  exists m, e. repeat split; [exact Hcan|lia|].
  replace (0 - e) with (2 + (-2 - e)) by lia. rewrite pow2_split by lia.
  assert (0 < 2 ^ (-2 - e)) by (apply pow2_pos; lia). simpl (2 ^ 2). lia.
Qed.

Lemma scores_of_equal_normalisations (norm1 norm2 : text) :
  norm1 = norm2 -> len norm1 < 2 ^ 52 ->
  exact_match_of norm1 norm2 = F64.one
  /\ ratio norm1 norm2 = F64.one
  /\ levenshtein_similarity_of norm1 norm2 = F64.one
  /\ jaccard_similarity_of norm1 norm2 = F64.one.
Proof.
  intros <- H.
  now rewrite exact_match_same, (ratio_same _ H), (levenshtein_similarity_same _ H),
    (jaccard_similarity_same _ H).
Qed.

(** X16. Texts that are equal once normalised are full duplicates.  When
    [normalize_text] gives the same text for both (they differ in letter
    case, in the whitespace around, in dates, times, [#] numbers or
    punctuation only), every metric is 1.0 and, under the default weights,
    the composite score is 1.0 exactly; the default engine, with its
    threshold 0.85, takes them for duplicates.  The normalised text has
    fewer than [2^52] characters. *)
Theorem equal_normalisations_score_one (text1 text2 : text) :
  normalize_text text1 = normalize_text text2 ->
  len (normalize_text text1) < 2 ^ 52 ->
  let s := calculate_similarity default_weights text1 text2 in
  exact_match s = F64.one
  /\ sequence_similarity s = F64.one
  /\ levenshtein_similarity s = F64.one
  /\ jaccard_similarity s = F64.one
  /\ composite_similarity s = F64.one
  /\ is_duplicate default_engine text1 text2 = true.
Proof.
  intros E H. cbv zeta.
  destruct (scores_of_equal_normalisations _ _ E H) as (H1 & H2 & H3 & H4).
  assert (Hc : composite_similarity (calculate_similarity default_weights text1 text2)
               = F64.one).
  { unfold calculate_similarity. cbn [composite_similarity].
    rewrite H1, H2, H3, H4. vm_compute. reflexivity. }
  split; [exact H1|]. split; [exact H2|]. split; [exact H3|]. split; [exact H4|].
  split; [exact Hc|].
  unfold is_duplicate. change (engine_weights default_engine) with default_weights.
  rewrite Hc. vm_compute. reflexivity.
Qed.

Lemma equal_normalisations_score_one_witness :
  let s := calculate_similarity default_weights (str "Up 10:00:01") (str "  UP, 10:00:02") in
  exact_match s = F64.one
  /\ sequence_similarity s = F64.one
  /\ levenshtein_similarity s = F64.one
  /\ jaccard_similarity s = F64.one
  /\ composite_similarity s = F64.one
  /\ is_duplicate default_engine (str "Up 10:00:01") (str "  UP, 10:00:02") = true.
Proof.
  apply (equal_normalisations_score_one (str "Up 10:00:01") (str "  UP, 10:00:02")).
  - vm_compute. reflexivity.
  - vm_compute. reflexivity.
Defined.

(** X17. With the threshold 1.0 and the default weights, two texts are
    duplicates exactly when their normalised texts are equal: equal
    normalised texts score 1.0, and different ones score at most 0.75.  The
    normalised texts have fewer than [2^52] characters. *)
Theorem exact_threshold_means_equal_normalisations (text1 text2 : text) :
  len (normalize_text text1) < 2 ^ 52 -> len (normalize_text text2) < 2 ^ 52 ->
  is_duplicate exact_engine text1 text2 = true
  <-> normalize_text text1 = normalize_text text2.
Proof.
  intros H1 H2. split.
  - now apply is_duplicate_exact.
  - intro E. destruct (scores_of_equal_normalisations _ _ E H1) as (E1 & E2 & E3 & E4).
    unfold is_duplicate, calculate_similarity.
    cbn [exact_engine engine_weights similarity_threshold composite_similarity].
    rewrite E1, E2, E3, E4. vm_compute. reflexivity.
Qed.

Lemma exact_threshold_means_equal_normalisations_witness :
  is_duplicate exact_engine (str "Up 10:00:01") (str "Up 10:00:02") = true
  <-> normalize_text (str "Up 10:00:01") = normalize_text (str "Up 10:00:02").
Proof.
  apply (exact_threshold_means_equal_normalisations (str "Up 10:00:01") (str "Up 10:00:02")).
  - vm_compute. reflexivity.
  - vm_compute. reflexivity.
Defined.

Lemma composite_in_unit_interval (text1 text2 : text) :
  len (normalize_text text1) < 2 ^ 52 -> len (normalize_text text2) < 2 ^ 52 ->
  in_unit_interval (composite_similarity (calculate_similarity default_weights text1 text2)).
Proof.
  intros H1 H2.
  destruct (text_dec (normalize_text text1) (normalize_text text2)) as [E|Hne].
  - destruct (scores_of_equal_normalisations _ _ E H1) as (E1 & E2 & E3 & E4).
    unfold calculate_similarity. cbn [composite_similarity].
    rewrite E1, E2, E3, E4. split; vm_compute; reflexivity.
  - apply below_one_in_unit_interval, below_three_quarters_below_one.
    now apply composite_below_one.
Qed.

(** X18. Every score is a number between 0.0 and 1.0.  Under the default
    weights, the four metrics and the composite score of
    [calculate_similarity] are floats [x] with [0.0 <= x <= 1.0]: never a
    NaN, never negative, never above 1.0, whatever the rounding of the
    divisions, products and sums.  The normalised texts have fewer than
    [2^52] characters. *)
Theorem scores_in_unit_interval (text1 text2 : text) :
  len (normalize_text text1) < 2 ^ 52 -> len (normalize_text text2) < 2 ^ 52 ->
  let s := calculate_similarity default_weights text1 text2 in
  in_unit_interval (exact_match s)
  /\ in_unit_interval (sequence_similarity s)
  /\ in_unit_interval (levenshtein_similarity s)
  /\ in_unit_interval (jaccard_similarity s)
  /\ in_unit_interval (composite_similarity s).
Proof.
  intros H1 H2. cbv zeta.
  assert (Hsum : len (normalize_text text1) + len (normalize_text text2) < 2 ^ 53).
  { change (2 ^ 53) with (2 ^ 52 + 2 ^ 52). lia. }
  assert (Hmax : Z.max (len (normalize_text text1)) (len (normalize_text text2)) < 2 ^ 53).
  { change (2 ^ 53) with (2 ^ 52 + 2 ^ 52). unfold len in *. lia. }
  split; [|split; [|split; [|split]]].
  - unfold calculate_similarity. cbn [exact_match]. unfold exact_match_of.
    destruct (text_eqb (normalize_text text1) (normalize_text text2)); split; reflexivity.
  - apply below_one_in_unit_interval. now apply ratio_below_one.
  - apply below_one_in_unit_interval. now apply levenshtein_similarity_below_one.
  - apply below_one_in_unit_interval. now apply jaccard_similarity_below_one.
  - now apply composite_in_unit_interval.
Qed.

Lemma scores_in_unit_interval_witness :
  let s := calculate_similarity default_weights (str "tide") (str "diet") in
  in_unit_interval (exact_match s)
  /\ in_unit_interval (sequence_similarity s)
  /\ in_unit_interval (levenshtein_similarity s)
  /\ in_unit_interval (jaccard_similarity s)
  /\ in_unit_interval (composite_similarity s).
Proof.
  apply (scores_in_unit_interval (str "tide") (str "diet")).
  - vm_compute. reflexivity.
  - vm_compute. reflexivity.
Defined.

(** *** The Jaccard score and the sets of words *)

Lemma word_set_in (norm : text) (w : text) : In w (word_set norm) <-> In w (split norm).
Proof. unfold word_set. apply nodup_In. Qed.

Lemma filter_all {A : Type} (f : A -> bool) (l : list A) :
  (forall x, In x l -> f x = true) -> filter f l = l.
Proof.
  induction l as [|x l IH]; intro H; cbn [filter]; [reflexivity|].
  rewrite (H x) by now left. f_equal. apply IH. intros y Hy. apply H. now right.
Qed.

Lemma filter_none {A : Type} (f : A -> bool) (l : list A) :
  (forall x, In x l -> f x = false) -> filter f l = [].
Proof.
  induction l as [|x l IH]; intro H; cbn [filter]; [reflexivity|].
  rewrite (H x) by now left. apply IH. intros y Hy. apply H. now right.
Qed.

Lemma truediv_zero (k : Z) : 0 < k < 2 ^ 53 -> F64.truediv 0 k = F64.zero.
Proof.
  intros [H0 H1]. destruct k as [|p|p]; try lia.
  unfold F64.truediv. rewrite of_int_pos by (apply digits2_pos_bound; [lia|exact H1]).
  reflexivity.
Qed.

(** X19. The Jaccard score sees the sets of words only.  When the two
    normalised texts have the same words, in whatever order and however
    often repeated, [jaccard_similarity] is 1.0; when they share no word
    and one of them has a word, it is 0.0.  The normalised texts have
    together fewer than [2^53] characters. *)
Theorem jaccard_depends_on_word_sets (w : weights) (text1 text2 : text) :
  len (normalize_text text1) + len (normalize_text text2) < 2 ^ 53 ->
  let s := calculate_similarity w text1 text2 in
  let words1 := split (normalize_text text1) in
  let words2 := split (normalize_text text2) in
  ((forall x, In x words1 <-> In x words2) -> jaccard_similarity s = F64.one)
  /\ ((forall x, In x words1 -> ~ In x words2) ->
      words1 <> [] \/ words2 <> [] ->
      jaccard_similarity s = F64.zero).
Proof.
  intro H. cbv zeta. unfold calculate_similarity. cbn [jaccard_similarity].
  unfold jaccard_similarity_of.
  set (norm1 := normalize_text text1) in *. set (norm2 := normalize_text text2) in *.
  pose proof (word_set_length norm1) as L1. pose proof (word_set_length norm2) as L2.
  pose proof (word_set_in norm1) as I1. pose proof (word_set_in norm2) as I2.
  split.
  - intro Hsame.
    assert (Hs : forall x, In x (word_set norm1) <-> In x (word_set norm2))
      by (intro x; rewrite I1, I2; apply Hsame).
    assert (Ei : intersection (word_set norm1) (word_set norm2) = word_set norm1).
    { unfold intersection. apply filter_all. intros x Hx.
      destruct (in_dec text_dec x (word_set norm2)) as [_|N]; [reflexivity|].
      elim N. now apply Hs. }
    assert (Eu : union (word_set norm1) (word_set norm2) = word_set norm1).
    { unfold union. rewrite filter_none; [apply app_nil_r|]. intros x Hx.
      destruct (in_dec text_dec x (word_set norm1)) as [_|N]; [reflexivity|].
      elim N. now apply Hs. }
    rewrite Ei, Eu.
    destruct (word_set norm1) as [|w1 ws1] eqn:E1.
    + destruct (word_set norm2) as [|w2 ws2]; [reflexivity|].
      exfalso. apply (proj2 (Hs w2)). now left.
    + destruct (word_set norm2) as [|w2 ws2].
      * exfalso. apply (proj1 (Hs w1)). now left.
      * cbn [is_empty andb orb]. apply truediv_same. unfold len in H.
        cbn [List.length] in *. lia.
  - intros Hdis Hne.
    assert (Ei : intersection (word_set norm1) (word_set norm2) = []).
    { unfold intersection. apply filter_none. intros x Hx.
      destruct (in_dec text_dec x (word_set norm2)) as [Hin|_]; [|reflexivity].
      exfalso. apply (Hdis x); [now apply I1|now apply I2]. }
    rewrite Ei.
    pose proof (union_length_le (word_set norm1) (word_set norm2)) as Lu.
    destruct (word_set norm1) as [|w1 ws1] eqn:E1;
      destruct (word_set norm2) as [|w2 ws2] eqn:E2; cbn [is_empty andb orb];
        try reflexivity.
    + exfalso. destruct Hne as [Hne|Hne]; apply Hne.
      * destruct (split norm1) as [|x l]; [reflexivity|].
        exfalso. apply (proj2 (I1 x)). now left.
      * destruct (split norm2) as [|x l]; [reflexivity|].
        exfalso. apply (proj2 (I2 x)). now left.
    + cbn [List.length]. apply truediv_zero. unfold len in H.
      unfold union in *. cbn [app List.length] in *. lia.
Qed.

Lemma jaccard_depends_on_word_sets_witness :
  let s := calculate_similarity default_weights (str "b a b") (str "a b") in
  let words1 := split (normalize_text (str "b a b")) in
  let words2 := split (normalize_text (str "a b")) in
  ((forall x, In x words1 <-> In x words2) -> jaccard_similarity s = F64.one)
  /\ ((forall x, In x words1 -> ~ In x words2) ->
      words1 <> [] \/ words2 <> [] ->
      jaccard_similarity s = F64.zero).
Proof.
  apply (jaccard_depends_on_word_sets default_weights (str "b a b") (str "a b")).
  vm_compute. reflexivity.
Defined.

Example jaccard_on_reordered_words :
  jaccard_similarity (calculate_similarity default_weights (str "b a b") (str "a b"))
  = F64.one
  /\ jaccard_similarity (calculate_similarity default_weights (str "a b") (str "c d"))
     = F64.zero.
Proof. split; vm_compute; reflexivity. Qed.

(** ** The analysis of checkpoint observations *)

Section CheckpointAnalysis.

Variable checkpoint_patterns : list Re.regex.
Variable md5_hexdigest : text -> text.

Lemma group_lookup_append (s s' : text) (o : record) (g : Checkpoint.groups) :
  group_lookup s (Checkpoint.group_append s' o g)
  = if text_eqb s' s then group_lookup s g ++ [o] else group_lookup s g.
Proof.
  induction g as [|[k members] g IH]; cbn [Checkpoint.group_append group_lookup].
  - destruct (text_eqb s' s); reflexivity.
  - destruct (text_eqb k s') eqn:Ek; cbn [group_lookup].
    + apply text_eqb_eq in Ek. subst k. destruct (text_eqb s' s); reflexivity.
    + destruct (text_eqb k s) eqn:Eks; [|exact IH].
      apply text_eqb_eq in Eks. subst k.
      rewrite text_eqb_sym in Ek. now rewrite Ek.
Qed.

Lemma group_lookup_in (g : Checkpoint.groups) (s : text) (members : list record) :
  NoDup (map fst g) -> In (s, members) g -> group_lookup s g = members.
Proof.
  induction g as [|[k m] g IH]; cbn [map fst group_lookup]; intros Hn Hin; [destruct Hin|].
  apply NoDup_cons_iff in Hn as [Hk Hn].
  destruct Hin as [E|Hin].
  - injection E as -> ->. now rewrite text_eqb_refl.
  - destruct (text_eqb k s) eqn:E; [|now apply IH].
    apply text_eqb_eq in E. subst k. elim Hk.
    apply in_map_iff. now exists (s, members).
Qed.

Lemma group_append_length (s : text) (o : record) (g : Checkpoint.groups) :
  forall n,
    fold_left (fun acc x => (acc + List.length (snd x))%nat)
              (Checkpoint.group_append s o g) n
    = S (fold_left (fun acc x => (acc + List.length (snd x))%nat) g n).
Proof.
  induction g as [|[k members] g IH]; intro n; cbn [Checkpoint.group_append fold_left].
  - cbn. lia.
  - destruct (text_eqb k s); cbn [fold_left snd].
    + rewrite length_app. cbn [List.length].
      replace (n + (List.length members + 1))%nat
        with (S (n + List.length members)) by lia.
      generalize (n + List.length members)%nat. clear.
      induction g as [|x g IH]; intro m; cbn [fold_left]; [reflexivity|].
      apply IH.
    + apply IH.
Qed.

Lemma group_append_nonempty (s : text) (o : record) (g : Checkpoint.groups) :
  Forall (fun x => snd x <> []) g ->
  Forall (fun x => snd x <> []) (Checkpoint.group_append s o g).
Proof.
  induction 1 as [|[k members] g Hx Hg IH]; cbn [Checkpoint.group_append].
  - repeat constructor. discriminate.
  - destruct (text_eqb k s); constructor; try assumption.
    cbn [snd]. now destruct members.
Qed.

(** What the loop of [analyze_checkpoint_redundancy] computes. *)
Lemma classify_spec (observations : list record) :
  forall (g : Checkpoint.groups) (regular : list Checkpoint.observation),
    NoDup (map fst g) ->
    Forall (fun x => snd x <> []) g ->
    let r := Checkpoint.classify checkpoint_patterns md5_hexdigest observations g regular in
    NoDup (map fst (fst r))
    /\ Forall (fun x => snd x <> []) (fst r)
    /\ (forall s, group_lookup s (fst r)
                  = group_lookup s g
                    ++ filter (checkpoint_of checkpoint_patterns md5_hexdigest s)
                              observations)
    /\ snd r = regular
               ++ filter (fun o => negb (is_checkpoint_record checkpoint_patterns o))
                         observations
    /\ (forall n,
           fold_left (fun acc x => (acc + List.length (snd x))%nat) (fst r) n
           = (fold_left (fun acc x => (acc + List.length (snd x))%nat) g n
              + List.length (filter (is_checkpoint_record checkpoint_patterns)
                                    observations))%nat).
Proof.
  induction observations as [|o observations IH]; intros g regular Hn Hne; cbv zeta;
    cbn [Checkpoint.classify filter].
  - cbn [fst snd List.length]. repeat split; try assumption.
    + intro s. now rewrite app_nil_r.
    + now rewrite app_nil_r.
    + intro n. lia.
  - unfold checkpoint_of at 1.
    change (Checkpoint.is_checkpoint_observation checkpoint_patterns (rec_content o))
      with (is_checkpoint_record checkpoint_patterns o).
    change (Checkpoint.generate_checkpoint_signature md5_hexdigest (rec_content o))
      with (signature_of md5_hexdigest o).
    destruct (is_checkpoint_record checkpoint_patterns o) eqn:Eck; cbn [negb andb].
    + destruct (IH (Checkpoint.group_append (signature_of md5_hexdigest o) o g) regular
                   (group_append_nodup md5_hexdigest _ _ _ Hn) (group_append_nonempty _ _ _ Hne))
        as (H1 & H2 & H3 & H4 & H5).
      repeat split; try assumption.
      * intro s. rewrite H3, group_lookup_append.
        destruct (text_eqb (signature_of md5_hexdigest o) s);
          [now rewrite <- app_assoc|reflexivity].
      * intro n. rewrite H5, group_append_length. cbn [List.length]. lia.
    + destruct (IH g (regular ++ [o]) Hn Hne) as (H1 & H2 & H3 & H4 & H5).
      repeat split; try assumption.
      etransitivity; [exact H4|]. now rewrite <- app_assoc.
Qed.

Lemma filter_partition_length {A : Type} (f : A -> bool) (l : list A) :
  (List.length (filter f l) + List.length (filter (fun x => negb (f x)) l))%nat
  = List.length l.
Proof.
  induction l as [|x l IH]; cbn [filter List.length]; [reflexivity|].
  destruct (f x); cbn [negb List.length]; lia.
Qed.

Lemma redundant_sum (g : Checkpoint.groups) :
  Forall (fun x => snd x <> []) g ->
  forall n m,
    (fold_left (fun acc x => if (1 <? List.length (snd x))%nat
                             then (acc + (List.length (snd x) - 1))%nat else acc) g n
     + List.length g + m
     = fold_left (fun acc x => (acc + List.length (snd x))%nat) g m + n)%nat.
Proof.
  induction 1 as [|[k members] g Hx _ IH]; intros n m; cbn [fold_left List.length snd].
  - lia.
  - cbn [snd] in Hx.
    destruct (1 <? List.length members)%nat eqn:E.
    + apply Nat.ltb_lt in E.
      specialize (IH (n + (List.length members - 1))%nat (m + List.length members)%nat).
      lia.
    + apply Nat.ltb_ge in E.
      assert (List.length members = 1%nat) by (destruct members; cbn in *; [congruence|lia]).
      specialize (IH n (m + List.length members)%nat). lia.
Qed.

(** X20. The counts of [analyze_checkpoint_redundancy].  Every
    observation is counted once: [checkpoint_observations] is the number of
    observations that a pattern recognises, [regular_observations] the
    number of the others, and they add up to [total_observations].  No
    group is empty, so [redundant_checkpoints] is the number of checkpoint
    observations less the number of groups: all but one of each
    signature. *)
Theorem checkpoint_analysis_counts (observations : list record) :
  let a := Checkpoint.analyze_checkpoint_redundancy checkpoint_patterns md5_hexdigest
                                                    observations in
  Checkpoint.total_observations a = List.length observations
  /\ Checkpoint.checkpoint_observations a
     = List.length (filter (is_checkpoint_record checkpoint_patterns) observations)
  /\ (Checkpoint.checkpoint_observations a + Checkpoint.regular_observations_count a
      = Checkpoint.total_observations a)%nat
  /\ (Checkpoint.redundant_checkpoints a + Checkpoint.checkpoint_groups_count a
      = Checkpoint.checkpoint_observations a)%nat.
Proof.
  cbv zeta. unfold Checkpoint.analyze_checkpoint_redundancy.
  destruct (classify_spec observations [] [] (NoDup_nil _) (Forall_nil _))
    as (_ & Hne & _ & Hreg & Hsum).
  destruct (Checkpoint.classify checkpoint_patterns md5_hexdigest observations [] [])
    as [g regular]. cbn [fst snd] in *.
  cbn [Checkpoint.total_observations Checkpoint.checkpoint_observations
       Checkpoint.regular_observations_count Checkpoint.checkpoint_groups_count
       Checkpoint.redundant_checkpoints].
  pose proof (Hsum 0%nat) as H0. cbn [fold_left Nat.add] in H0.
  split; [reflexivity|]. split; [exact H0|]. split.
  - rewrite H0, Hreg. cbn [app]. apply filter_partition_length.
  - pose proof (redundant_sum g Hne 0%nat 0%nat) as Hr. lia.
Qed.

(** X21. What [analyze_checkpoint_redundancy] puts in the groups.  Each
    signature heads one list; the list of a signature holds the checkpoint
    observations of this signature, all of them, in the order of the query,
    and is not empty; [regular_observations] holds the observations that
    no pattern recognises, in the order of the query. *)
Theorem checkpoint_groups_are_filters (observations : list record) :
  let r := Checkpoint.classify checkpoint_patterns md5_hexdigest observations [] [] in
  NoDup (map fst (fst r))
  /\ Forall (fun x =>
               snd x <> []
               /\ snd x = filter (checkpoint_of checkpoint_patterns md5_hexdigest (fst x))
                                 observations)
            (fst r)
  /\ snd r = filter (fun o => negb (is_checkpoint_record checkpoint_patterns o))
                    observations.
Proof.
  cbv zeta.
  destruct (classify_spec observations [] [] (NoDup_nil _) (Forall_nil _))
    as (Hn & Hne & Hlook & Hreg & _).
  split; [exact Hn|]. split; [|exact Hreg].
  apply Forall_forall. intros [s members] Hin. cbn [fst snd].
  rewrite Forall_forall in Hne. split; [exact (Hne _ Hin)|].
  rewrite <- (group_lookup_in _ _ _ Hn Hin). apply Hlook.
Qed.

End CheckpointAnalysis.

(** ** Letter case and digits in checkpoint observations *)







(** *** Digits *)
















(** The number of digits matters: a counter that gets one more digit keeps
    the signature, a time written with one digit less does not. *)
Example signature_on_digit_counts :
  Checkpoint.generate_checkpoint_signature sample_digest (str "sync 9 at 10:00:01")
  = str "sync NUM at TIME"
  /\ Checkpoint.generate_checkpoint_signature sample_digest (str "sync 10 at 10:00:01")
     = str "sync NUM at TIME"
  /\ Checkpoint.generate_checkpoint_signature sample_digest (str "sync 10 at 9:00:01")
     = str "sync NUM at NUM:NUM:NUM".
Proof. repeat split; vm_compute; reflexivity. Qed.

(** ** The content [merge] writes *)

Section MergedContent.

Variable strftime : Z -> text.

(** X24. What [_merge_content] appends.  The merged content is the
    content of the primary record followed by an annotation; the annotation
    is made of the number of secondary records, the time of the clock and
    the [created_at] of the secondary records: it is the same for every
    primary record and for all secondary records of these dates, so the
    content and the ids of the secondary records do not enter the merged
    content.  [_merge_content] changes nothing in the world. *)
Theorem merge_content_keeps_dates_only (primary1 primary2 : record)
        (secondary1 secondary2 : list record) (w1 w2 : world) :
  map rec_created_at secondary1 = map rec_created_at secondary2 ->
  clock w1 = clock w2 ->
  exists annotation,
    merge_content strftime primary1 secondary1 w1
    = (Ok (rec_content primary1 ++ annotation), w1)
    /\ merge_content strftime primary2 secondary2 w2
       = (Ok (rec_content primary2 ++ annotation), w2).
Proof.
  intros Hd Hc. unfold merge_content, bind, now, ret. rewrite Hc.
  assert (Hl : List.length secondary1 = List.length secondary2).
  { rewrite <- (length_map rec_created_at secondary1), Hd. apply length_map. }
  assert (Hm : map (fun r => strftime (rec_created_at r)) secondary1
               = map (fun r => strftime (rec_created_at r)) secondary2).
  { rewrite <- (map_map rec_created_at strftime secondary1),
      <- (map_map rec_created_at strftime secondary2). now rewrite Hd. }
  rewrite Hl, Hm. eexists. split; reflexivity.
Qed.

End MergedContent.

Lemma merge_content_keeps_dates_only_witness :
  exists annotation,
    merge_content sample_strftime (mkRecord 2 (str "alpha") 30)
                  [mkRecord 1 (str "alpha one") 10] sample_world
    = (Ok (str "alpha" ++ annotation), sample_world)
    /\ merge_content sample_strftime (mkRecord 5 (str "beta") 40)
                     [mkRecord 7 (str "something else") 10] sample_world
       = (Ok (str "beta" ++ annotation), sample_world).
Proof.
  exact (merge_content_keeps_dates_only sample_strftime
           (mkRecord 2 (str "alpha") 30) (mkRecord 5 (str "beta") 40)
           [mkRecord 1 (str "alpha one") 10] [mkRecord 7 (str "something else") 10]
           sample_world sample_world eq_refl eq_refl).
Defined.

(** ** The threshold 0.0 *)

Lemma cluster_loop_all_processed (self : engine) (rows : list record) :
  forall (gs : list duplicate_group) (processed : list Z),
    (forall r, In r rows -> In (rec_id r) processed) ->
    cluster_loop self rows gs processed = gs.
Proof.
  induction rows as [|record1 rest IH]; intros gs processed H; cbn [cluster_loop];
    [reflexivity|].
  replace (id_in (rec_id record1) processed) with true.
  - apply IH. intros r Hr. apply H. now right.
  - symmetry. apply id_in_iff. apply H. now left.
Qed.

(** X25. With the threshold 0.0 everything is one group.  Every
    composite score is at least 0.0, so with the threshold 0.0, the default
    weights, distinct ids and at least two records, [find_duplicates] puts
    all the records in a single group led by the first record of the query.
    The normalised texts have fewer than [2^52] characters. *)
Theorem threshold_zero_groups_everything (first second : record) (more : list record) :
  let rows := first :: second :: more in
  NoDup (map rec_id rows) ->
  (forall r, In r rows -> len (normalize_text (rec_content r)) < 2 ^ 52) ->
  duplicate_groups (find_duplicates zero_engine rows) = [make_group zero_engine 0 rows]
  /\ duplicate_records (find_duplicates zero_engine rows) = List.length rows.
Proof.
  cbv zeta. intros Hn Hlen.
  remember (second :: more) as rest eqn:Hrest.
  assert (Hdup : forall r, In r rest ->
                   joins zero_engine (rec_content first) [] r = true).
  { intros r Hr. unfold joins. cbn [id_in existsb negb andb].
    unfold is_duplicate. cbn [zero_engine engine_weights similarity_threshold].
    unfold F64.geb.
    apply (composite_in_unit_interval (rec_content first) (rec_content r)).
    - apply Hlen. now left.
    - apply Hlen. now right. }
  assert (Hg : find_duplicate_groups zero_engine (first :: rest)
               = [make_group zero_engine 0 (first :: rest)]).
  { unfold find_duplicate_groups. cbn [cluster_loop id_in existsb].
    cbn [map] in Hn. apply NoDup_cons_iff in Hn as [_ Hn].
    rewrite (scan_candidates_filter zero_engine (rec_content first) rest Hn).
    rewrite (filter_all _ _ Hdup). cbn [app List.length].
    replace (1 <? S (List.length rest))%nat with true
      by (rewrite Hrest; reflexivity).
    apply cluster_loop_all_processed.
    intros r Hr. right. apply in_app_iff. left. apply -> in_rev. now apply in_map. }
  unfold find_duplicates. cbn [duplicate_groups duplicate_records]. rewrite Hg.
  split; [reflexivity|]. cbn [fold_left make_group count]. reflexivity.
Qed.

Lemma threshold_zero_groups_everything_witness :
  duplicate_groups (find_duplicates zero_engine sample_records)
  = [make_group zero_engine 0 sample_records]
  /\ duplicate_records (find_duplicates zero_engine sample_records)
     = List.length sample_records.
Proof.
  apply (threshold_zero_groups_everything
           (mkRecord 1 (str "Up 10:00:01") 30) (mkRecord 2 (str "Up 10:00:02") 20)
           [mkRecord 3 (str "Down") 10]).
  - exact sample_records_distinct.
  - intros r [<-|[<-|[<-|[]]]]; vm_compute; reflexivity.
Defined.

(** ** The patterns of a filter built without a configuration file *)

Lemma existsb_firstn {A : Type} (f : A -> bool) (n : nat) (l : list A) :
  existsb f (firstn n l) = true -> existsb f l = true.
Proof.
  intro H. apply existsb_exists in H as (x & Hx & Hf).
  apply existsb_exists. exists x. split; [|exact Hf].
  rewrite <- (firstn_skipn n l). apply in_app_iff. now left.
Qed.

(** X26. Without a configuration file the filter knows three patterns
    only.  [load_config] then returns [get_default_config], which sets
    [checkpoint_patterns] to the first three of the six patterns that
    [__init__] has for a configuration without this key.  So a text that the
    filter built without a file recognises is recognised by the filter built
    from a file that sets no pattern, but not the other way round: the
    latter alone recognises [SYNC: ...], [Checkpoint N completed] and
    [Auto-save at ...].  The threshold of consolidation is 5 in both. *)
Theorem no_config_file_means_three_patterns (t : text) :
  Checkpoint.is_checkpoint_observation (filter_checkpoint_patterns (init None)) t = true ->
  Checkpoint.is_checkpoint_observation
    (filter_checkpoint_patterns (init (Some empty_config))) t = true
  /\ filter_checkpoint_patterns (init None)
     = firstn 3 (filter_checkpoint_patterns (init (Some empty_config)))
  /\ Forall (fun t' =>
               Checkpoint.is_checkpoint_observation
                 (filter_checkpoint_patterns (init (Some empty_config))) t' = true
               /\ Checkpoint.is_checkpoint_observation
                    (filter_checkpoint_patterns (init None)) t' = false)
            [str "SYNC: 2024-01-01 10:00:00"; str "Checkpoint 7 completed";
             str "Auto-save at 2024-01-01"]
  /\ filter_consolidation_threshold (init None) = 5
  /\ filter_consolidation_threshold (init (Some empty_config)) = 5.
Proof.
  intro H.
  assert (E : filter_checkpoint_patterns (init None)
              = firstn 3 (filter_checkpoint_patterns (init (Some empty_config))))
    by reflexivity.
  split; [|split; [exact E|split; [|split; reflexivity]]].
  - unfold Checkpoint.is_checkpoint_observation in *. rewrite E in H.
    now apply existsb_firstn in H.
  - repeat constructor; vm_compute; reflexivity.
Qed.

Lemma no_config_file_means_three_patterns_witness :
  Checkpoint.is_checkpoint_observation
    (filter_checkpoint_patterns (init (Some empty_config)))
    (str "auto-sync - Sincronizaci" ++ Checkpoint.a_tilde_sup3 ++ str "n autom"
         ++ Checkpoint.a_tilde_iexcl ++ str "tica") = true.
Proof.
  apply (no_config_file_means_three_patterns
           (str "auto-sync - Sincronizaci" ++ Checkpoint.a_tilde_sup3 ++ str "n autom"
                ++ Checkpoint.a_tilde_iexcl ++ str "tica")).
  vm_compute. reflexivity.
Defined.
